(** * claims-app SQL verification scripts: extractor and comparator

    A shallow embedding of [scripts/sql_parser.py] (class [SQLParser]) and
    [scripts/sql_comparator.py] (class [SQLComparator]), with the statistics
    of [scripts/generate_verification_report.py], and the properties of the
    specification that concern them.

    Conventions of the embedding.
    - Text is ASCII: a Python [str] is a [string]; characters above 127 are
      neither whitespace nor word characters and have no case. Python's
      [str.upper] and [re] go beyond ASCII (a dotless i is upper-cased to I,
      IGNORECASE lets a dotted capital I match the letter I, the class of
      word characters has accented letters), so the embedding follows the
      scripts on ASCII text; the properties that rest on the letter case of
      a match say so with the hypothesis [ascii_text].
    - The [re] module is embedded as a backtracking matcher over the fragment
      of the pattern language the scripts use; each pattern of the source is
      written out as a [regex] term next to the function that uses it.
    - An exception raised by the source is [None] in the embedding.
    - Python sets are [gset string]; iterating one is [elements].
    - Percentages are rationals ([Q]) where the source has floats.
    - [sqlparse.parse], [difflib.SequenceMatcher.ratio] and
      [difflib.unified_diff] belong to libraries, not to the scripts: the
      functions that call them take them as parameters. *)

From Stdlib Require Import Ascii String QArith.
From stdpp Require Import gmap strings list pretty.

Local Close Scope Q_scope.
Local Open Scope nat_scope.

(** ** Characters *)

Definition code (c : ascii) : N := N_of_ascii c.

Definition in_range (lo hi : N) (c : ascii) : bool :=
  ((lo <=? code c) && (code c <=? hi))%N.

(** [str.isspace] on one ASCII character; also the class [\s] of [re]. *)
Definition is_space (c : ascii) : bool := in_range 9 13 c || in_range 28 32 c.

Definition is_upper (c : ascii) : bool := in_range 65 90 c.
Definition is_lower (c : ascii) : bool := in_range 97 122 c.
Definition is_digit (c : ascii) : bool := in_range 48 57 c.

(** The class [\w] of [re]. *)
Definition is_word (c : ascii) : bool :=
  is_upper c || is_lower c || is_digit c || (code c =? 95)%N.

Definition to_upper (c : ascii) : ascii :=
  if is_lower c then ascii_of_N (code c - 32) else c.

Definition to_lower (c : ascii) : ascii :=
  if is_upper c then ascii_of_N (code c + 32) else c.

Definition newline : ascii := "010"%char.

(** ** Python string methods *)

Definition is_empty (s : string) : bool :=
  match s with "" => true | _ => false end.

(** [s.upper()] on ASCII text: the letters a to z are the ones that change.
    Python's method also maps letters outside ASCII. *)
Fixpoint upper (s : string) : string :=
  match s with
  | "" => ""
  | String c s' => String (to_upper c) (upper s')
  end.

(** [s.startswith(p)] *)
Fixpoint startswith (s p : string) : bool :=
  match p, s with
  | "", _ => true
  | String a p', String b s' => Ascii.eqb a b && startswith s' p'
  | String _ _, "" => false
  end.

(** [p in s] *)
Fixpoint contains (s p : string) : bool :=
  startswith s p ||
  match s with
  | "" => false
  | String _ s' => contains s' p
  end.

(** [s.count(c)] for a one-character [c] *)
Fixpoint count_char (c : ascii) (s : string) : nat :=
  match s with
  | "" => 0
  | String b s' => (if Ascii.eqb c b then 1 else 0) + count_char c s'
  end.

Fixpoint lstrip (s : string) : string :=
  match s with
  | "" => ""
  | String c s' => if is_space c then lstrip s' else s
  end.

Fixpoint rstrip (s : string) : string :=
  match s with
  | "" => ""
  | String c s' =>
      let r := rstrip s' in
      if is_empty r && is_space c then "" else String c r
  end.

(** [s.strip()] *)
Definition strip (s : string) : string := rstrip (lstrip s).

Fixpoint drop_chars (n : nat) (s : string) : string :=
  match n, s with
  | 0, _ => s
  | S _, "" => ""
  | S n', String _ s' => drop_chars n' s'
  end.

(** [s.partition(sep)] for a non-empty [sep], [None] when [sep] does not
    occur: the text before the first occurrence and the text after it. *)
Fixpoint partition (sep s : string) : option (string * string) :=
  if startswith s sep then Some ("", drop_chars (String.length sep) s)
  else
    match s with
    | "" => None
    | String c s' =>
        match partition sep s' with
        | Some (l, r) => Some (String c l, r)
        | None => None
        end
    end.

Fixpoint split_fuel (fuel : nat) (sep s : string) : list string :=
  match fuel with
  | 0 => [s]
  | S fuel' =>
      match partition sep s with
      | Some (l, r) => l :: split_fuel fuel' sep r
      | None => [s]
      end
  end.

(** [s.split(sep)] for a non-empty [sep]. Every cut removes at least one
    character, so [length s] rounds are enough (lemma [split_fuel_enough]). *)
Definition split (sep s : string) : list string :=
  split_fuel (String.length s) sep s.

(** [s.split()]: the maximal runs of non-whitespace characters. [cur] is the
    run being read, if any. *)
Fixpoint split_ws_go (cur : option string) (s : string) : list string :=
  match s with
  | "" => option_list cur
  | String c s' =>
      if is_space c then option_list cur ++ split_ws_go None s'
      else split_ws_go (Some (from_option (λ w, w +:+ String c "") (String c "") cur)) s'
  end.

Definition split_ws (s : string) : list string := split_ws_go None s.

(** [sep.join(l)] *)
Fixpoint join (sep : string) (l : list string) : string :=
  match l with
  | [] => ""
  | [x] => x
  | x :: l' => x +:+ sep +:+ join sep l'
  end.

(** ** The fragment of [re] used by the scripts *)

Record flags := { IGNORECASE : bool; DOTALL : bool }.

(** A set of characters: a literal, [.], [\s], [\w] or [[^a]]. *)
Inductive cset :=
| Lit (a : ascii)
| Dot
| Space
| Word
| NotChr (a : ascii).

(** Membership, on ASCII text: under IGNORECASE a literal matches its two
    ASCII cases, and the classes of whitespace and of word characters are
    the ASCII ones. On a [str] Python's [re] also lets characters outside
    ASCII match (four of them match an ASCII letter under IGNORECASE). *)
Definition cset_mem (fl : flags) (cs : cset) (b : ascii) : bool :=
  match cs with
  | Lit a =>
      if IGNORECASE fl then Ascii.eqb (to_lower a) (to_lower b)
      else Ascii.eqb a b
  | Dot => DOTALL fl || negb (Ascii.eqb b newline)
  | Space => is_space b
  | Word => is_word b
  | NotChr a => negb (Ascii.eqb a b)
  end.

(** Patterns. Repetition is only ever applied to a character set in the
    scripts; [Star true] is the greedy [*], [Star false] the lazy [*?].
    [Eos] is [$] and [Look] is the lookahead [(?=...)]. *)
Inductive regex :=
| Eps
| One (cs : cset)
| Star (greedy : bool) (cs : cset)
| Seq (r1 r2 : regex)
| Alt (r1 r2 : regex)
| Group (n : nat) (r : regex)
| Eos
| Look (r : regex).

(** The text of the capturing groups that took part in a match. *)
Definition caps := list (nat * string).

(** A match: the text matched, the text after it, and the groups. *)
Definition mres : Type := string * string * caps.

Definition cont := string → string → caps → option mres.

Fixpoint star_greedy (p : ascii → bool) (s : string)
    (k : string → string → option mres) : option mres :=
  match s with
  | String b s' =>
      if p b then
        match star_greedy p s' (λ t r, k (String b t) r) with
        | Some x => Some x
        | None => k "" s
        end
      else k "" s
  | "" => k "" s
  end.

Fixpoint star_lazy (p : ascii → bool) (s : string)
    (k : string → string → option mres) : option mres :=
  match k "" s with
  | Some x => Some x
  | None =>
      match s with
      | String b s' =>
          if p b then star_lazy p s' (λ t r, k (String b t) r) else None
      | "" => None
      end
  end.

(** [$] without MULTILINE: at the end, or before a final newline. *)
Definition at_end (s : string) : bool :=
  match s with
  | "" => true
  | String c "" => Ascii.eqb c newline
  | _ => false
  end.

Definition accept : cont := λ t r c, Some (t, r, c).

(** [rmatch fl r s c k]: match [r] at the start of [s]; the continuation
    receives the text [r] consumed, the rest of [s] and the groups, and a
    [None] from it makes the matcher try its next alternative, in the order
    Python's backtracking does. *)
Fixpoint rmatch (fl : flags) (r : regex) (s : string) (c : caps) (k : cont)
    : option mres :=
  match r with
  | Eps => k "" s c
  | One cs =>
      match s with
      | String b s' => if cset_mem fl cs b then k (String b "") s' c else None
      | "" => None
      end
  | Star true cs => star_greedy (cset_mem fl cs) s (λ t s', k t s' c)
  | Star false cs => star_lazy (cset_mem fl cs) s (λ t s', k t s' c)
  | Seq r1 r2 =>
      rmatch fl r1 s c (λ t1 s1 c1,
        rmatch fl r2 s1 c1 (λ t2 s2 c2, k (t1 +:+ t2) s2 c2))
  | Alt r1 r2 =>
      match rmatch fl r1 s c k with
      | Some x => Some x
      | None => rmatch fl r2 s c k
      end
  | Group n r' => rmatch fl r' s c (λ t s' c', k t s' ((n, t) :: c'))
  | Eos => if at_end s then k "" s c else None
  | Look r' =>
      match rmatch fl r' s c accept with
      | Some (_, _, c') => k "" s c'
      | None => None
      end
  end.

(** [match.group(n)]: [None] when the group took no part in the match. *)
Fixpoint group (n : nat) (c : caps) : option string :=
  match c with
  | [] => None
  | (m, t) :: c' => if Nat.eqb n m then Some t else group n c'
  end.

(** [re.search]: the leftmost position at which the pattern matches; the
    result also carries the text skipped before the match. *)
Fixpoint search (fl : flags) (r : regex) (s : string)
    : option (string * mres) :=
  match rmatch fl r s [] accept with
  | Some m => Some ("", m)
  | None =>
      match s with
      | "" => None
      | String b s' =>
          match search fl r s' with
          | Some (pre, m) => Some (String b pre, m)
          | None => None
          end
      end
  end.

(** [re.search(...).group(1)] when there is a match. *)
Definition search_group1 (fl : flags) (r : regex) (s : string) : option string :=
  match search fl r s with
  | Some (_, (_, _, c)) => Some (default "" (group 1 c))
  | None => None
  end.

(** [re.finditer]: the successive non-overlapping matches, each searched
    for in what the previous one left. A match of the empty text moves on by
    one character; no pattern of the scripts that is used this way matches
    the empty text. Every round shortens the text, so [length s + 1] rounds
    are enough (lemma [finditer_fuel_enough]). *)
Fixpoint finditer_fuel (fuel : nat) (fl : flags) (r : regex) (s : string)
    : list mres :=
  match fuel with
  | 0 => []
  | S fuel' =>
      match search fl r s with
      | None => []
      | Some (_, (t, rest, c)) =>
          (t, rest, c) ::
          (if is_empty t then
             match rest with
             | "" => []
             | String _ rest' => finditer_fuel fuel' fl r rest'
             end
           else finditer_fuel fuel' fl r rest)
      end
  end.

Definition finditer (fl : flags) (r : regex) (s : string) : list mres :=
  finditer_fuel (S (String.length s)) fl r s.

(** [re.findall] for a pattern without groups: the texts matched. *)
Definition findall (fl : flags) (r : regex) (s : string) : list string :=
  (λ m : mres, m.1.1) <$> finditer fl r s.

(** [re.sub(r, '\1', s)]: every match is replaced by its group 1, the
    text between the matches being kept (lemma [sub_group1_fuel_enough] for
    the number of rounds). *)
Fixpoint sub_group1_fuel (fuel : nat) (fl : flags) (r : regex) (s : string)
    : string :=
  match fuel with
  | 0 => s
  | S fuel' =>
      match search fl r s with
      | None => s
      | Some (pre, (t, rest, c)) =>
          pre +:+ default "" (group 1 c) +:+
          (if is_empty t then
             match rest with
             | "" => ""
             | String b rest' => String b (sub_group1_fuel fuel' fl r rest')
             end
           else sub_group1_fuel fuel' fl r rest)
      end
  end.

Definition sub_group1 (fl : flags) (r : regex) (s : string) : string :=
  sub_group1_fuel (S (String.length s)) fl r s.

(** Notation for writing the patterns of the source. *)
Fixpoint lit (s : string) : regex :=
  match s with
  | "" => Eps
  | String c "" => One (Lit c)
  | String c s' => Seq (One (Lit c)) (lit s')
  end.

Definition plus (cs : cset) : regex := Seq (One cs) (Star true cs).
Definition opt (r : regex) : regex := Alt r Eps.

Declare Scope regex_scope.
Delimit Scope regex_scope with re.
Bind Scope regex_scope with regex.
Infix "⋅" := Seq (at level 41, right associativity) : regex_scope.
Infix "∣" := Alt (at level 42, right associativity) : regex_scope.
Notation "'\s+'" := (plus Space) : regex_scope.
Notation "'\w+'" := (plus Word) : regex_scope.

(** ** [sql_parser.py]: the object model *)

Inductive SQLObjectType :=
| VIEW | MATERIALIZED_VIEW | FUNCTION | TABLE | INDEX | TRIGGER | GRANT
| COMMENT | CTE.

Global Instance SQLObjectType_eq_dec : EqDecision SQLObjectType.
Proof. solve_decision. Defined.

(** [SQLObjectType.value] *)
Definition type_value (t : SQLObjectType) : string :=
  match t with
  | VIEW => "VIEW"
  | MATERIALIZED_VIEW => "MATERIALIZED_VIEW"
  | FUNCTION => "FUNCTION"
  | TABLE => "TABLE"
  | INDEX => "INDEX"
  | TRIGGER => "TRIGGER"
  | GRANT => "GRANT"
  | COMMENT => "COMMENT"
  | CTE => "CTE"
  end.

(** An entry of [SQLObject.ctes]: the dict with keys ['name'] and
    ['definition']. *)
Record cte_entry := { cte_name : string; cte_definition : string }.

(** An entry of [SQLObject.joins]: the dict with keys ['type'], ['table']
    and ['condition']. *)
Record join_entry := {
  join_type : string;
  join_table : string;
  join_condition : option string
}.

(** The dataclass [SQLObject]. The three fields that default to [None] are
    options; the others are set by every constructor call of the parser. *)
Record SQLObject := {
  name : string;
  type : SQLObjectType;
  definition : string;
  start_line : nat;
  end_line : nat;
  comments : list string;
  columns : list string;
  joins : list join_entry;
  where_clause : option string;
  group_by : option string;
  order_by : option string;
  ctes : list cte_entry;
  parameters : option (list string);
  return_type : option string;
  grants : option (list string)
}.

(** The state of a [SQLParser]: [self.objects] and [self.current_line]. *)
Record SQLParser := { objects : list SQLObject; current_line : nat }.

(** ** [sql_parser.py]: the patterns *)

(** The flag combinations in use: [re.IGNORECASE], [re.DOTALL], both, none. *)
Definition re_I : flags := {| IGNORECASE := true; DOTALL := false |}.
Definition re_S : flags := {| IGNORECASE := false; DOTALL := true |}.
Definition re_SI : flags := {| IGNORECASE := true; DOTALL := true |}.
Definition re_0 : flags := {| IGNORECASE := false; DOTALL := false |}.

Local Open Scope regex_scope.

(** "(\w+(?:\.\w+)?)" as group [n] *)
Definition qualified (n : nat) : regex :=
  Group n (\w+ ⋅ opt (One (Lit ".") ⋅ \w+)).

(** The table [patterns] of [_extract_object_name]. *)
Definition name_pattern (obj_type : SQLObjectType) : option regex :=
  match obj_type with
  | VIEW =>
      Some (lit "CREATE" ⋅ \s+ ⋅ opt (lit "OR" ⋅ \s+ ⋅ lit "REPLACE" ⋅ \s+) ⋅
            lit "VIEW" ⋅ \s+ ⋅ qualified 1)
  | MATERIALIZED_VIEW =>
      Some (lit "CREATE" ⋅ \s+ ⋅ lit "MATERIALIZED" ⋅ \s+ ⋅ lit "VIEW" ⋅ \s+ ⋅
            qualified 1)
  | FUNCTION =>
      Some (lit "CREATE" ⋅ \s+ ⋅ opt (lit "OR" ⋅ \s+ ⋅ lit "REPLACE" ⋅ \s+) ⋅
            lit "FUNCTION" ⋅ \s+ ⋅ qualified 1)
  | TABLE => Some (lit "CREATE" ⋅ \s+ ⋅ lit "TABLE" ⋅ \s+ ⋅ qualified 1)
  | INDEX =>
      Some (lit "CREATE" ⋅ \s+ ⋅ opt (lit "UNIQUE" ⋅ \s+) ⋅ lit "INDEX" ⋅ \s+ ⋅
            qualified 1)
  | TRIGGER => Some (lit "CREATE" ⋅ \s+ ⋅ lit "TRIGGER" ⋅ \s+ ⋅ qualified 1)
  | GRANT =>
      Some (lit "GRANT" ⋅ \s+ ⋅ Star false Dot ⋅ \s+ ⋅ lit "ON" ⋅ \s+ ⋅
            qualified 1)
  | COMMENT => Some (lit "COMMENT" ⋅ \s+ ⋅ lit "ON" ⋅ \s+ ⋅ qualified 1)
  | CTE => None
  end.

(** "/\*.*?\*/" *)
Definition multi_line_pattern : regex :=
  lit "/*" ⋅ Star false Dot ⋅ lit "*/".

(** "AS\s+(G)" where the group G is ".*" *)
Definition as_pattern : regex := lit "AS" ⋅ \s+ ⋅ Group 1 (Star true Dot).

(** "SELECT\s+(.*?)\s+FROM" *)
Definition select_pattern : regex :=
  lit "SELECT" ⋅ \s+ ⋅ Group 1 (Star false Dot) ⋅ \s+ ⋅ lit "FROM".

(** "[^(]*\((G)\).*" where the group G is "[^)]*" *)
Definition call_pattern : regex :=
  Star true (NotChr "(") ⋅ One (Lit "(") ⋅ Group 1 (Star true (NotChr ")")) ⋅
  One (Lit ")") ⋅ Star true Dot.

(** "WITH\s+(.*?)\s+SELECT" *)
Definition with_pattern : regex :=
  lit "WITH" ⋅ \s+ ⋅ Group 1 (Star false Dot) ⋅ \s+ ⋅ lit "SELECT".

(** "LEFT\s+JOIN|RIGHT\s+JOIN|INNER\s+JOIN|JOIN|FULL\s+OUTER\s+JOIN" *)
Definition join_keyword : regex :=
  (lit "LEFT" ⋅ \s+ ⋅ lit "JOIN") ∣ (lit "RIGHT" ⋅ \s+ ⋅ lit "JOIN") ∣
  (lit "INNER" ⋅ \s+ ⋅ lit "JOIN") ∣ lit "JOIN" ∣
  (lit "FULL" ⋅ \s+ ⋅ lit "OUTER" ⋅ \s+ ⋅ lit "JOIN").

(** [join_pattern] of [_extract_joins] *)
Definition join_pattern : regex :=
  Group 1 join_keyword ⋅ \s+ ⋅ qualified 2 ⋅ \s+ ⋅
  opt (lit "ON" ⋅ \s+ ⋅ Group 3 (Star false Dot)) ⋅
  Look (\s+ ⋅ (join_keyword ∣ lit "WHERE" ∣ (lit "GROUP" ⋅ \s+ ⋅ lit "BY") ∣
               (lit "ORDER" ⋅ \s+ ⋅ lit "BY") ∣ Eos)).

(** "WHERE\s+(.*?)(?:\s+GROUP\s+BY|\s+ORDER\s+BY|$)" *)
Definition where_pattern : regex :=
  lit "WHERE" ⋅ \s+ ⋅ Group 1 (Star false Dot) ⋅
  ((\s+ ⋅ lit "GROUP" ⋅ \s+ ⋅ lit "BY") ∣ (\s+ ⋅ lit "ORDER" ⋅ \s+ ⋅ lit "BY") ∣
   Eos).

(** "GROUP\s+BY\s+(.*?)(?:\s+ORDER\s+BY|$)" *)
Definition group_by_pattern : regex :=
  lit "GROUP" ⋅ \s+ ⋅ lit "BY" ⋅ \s+ ⋅ Group 1 (Star false Dot) ⋅
  ((\s+ ⋅ lit "ORDER" ⋅ \s+ ⋅ lit "BY") ∣ Eos).

(** "ORDER\s+BY\s+(.*?)$" *)
Definition order_by_pattern : regex :=
  lit "ORDER" ⋅ \s+ ⋅ lit "BY" ⋅ \s+ ⋅ Group 1 (Star false Dot) ⋅ Eos.

(** "\(\s*(.*?)\s*\)" *)
Definition table_columns_pattern : regex :=
  One (Lit "(") ⋅ Star true Space ⋅ Group 1 (Star false Dot) ⋅
  Star true Space ⋅ One (Lit ")").

(** "FUNCTION\s+\w+(?:\.\w+)?\s*\((.*?)\)" *)
Definition params_pattern : regex :=
  lit "FUNCTION" ⋅ \s+ ⋅ \w+ ⋅ opt (One (Lit ".") ⋅ \w+) ⋅ Star true Space ⋅
  One (Lit "(") ⋅ Group 1 (Star false Dot) ⋅ One (Lit ")").

(** "RETURNS\s+(\w+(?:\([^)]*\))?)" *)
Definition return_type_pattern : regex :=
  lit "RETURNS" ⋅ \s+ ⋅
  Group 1 (\w+ ⋅ opt (One (Lit "(") ⋅ Star true (NotChr ")") ⋅ One (Lit ")"))).

Local Close Scope regex_scope.

(** ** [sql_parser.py]: the extractor *)

Definition nl : string := String newline "".

(** [_get_object_type] *)
Definition _get_object_type (statement : string) : option SQLObjectType :=
  let statement_upper := upper statement in
  if startswith statement_upper "CREATE OR REPLACE VIEW" then Some VIEW
  else if startswith statement_upper "CREATE MATERIALIZED VIEW" then
    Some MATERIALIZED_VIEW
  else if startswith statement_upper "CREATE OR REPLACE FUNCTION" then
    Some FUNCTION
  else if startswith statement_upper "CREATE TABLE" then Some TABLE
  else if startswith statement_upper "CREATE INDEX" then Some INDEX
  else if startswith statement_upper "CREATE TRIGGER" then Some TRIGGER
  else if startswith statement_upper "GRANT" then Some GRANT
  else if startswith statement_upper "COMMENT ON" then Some COMMENT
  else None.

(** [_extract_object_name] *)
Definition _extract_object_name (statement : string) (obj_type : SQLObjectType)
    : option string :=
  match name_pattern obj_type with
  | Some pattern => search_group1 re_I pattern statement
  | None => None
  end.

(** The first loop of [_extract_comments]: the stripped lines that start
    with two dashes. *)
Fixpoint dash_comments (lines : list string) : list string :=
  match lines with
  | [] => []
  | line :: lines' =>
      let line := strip line in
      if startswith line "--" then line :: dash_comments lines'
      else dash_comments lines'
  end.

(** [_extract_comments] *)
Definition _extract_comments (statement : string) : list string :=
  dash_comments (split nl statement) ++
  findall re_S multi_line_pattern statement.

(** One round of the loop of [_extract_columns]: the name appended for the
    item [col] of the SELECT list, if one is. *)
Definition column_of_item (col : string) : option string :=
  let col := strip col in
  let col_name :=
    if contains (upper col) " AS " then strip (default "" (head (split " AS " col)))
    else strip col in
  let col_name := sub_group1 re_0 call_pattern col_name in
  let col_name := default "" (last (split "." col_name)) in
  if negb (is_empty col_name) &&
     negb (bool_decide (upper col_name ∈ ["*"; "DISTINCT"]))
  then Some col_name else None.

(** [_extract_columns] *)
Definition _extract_columns (select_statement : string) : list string :=
  match search_group1 re_SI select_pattern select_statement with
  | None => []
  | Some select_clause => omap column_of_item (split "," select_clause)
  end.

(** The loop of [_extract_ctes]. The unpacking
    [name, definition = cte_part.split(' AS ', 1)] raises ValueError when
    the part has [' AS '] in its upper-cased text only. *)
Fixpoint ctes_of_parts (cte_parts : list string) : option (list cte_entry) :=
  match cte_parts with
  | [] => Some []
  | cte_part :: rest =>
      let cte_part := strip cte_part in
      if contains (upper cte_part) " AS " then
        match partition " AS " cte_part with
        | Some (n, d) =>
            match ctes_of_parts rest with
            | Some l =>
                Some ({| cte_name := strip n; cte_definition := strip d |} :: l)
            | None => None
            end
        | None => None
        end
      else ctes_of_parts rest
  end.

(** [_extract_ctes] *)
Definition _extract_ctes (select_statement : string) : option (list cte_entry) :=
  match search_group1 re_SI with_pattern select_statement with
  | Some with_clause => ctes_of_parts (split "," with_clause)
  | None => Some []
  end.

(** The dict built from one match of [join_pattern]. *)
Definition join_of_match (m : mres) : join_entry :=
  let c := m.2 in
  {| join_type := upper (default "" (group 1 c));
     join_table := default "" (group 2 c);
     join_condition :=
       match group 3 c with
       | Some t => if is_empty t then None else Some t
       | None => None
       end |}.

(** [_extract_joins] *)
Definition _extract_joins (select_statement : string) : list join_entry :=
  join_of_match <$> finditer re_I join_pattern select_statement.

(** [_extract_where_clause] *)
Definition _extract_where_clause (select_statement : string) : option string :=
  strip <$> search_group1 re_SI where_pattern select_statement.

(** [_extract_group_by] *)
Definition _extract_group_by (select_statement : string) : option string :=
  strip <$> search_group1 re_SI group_by_pattern select_statement.

(** [_extract_order_by] *)
Definition _extract_order_by (select_statement : string) : option string :=
  strip <$> search_group1 re_SI order_by_pattern select_statement.

Definition constraint_keywords : list string :=
  ["PRIMARY KEY"; "FOREIGN KEY"; "UNIQUE"; "CHECK"].

(** One round of the loop of [_extract_table_columns]: the column appended
    for the entry [col_def], if one is. [col_def.split()[0]] exists there,
    the entry being stripped and not empty (lemma [split_ws_head]). *)
Definition column_of_def (col_def : string) : option string :=
  let col_def := strip col_def in
  if negb (is_empty col_def) &&
     negb (existsb (startswith (upper col_def)) constraint_keywords)
  then Some (default "" (head (split_ws col_def))) else None.

(** [_extract_table_columns] *)
Definition _extract_table_columns (table_statement : string) : list string :=
  match search_group1 re_S table_columns_pattern table_statement with
  | Some columns_str => omap column_of_def (split "," columns_str)
  | None => []
  end.

(** [_create_basic_object] *)
Definition _create_basic_object (self : SQLParser) (name : string)
    (obj_type : SQLObjectType) (statement : string) (comments : list string)
    : SQLObject :=
  {| name := name; type := obj_type; definition := statement;
     start_line := current_line self;
     end_line := current_line self + count_char newline statement;
     comments := comments; columns := []; joins := []; where_clause := None;
     group_by := None; order_by := None; ctes := [];
     parameters := None; return_type := None; grants := None |}.

(** [_parse_view_or_mv]; [None] when [_extract_ctes] raises. *)
Definition _parse_view_or_mv (self : SQLParser) (statement name : string)
    (obj_type : SQLObjectType) (comments : list string) : option SQLObject :=
  match search_group1 re_SI as_pattern statement with
  | None => Some (_create_basic_object self name obj_type statement comments)
  | Some body =>
      let select_statement := strip body in
      let columns := _extract_columns select_statement in
      match _extract_ctes select_statement with
      | None => None
      | Some ctes =>
          let joins := _extract_joins select_statement in
          let where_clause := _extract_where_clause select_statement in
          let group_by := _extract_group_by select_statement in
          let order_by := _extract_order_by select_statement in
          Some {| name := name; type := obj_type; definition := statement;
                  start_line := current_line self;
                  end_line := current_line self + count_char newline statement;
                  comments := comments; columns := columns; joins := joins;
                  where_clause := where_clause; group_by := group_by;
                  order_by := order_by; ctes := ctes;
                  parameters := None; return_type := None; grants := None |}
      end
  end.

(** The list comprehension of [_parse_function]: the stripped, non-empty
    pieces. *)
Fixpoint stripped_nonempty (parts : list string) : list string :=
  match parts with
  | [] => []
  | p :: parts' =>
      if is_empty (strip p) then stripped_nonempty parts'
      else strip p :: stripped_nonempty parts'
  end.

(** [_parse_function] *)
Definition _parse_function (self : SQLParser) (statement name : string)
    (comments : list string) : SQLObject :=
  let parameters :=
    match search_group1 re_SI params_pattern statement with
    | Some params_str => stripped_nonempty (split "," params_str)
    | None => []
    end in
  let return_type := search_group1 re_I return_type_pattern statement in
  {| name := name; type := FUNCTION; definition := statement;
     start_line := current_line self;
     end_line := current_line self + count_char newline statement;
     comments := comments; columns := []; joins := []; where_clause := None;
     group_by := None; order_by := None; ctes := [];
     parameters := Some parameters; return_type := return_type;
     grants := None |}.

(** [_parse_table] *)
Definition _parse_table (self : SQLParser) (statement name : string)
    (comments : list string) : SQLObject :=
  {| name := name; type := TABLE; definition := statement;
     start_line := current_line self;
     end_line := current_line self + count_char newline statement;
     comments := comments; columns := _extract_table_columns statement;
     joins := []; where_clause := None; group_by := None; order_by := None;
     ctes := []; parameters := None; return_type := None; grants := None |}.

(** [_parse_index], [_parse_trigger], [_parse_grant] *)
Definition _parse_index (self : SQLParser) (statement name : string)
    (comments : list string) : SQLObject :=
  _create_basic_object self name INDEX statement comments.

Definition _parse_trigger (self : SQLParser) (statement name : string)
    (comments : list string) : SQLObject :=
  _create_basic_object self name TRIGGER statement comments.

Definition _parse_grant (self : SQLParser) (statement name : string)
    (comments : list string) : SQLObject :=
  _create_basic_object self name GRANT statement comments.

(** The dispatch on the object type in [_parse_statement]; the last arm is
    the constructor call of its [else] branch. *)
Definition build_object (self : SQLParser) (statement_str name : string)
    (obj_type : SQLObjectType) (comments : list string) : option SQLObject :=
  match obj_type with
  | VIEW | MATERIALIZED_VIEW =>
      _parse_view_or_mv self statement_str name obj_type comments
  | FUNCTION => Some (_parse_function self statement_str name comments)
  | TABLE => Some (_parse_table self statement_str name comments)
  | INDEX => Some (_parse_index self statement_str name comments)
  | TRIGGER => Some (_parse_trigger self statement_str name comments)
  | GRANT => Some (_parse_grant self statement_str name comments)
  | _ =>
      Some {| name := name; type := obj_type; definition := statement_str;
              start_line := current_line self;
              end_line := current_line self + count_char newline statement_str;
              comments := comments; columns := []; joins := [];
              where_clause := None; group_by := None; order_by := None;
              ctes := []; parameters := None; return_type := None;
              grants := None |}
  end.

(** [_parse_statement], on the text [str(statement)]. The result is the
    parser after the call, [None] if the call raises. *)
Definition _parse_statement (self : SQLParser) (statement : string)
    : option SQLParser :=
  let statement_str := strip statement in
  if is_empty statement_str then Some self
  else
    let self :=
      {| objects := objects self;
         current_line :=
           current_line self + (count_char newline statement_str + 1) |} in
    match _get_object_type statement_str with
    | None => Some self
    | Some obj_type =>
        match _extract_object_name statement_str obj_type with
        | None => Some self
        | Some name =>
            if is_empty name then Some self
            else
              let comments := _extract_comments statement_str in
              match build_object self statement_str name obj_type comments with
              | Some obj =>
                  Some {| objects := objects self ++ [obj];
                          current_line := current_line self |}
              | None => None
              end
        end
    end.

(** The loop of [parse_file] over the statements. *)
Fixpoint parse_statements (self : SQLParser) (parsed : list string)
    : option SQLParser :=
  match parsed with
  | [] => Some self
  | statement :: parsed' =>
      match _parse_statement self statement with
      | Some self' => parse_statements self' parsed'
      | None => None
      end
  end.

(** [parse_file] on the content of the file; [sqlparse_parse] stands for
    [sqlparse.parse] followed by [str] on each statement. *)
Definition parse_file (sqlparse_parse : string → list string) (content : string)
    : option (list SQLObject) :=
  objects <$>
  parse_statements {| objects := []; current_line := 0 |} (sqlparse_parse content).

(** ** [sql_comparator.py] *)

(** The dataclass [ComparisonResult]. *)
Record ComparisonResult := {
  object_name : string;
  object_type : SQLObjectType;
  status : string;
  completeness_percentage : Q;
  accuracy_percentage : Q;
  differences : list string;
  missing_components : list string;
  extra_components : list string;
  line_by_line_diff : list string
}.

(** The dict with keys ['differences'], ['missing'] and ['extra'] that the
    [_compare_*] methods return. *)
Record findings := {
  found_differences : list string;
  found_missing : list string;
  found_extra : list string
}.

(** Truth value of a set: it is not empty. *)
Definition nonempty (X : gset string) : bool := bool_decide (X ≠ ∅).

(** What an f-string prints for an optional text. *)
Definition fmt_opt (o : option string) : string := default "None" o.

(** What an f-string prints for a length. *)
Definition fmt_len (n : nat) : string := pretty n.

(** [_compare_columns] *)
Definition _compare_columns (source_cols docker_cols : list string) : findings :=
  let source_set : gset string := list_to_set source_cols in
  let docker_set : gset string := list_to_set docker_cols in
  let missing_cols := source_set ∖ docker_set in
  let extra_cols := docker_set ∖ source_set in
  {| found_differences :=
       (if nonempty missing_cols
        then ["Missing columns: " +:+ join ", " (elements missing_cols)]
        else []) ++
       (if nonempty extra_cols
        then ["Extra columns: " +:+ join ", " (elements extra_cols)]
        else []) ++
       (if bool_decide (source_cols ≠ docker_cols) &&
           negb (nonempty missing_cols) && negb (nonempty extra_cols)
        then ["Column order differs"] else []);
     found_missing :=
       if nonempty missing_cols
       then (λ col, "Missing column: " +:+ col) <$> elements missing_cols
       else [];
     found_extra :=
       if nonempty extra_cols
       then (λ col, "Extra column: " +:+ col) <$> elements extra_cols
       else [] |}.

(** [{cte['name'] for cte in ctes}] *)
Definition cte_names (l : list cte_entry) : gset string :=
  list_to_set (cte_name <$> l).

(** [next(cte for cte in ctes if cte['name'] == cte_name)] *)
Fixpoint first_cte (cte_name0 : string) (l : list cte_entry) : option cte_entry :=
  match l with
  | [] => None
  | cte :: l' =>
      if bool_decide (cte_name cte = cte_name0) then Some cte
      else first_cte cte_name0 l'
  end.

(** One round of the loop over [common_ctes] in [_compare_ctes]. Both
    searches succeed, the name being taken from both lists. *)
Definition cte_definition_differs (source_ctes docker_ctes : list cte_entry)
    (cte_name0 : string) : list string :=
  match first_cte cte_name0 source_ctes, first_cte cte_name0 docker_ctes with
  | Some source_cte, Some docker_cte =>
      if bool_decide (cte_definition source_cte ≠ cte_definition docker_cte)
      then ["CTE '" +:+ cte_name0 +:+ "' definition differs"] else []
  | _, _ => []
  end.

(** [_compare_ctes] *)
Definition _compare_ctes (source_ctes docker_ctes : list cte_entry) : findings :=
  let source_names := cte_names source_ctes in
  let docker_names := cte_names docker_ctes in
  let missing_ctes := source_names ∖ docker_names in
  let extra_ctes := docker_names ∖ source_names in
  let common_ctes := source_names ∩ docker_names in
  {| found_differences :=
       (if nonempty missing_ctes
        then ["Missing CTEs: " +:+ join ", " (elements missing_ctes)] else []) ++
       (if nonempty extra_ctes
        then ["Extra CTEs: " +:+ join ", " (elements extra_ctes)] else []) ++
       concat (cte_definition_differs source_ctes docker_ctes <$>
               elements common_ctes);
     found_missing :=
       if nonempty missing_ctes
       then (λ cte, "Missing CTE: " +:+ cte) <$> elements missing_ctes else [];
     found_extra :=
       if nonempty extra_ctes
       then (λ cte, "Extra CTE: " +:+ cte) <$> elements extra_ctes else [] |}.

(** The comparable representation of a join in [_compare_joins]: the
    f-string [{type} {table} ON {condition}]. *)
Definition join_str (j : join_entry) : string :=
  join_type j +:+ " " +:+ join_table j +:+ " ON " +:+ fmt_opt (join_condition j).

(** The representation of a join in [_calculate_completeness]: the f-string
    [{type} {table}]. *)
Definition join_key (j : join_entry) : string :=
  join_type j +:+ " " +:+ join_table j.

(** [_compare_joins] *)
Definition _compare_joins (source_joins docker_joins : list join_entry) : findings :=
  let source_join_strs := join_str <$> source_joins in
  let docker_join_strs := join_str <$> docker_joins in
  let source_set : gset string := list_to_set source_join_strs in
  let docker_set : gset string := list_to_set docker_join_strs in
  let missing_joins := source_set ∖ docker_set in
  let extra_joins := docker_set ∖ source_set in
  {| found_differences :=
       (if nonempty missing_joins
        then ["Missing JOINs: " +:+ fmt_len (size missing_joins)] else []) ++
       (if nonempty extra_joins
        then ["Extra JOINs: " +:+ fmt_len (size extra_joins)] else []);
     found_missing :=
       if nonempty missing_joins
       then (λ j, "Missing JOIN: " +:+ j) <$> elements missing_joins else [];
     found_extra :=
       if nonempty extra_joins
       then (λ j, "Extra JOIN: " +:+ j) <$> elements extra_joins else [] |}.

(** [_compare_clauses] *)
Definition _compare_clauses (source_clause docker_clause : option string)
    (clause_type : string) : findings :=
  {| found_differences :=
       if bool_decide (source_clause ≠ docker_clause) then
         match source_clause, docker_clause with
         | None, _ => ["Missing " +:+ clause_type +:+ " clause in Docker"]
         | _, None => ["Missing " +:+ clause_type +:+ " clause in source"]
         | _, _ => [clause_type +:+ " clause differs"]
         end
       else [];
     found_missing := []; found_extra := [] |}.

(** [_compare_comments] *)
Definition _compare_comments (source_comments docker_comments : list string)
    : findings :=
  let source_set : gset string := list_to_set source_comments in
  let docker_set : gset string := list_to_set docker_comments in
  let missing_comments := source_set ∖ docker_set in
  let extra_comments := docker_set ∖ source_set in
  {| found_differences :=
       (if nonempty missing_comments
        then ["Missing comments: " +:+ fmt_len (size missing_comments)] else []) ++
       (if nonempty extra_comments
        then ["Extra comments: " +:+ fmt_len (size extra_comments)] else []);
     found_missing := []; found_extra := [] |}.

(** [_compare_functions] *)
Definition _compare_functions (source_func docker_func : SQLObject) : findings :=
  {| found_differences :=
       (if bool_decide (parameters source_func ≠ parameters docker_func)
        then ["Function parameters differ"] else []) ++
       (if bool_decide (return_type source_func ≠ return_type docker_func)
        then ["Return type differs: source=" +:+ fmt_opt (return_type source_func)
              +:+ ", docker=" +:+ fmt_opt (return_type docker_func)]
        else []);
     found_missing := []; found_extra := [] |}.

(** Truth value of an optional text: present and not empty. *)
Definition truthy (o : option string) : bool :=
  match o with
  | Some s => negb (is_empty s)
  | None => false
  end.

(** The two counters of [_calculate_completeness] after its loops. *)
Definition total_components (source_obj : SQLObject) : nat :=
  length (columns source_obj) + length (ctes source_obj) +
  length (joins source_obj) +
  length (filter (λ o, truthy o = true)
            [where_clause source_obj; group_by source_obj; order_by source_obj]).

Definition clause_matches (source_clause docker_clause : option string) : nat :=
  if truthy source_clause && bool_decide (source_clause = docker_clause)
  then 1 else 0.

Definition matching_components (source_obj docker_obj : SQLObject) : nat :=
  size ((list_to_set (columns source_obj) : gset string) ∩
        list_to_set (columns docker_obj)) +
  size (cte_names (ctes source_obj) ∩ cte_names (ctes docker_obj)) +
  size ((list_to_set (join_key <$> joins source_obj) : gset string) ∩
        list_to_set (join_key <$> joins docker_obj)) +
  (clause_matches (where_clause source_obj) (where_clause docker_obj) +
   clause_matches (group_by source_obj) (group_by docker_obj) +
   clause_matches (order_by source_obj) (order_by docker_obj)).

Definition Qnat (n : nat) : Q := inject_Z (Z.of_nat n).

(** [_calculate_completeness] *)
Definition _calculate_completeness (source_obj docker_obj : SQLObject) : Q :=
  if Nat.eqb (total_components source_obj) 0 then 100%Q
  else (Qnat (matching_components source_obj docker_obj) /
        Qnat (total_components source_obj) * 100)%Q.

(** [s.splitlines()]: the lines of [s], cut at line boundaries; a carriage
    return followed by a line feed is one boundary. [after_cr] tells that
    the last character read was a carriage return, [cur] is the line being
    read. *)
Definition is_linebreak (c : ascii) : bool :=
  in_range 10 13 c || in_range 28 30 c.

Fixpoint splitlines_go (after_cr : bool) (cur : option string) (s : string)
    : list string :=
  match s with
  | "" => option_list cur
  | String c s' =>
      if after_cr && Ascii.eqb c newline then splitlines_go false cur s'
      else if is_linebreak c then
        default "" cur :: splitlines_go (Ascii.eqb c "013") None s'
      else
        splitlines_go false (Some (default "" cur +:+ String c "")) s'
  end.

Definition splitlines (s : string) : list string := splitlines_go false None s.

Section Comparator.

(** [difflib.SequenceMatcher(None, a, b).ratio()] *)
Variable ratio : string → string → Q.

(** [list(difflib.unified_diff(a, b, fromfile='source', tofile='docker',
    lineterm=''))] *)
Variable unified_diff : list string → list string → list string.

(** [_generate_line_diff] *)
Definition _generate_line_diff (source_def docker_def : string) : list string :=
  unified_diff (splitlines source_def) (splitlines docker_def).

(** [_calculate_accuracy] *)
Definition _calculate_accuracy (source_obj docker_obj : SQLObject) : Q :=
  let source_normalized := join " " (split_ws (definition source_obj)) in
  let docker_normalized := join " " (split_ws (definition docker_obj)) in
  (ratio source_normalized docker_normalized * 100)%Q.

(** The list [differences] of [_compare_objects] after all its passes. *)
Definition object_differences (source_obj docker_obj : SQLObject) : list string :=
  (if bool_decide (type source_obj ≠ type docker_obj)
   then ["Type mismatch: source=" +:+ type_value (type source_obj) +:+
         ", docker=" +:+ type_value (type docker_obj)]
   else []) ++
  found_differences (_compare_columns (columns source_obj) (columns docker_obj)) ++
  found_differences (_compare_ctes (ctes source_obj) (ctes docker_obj)) ++
  found_differences (_compare_joins (joins source_obj) (joins docker_obj)) ++
  found_differences
    (_compare_clauses (where_clause source_obj) (where_clause docker_obj) "WHERE") ++
  found_differences
    (_compare_clauses (group_by source_obj) (group_by docker_obj) "GROUP BY") ++
  found_differences
    (_compare_clauses (order_by source_obj) (order_by docker_obj) "ORDER BY") ++
  found_differences (_compare_comments (comments source_obj) (comments docker_obj)) ++
  (if bool_decide (type source_obj = FUNCTION)
   then found_differences (_compare_functions source_obj docker_obj) else []).

(** The list [missing_components] of [_compare_objects]. *)
Definition object_missing (source_obj docker_obj : SQLObject) : list string :=
  found_missing (_compare_columns (columns source_obj) (columns docker_obj)) ++
  found_missing (_compare_ctes (ctes source_obj) (ctes docker_obj)) ++
  found_missing (_compare_joins (joins source_obj) (joins docker_obj)) ++
  (if bool_decide (type source_obj = FUNCTION)
   then found_missing (_compare_functions source_obj docker_obj) else []).

(** The list [extra_components] of [_compare_objects]. *)
Definition object_extra (source_obj docker_obj : SQLObject) : list string :=
  found_extra (_compare_columns (columns source_obj) (columns docker_obj)) ++
  found_extra (_compare_ctes (ctes source_obj) (ctes docker_obj)) ++
  found_extra (_compare_joins (joins source_obj) (joins docker_obj)) ++
  (if bool_decide (type source_obj = FUNCTION)
   then found_extra (_compare_functions source_obj docker_obj) else []).

(** [_compare_objects] *)
Definition _compare_objects (source_obj docker_obj : SQLObject)
    : ComparisonResult :=
  let differences := object_differences source_obj docker_obj in
  {| object_name := name source_obj;
     object_type := type source_obj;
     status := if bool_decide (differences = []) then "MATCH" else "DIFFERENT";
     completeness_percentage := _calculate_completeness source_obj docker_obj;
     accuracy_percentage := _calculate_accuracy source_obj docker_obj;
     differences := differences;
     missing_components := object_missing source_obj docker_obj;
     extra_components := object_extra source_obj docker_obj;
     line_by_line_diff :=
       _generate_line_diff (definition source_obj) (definition docker_obj) |}.

(** [{obj.name: obj for obj in objects}]: a later object replaces an
    earlier one of the same name. *)
Definition lookup_of (objs : list SQLObject) : gmap string SQLObject :=
  foldl (λ m obj, <[name obj := obj]> m) ∅ objs.

(** The body of the loop of [compare_files] for one name. With neither
    object the source reads [docker_obj.type] on [None] and raises. *)
Definition compare_name (name : string) (source_obj docker_obj : option SQLObject)
    : option ComparisonResult :=
  match source_obj, docker_obj with
  | Some source_obj, Some docker_obj =>
      Some (_compare_objects source_obj docker_obj)
  | Some source_obj, None =>
      Some {| object_name := name;
              object_type := type source_obj;
              status := "MISSING";
              completeness_percentage := 0;
              accuracy_percentage := 0;
              differences :=
                ["Object '" +:+ name +:+ "' exists in source but missing in Docker"];
              missing_components := [];
              extra_components := [];
              line_by_line_diff := [] |}
  | None, Some docker_obj =>
      Some {| object_name := name;
              object_type := type docker_obj;
              status := "EXTRA";
              completeness_percentage := 0;
              accuracy_percentage := 0;
              differences :=
                ["Object '" +:+ name +:+ "' exists in Docker but not in source"];
              missing_components := [];
              extra_components := [];
              line_by_line_diff := [] |}
  | None, None => None
  end.

(** [compare_files]: one result per name of either side, in the order in
    which the set [all_names] is iterated. *)
Definition compare_files (source_objects docker_objects : list SQLObject)
    : option (list ComparisonResult) :=
  let source_lookup := lookup_of source_objects in
  let docker_lookup := lookup_of docker_objects in
  let all_names : gset string := dom source_lookup ∪ dom docker_lookup in
  mapM (λ name, compare_name name (source_lookup !! name) (docker_lookup !! name))
       (elements all_names).

End Comparator.

(** ** Vocabulary of the properties *)

(** [SQLParser.__init__] *)
Definition SQLParser_init : SQLParser := {| objects := []; current_line := 0 |}.

(** The objects extracted from a list of statements by a fresh parser. *)
Definition extract (parsed : list string) : option (list SQLObject) :=
  objects <$> parse_statements SQLParser_init parsed.

Fixpoint all_chars (p : ascii → bool) (s : string) : bool :=
  match s with
  | "" => true
  | String c s' => p c && all_chars p s'
  end.

(** A plain identifier: one or more word characters. *)
Definition is_ident (w : string) : bool := negb (is_empty w) && all_chars is_word w.

(** One identifier, or two with a dot between them. *)
Definition qualified_name (s : string) : Prop :=
  ∃ w, is_ident w = true ∧
       (s = w ∨ ∃ w2, is_ident w2 = true ∧ s = w +:+ "." +:+ w2).

(** Text of ASCII characters only: the text on which [upper] and the
    matcher are [str.upper] and [re] character by character. *)
Definition is_ascii (c : ascii) : bool := (code c <? 128)%N.

Definition ascii_text (s : string) : bool := all_chars is_ascii s.

(** [s] ends with [p], letter case apart. *)
Fixpoint endswith_ci (s p : string) : bool :=
  bool_decide (upper s = upper p) ||
  match s with
  | "" => false
  | String _ s' => endswith_ci s' p
  end.

(** The object types the classifier can return. *)
Definition classified (t : SQLObjectType) : Prop := t ≠ CTE.

(** The last character of [p], if any, is not whitespace. *)
Fixpoint ends_solid (p : string) : bool :=
  match p with
  | "" => true
  | String c "" => negb (is_space c)
  | String _ p' => ends_solid p'
  end.

(** What the invariants of the object model say of one extracted object:
    it has a name and a type of the classifier, and the collections that its
    type does not fill are empty lists. *)
Definition well_formed (o : SQLObject) : Prop :=
  name o ≠ "" ∧ classified (type o) ∧
  (type o ≠ VIEW → type o ≠ MATERIALIZED_VIEW → ctes o = [] ∧ joins o = []) ∧
  (type o ≠ VIEW → type o ≠ MATERIALIZED_VIEW → type o ≠ TABLE → columns o = []).

(** The stripped statement is classified and its name pattern yields a
    name: the two tests an object passes before [_parse_statement] builds
    it. *)
Definition emits (statement_str : string) : bool :=
  negb (is_empty statement_str) &&
  match _get_object_type statement_str with
  | Some obj_type =>
      match _extract_object_name statement_str obj_type with
      | Some name => negb (is_empty name)
      | None => false
      end
  | None => false
  end.

(** [sqlparse.parse] on a text that holds one statement. *)
Definition one_statement (content : string) : list string := [content].

(** Instances of the two library parameters for the examples: a ratio that
    only tells equal texts from different ones, and a diff that prints
    nothing. *)
Definition ratio_equal (a b : string) : Q := if bool_decide (a = b) then 1%Q else 0%Q.
Definition diff_none (a b : list string) : list string := [].

(** The objects of the examples. *)
Definition objects_of (parsed : list string) : list SQLObject :=
  default [] (extract parsed).

Definition example_tu : list SQLObject :=
  objects_of ["CREATE TABLE t (id INT)"; "CREATE TABLE u (id INT)"].
Definition example_t : list SQLObject := objects_of ["CREATE TABLE t (id INT)"].
Definition example_t1 : SQLObject :=
  _parse_table SQLParser_init "CREATE TABLE t (id INT)" "t" [].
Definition example_t2 : SQLObject :=
  _parse_table SQLParser_init "CREATE TABLE t (id INT, name TEXT)" "t" [].

(** Two joins of the same type and table whose conditions differ by
    spacing only. *)
Definition join_spaced : join_entry :=
  {| join_type := "LEFT JOIN"; join_table := "b";
     join_condition := Some "a.id = b.id" |}.
Definition join_tight : join_entry :=
  {| join_type := "LEFT JOIN"; join_table := "b";
     join_condition := Some "a.id=b.id" |}.

(** An object the extractor emits: some call of [_parse_statement] appends
    it. *)
Definition emitted (o : SQLObject) : Prop :=
  ∃ self statement self',
    _parse_statement self statement = Some self' ∧
    objects self' = objects self ++ [o].

(** Two objects agree on every field that the comparison reads. *)
Definition same_features (o1 o2 : SQLObject) : Prop :=
  name o1 = name o2 ∧ type o1 = type o2 ∧ definition o1 = definition o2 ∧
  comments o1 = comments o2 ∧ columns o1 = columns o2 ∧ joins o1 = joins o2 ∧
  where_clause o1 = where_clause o2 ∧ group_by o1 = group_by o2 ∧
  order_by o1 = order_by o2 ∧ ctes o1 = ctes o2 ∧
  parameters o1 = parameters o2 ∧ return_type o1 = return_type o2.

(** A view whose two output columns have the same name. *)
Definition example_dup_columns : list SQLObject :=
  objects_of ["CREATE OR REPLACE VIEW v AS SELECT a.id, b.id FROM a, b"].

(** ** Vocabulary of the matcher lemmas *)

(** The text that the literal [p] matches at the start of [s], and the rest
    of [s]. *)
Fixpoint lit_prefix (fl : flags) (p s : string) : option (string * string) :=
  match p with
  | "" => Some ("", s)
  | String a p' =>
      match s with
      | String b s' =>
          if cset_mem fl (Lit a) b then
            match lit_prefix fl p' s' with
            | Some (t, r) => Some (String b t, r)
            | None => None
            end
          else None
      | "" => None
      end
  end.

(** [s] is empty or starts with a character outside [p]. *)
Definition boundary (p : ascii → bool) (s : string) : bool :=
  match s with
  | "" => true
  | String c _ => negb (p c)
  end.

(** [s] cannot continue a qualified identifier: it is empty or starts with
    a character that is neither a word character nor a dot. *)
Definition name_end (s : string) : bool :=
  boundary (λ c, is_word c || Ascii.eqb c ".") s.

(** [rest] does not continue an identifier into a longer qualified name: it
    starts neither with a word character nor with a dot that a word
    character follows. *)
Definition name_stop (rest : string) : bool :=
  match rest with
  | "" => true
  | String c rest' =>
      negb (is_word c) && negb (Ascii.eqb c "." && negb (boundary is_word rest'))
  end.

(** [q] is the qualified name that the text [q +:+ rest] starts with: one
    identifier, or two with a dot between them, as long as possible. *)
Definition name_before (q rest : string) : Prop :=
  (is_ident q = true ∧ name_stop rest = true) ∨
  (∃ w1 w2, is_ident w1 = true ∧ is_ident w2 = true ∧
            q = w1 +:+ "." +:+ w2 ∧ boundary is_word rest = true).

(** The longest run of word characters that [s] starts with, and what is
    left of [s]. *)
Fixpoint span_word (s : string) : string * string :=
  match s with
  | "" => ("", "")
  | String c s' =>
      if is_word c then let '(w, r) := span_word s' in (String c w, r)
      else ("", s)
  end.

(** The suffix of the word [w] that equals [p], letter case apart, if there
    is one. *)
Fixpoint word_tail (p w : string) : option string :=
  if bool_decide (upper w = upper p) then Some w
  else
    match w with
    | "" => None
    | String _ w' => word_tail p w'
    end.

(** The statements of the first testable property: a view [n] over the
    columns [a] and [b] of the table [t], and the query that defines it. *)
Definition select_text (a b t : string) : string :=
  "SELECT " +:+ a +:+ ", " +:+ b +:+ " FROM " +:+ t +:+ " WHERE x=1".

Definition view_statement (n a b t : string) : string :=
  "CREATE OR REPLACE VIEW " +:+ n +:+ " AS " +:+ select_text a b t.

(** [s] has no trailing whitespace and is not empty. *)
Definition solid (s : string) : Prop := rstrip s = s ∧ s ≠ "".

(** ** [generate_verification_report.py]: the statistics *)

(** [sum] over the percentages, from 0 and from the left. *)
Definition Qsum (l : list Q) : Q := foldl Qplus 0%Q l.

(** The dict returned by [_calculate_summary_stats]. *)
Record summary_stats := {
  total_expected : nat;
  total_found : nat;
  completeness : Q;
  accuracy : Q
}.

(** [_calculate_summary_stats] *)
Definition _calculate_summary_stats (results : list ComparisonResult)
    : summary_stats :=
  let total_expected := length results in
  let total_found := length (filter (λ r, status r ≠ "MISSING") results) in
  {| total_expected := total_expected;
     total_found := total_found;
     completeness :=
       if 0 <? total_expected
       then (Qsum (completeness_percentage <$> results) / Qnat total_expected)%Q
       else 0%Q;
     accuracy :=
       if 0 <? total_expected
       then (Qsum (accuracy_percentage <$> results) / Qnat total_expected)%Q
       else 0%Q |}.

(** [_get_result_notes] *)
Definition _get_result_notes (result : ComparisonResult) : string :=
  if bool_decide (status result = "MATCH") then "Perfect match"
  else if bool_decide (status result = "MISSING") then "Missing from Docker"
  else if bool_decide (status result = "EXTRA") then "Extra in Docker"
  else fmt_len (length (differences result)) +:+ " differences".

(** The lists that [_generate_individual_report] writes as its sections
    Missing Objects, Extra Objects, Issues Found and Detailed Comparisons. *)
Definition missing_objects (results : list ComparisonResult)
    : list ComparisonResult :=
  filter (λ r, status r = "MISSING") results.

Definition extra_objects (results : list ComparisonResult)
    : list ComparisonResult :=
  filter (λ r, status r = "EXTRA") results.

Definition issues (results : list ComparisonResult) : list ComparisonResult :=
  filter (λ r, differences r ≠ []) results.

Definition detailed (results : list ComparisonResult) : list ComparisonResult :=
  filter (λ r, status r ∈ ["DIFFERENT"; "MISSING"; "EXTRA"]) results.

(** The overall statistics of [_generate_master_summary]. Its counts
    [missing_objects] and [extra_objects] are [missing_count] and
    [extra_count] here, the two names being those of the lists above. *)
Record overall_statistics := {
  total_objects : nat;
  matching_objects : nat;
  different_objects : nat;
  missing_count : nat;
  extra_count : nat;
  avg_completeness : Q;
  avg_accuracy : Q
}.

Definition overall (all_results : list ComparisonResult) : overall_statistics :=
  let total_objects := length all_results in
  {| total_objects := total_objects;
     matching_objects := length (filter (λ r, status r = "MATCH") all_results);
     different_objects :=
       length (filter (λ r, status r = "DIFFERENT") all_results);
     missing_count := length (filter (λ r, status r = "MISSING") all_results);
     extra_count := length (filter (λ r, status r = "EXTRA") all_results);
     avg_completeness :=
       if 0 <? total_objects
       then (Qsum (completeness_percentage <$> all_results) / Qnat total_objects)%Q
       else 0%Q;
     avg_accuracy :=
       if 0 <? total_objects
       then (Qsum (accuracy_percentage <$> all_results) / Qnat total_objects)%Q
       else 0%Q |}.

(** [x < y] on percentages. *)
Definition Qltb (x y : Q) : bool := negb (Qle_bool y x).

(** The list [critical_issues] of [_generate_master_summary]. *)
Definition critical_issues (all_results : list ComparisonResult)
    : list ComparisonResult :=
  filter (λ r, status r ∈ ["MISSING"; "DIFFERENT"] ∧
               Qltb (completeness_percentage r) 80 = true) all_results.

(** [s.lower()] *)
Fixpoint lower (s : string) : string :=
  match s with
  | "" => ""
  | String c s' => String (to_lower c) (lower s')
  end.

(** An entry of [type_stats] in [_generate_master_summary]: the dict with
    the keys ['total'], ['matching'], ['different'], ['missing'], ['extra'],
    ['completeness'] and ['accuracy']. *)
Record type_stat := {
  ts_total : nat;
  ts_matching : nat;
  ts_different : nat;
  ts_missing : nat;
  ts_extra : nat;
  ts_completeness : list Q;
  ts_accuracy : list Q
}.

Definition type_stat_init : type_stat :=
  {| ts_total := 0; ts_matching := 0; ts_different := 0; ts_missing := 0;
     ts_extra := 0; ts_completeness := []; ts_accuracy := [] |}.

(** [stats[status_key] += 1]: KeyError for a key the dict does not have,
    TypeError for the two keys that hold lists. *)
Definition increment (status_key : string) (st : type_stat) : option type_stat :=
  if bool_decide (status_key = "total") then
    Some {| ts_total := ts_total st + 1; ts_matching := ts_matching st;
            ts_different := ts_different st; ts_missing := ts_missing st;
            ts_extra := ts_extra st; ts_completeness := ts_completeness st;
            ts_accuracy := ts_accuracy st |}
  else if bool_decide (status_key = "matching") then
    Some {| ts_total := ts_total st; ts_matching := ts_matching st + 1;
            ts_different := ts_different st; ts_missing := ts_missing st;
            ts_extra := ts_extra st; ts_completeness := ts_completeness st;
            ts_accuracy := ts_accuracy st |}
  else if bool_decide (status_key = "different") then
    Some {| ts_total := ts_total st; ts_matching := ts_matching st;
            ts_different := ts_different st + 1; ts_missing := ts_missing st;
            ts_extra := ts_extra st; ts_completeness := ts_completeness st;
            ts_accuracy := ts_accuracy st |}
  else if bool_decide (status_key = "missing") then
    Some {| ts_total := ts_total st; ts_matching := ts_matching st;
            ts_different := ts_different st; ts_missing := ts_missing st + 1;
            ts_extra := ts_extra st; ts_completeness := ts_completeness st;
            ts_accuracy := ts_accuracy st |}
  else if bool_decide (status_key = "extra") then
    Some {| ts_total := ts_total st; ts_matching := ts_matching st;
            ts_different := ts_different st; ts_missing := ts_missing st;
            ts_extra := ts_extra st + 1; ts_completeness := ts_completeness st;
            ts_accuracy := ts_accuracy st |}
  else None.

(** One round of the loop that fills [type_stats]; [None] when the
    increment raises. *)
Definition type_stats_step (type_stats : gmap string type_stat)
    (result : ComparisonResult) : option (gmap string type_stat) :=
  let obj_type := type_value (object_type result) in
  let stats := default type_stat_init (type_stats !! obj_type) in
  match increment "total" stats with
  | None => None
  | Some stats =>
      let status_key := lower (status result) in
      let status_key :=
        if bool_decide (status_key = "match") then "matching" else status_key in
      match increment status_key stats with
      | None => None
      | Some stats =>
          Some (<[obj_type :=
                  {| ts_total := ts_total stats;
                     ts_matching := ts_matching stats;
                     ts_different := ts_different stats;
                     ts_missing := ts_missing stats;
                     ts_extra := ts_extra stats;
                     ts_completeness :=
                       ts_completeness stats ++ [completeness_percentage result];
                     ts_accuracy :=
                       ts_accuracy stats ++ [accuracy_percentage result] |}]>
                type_stats)
      end
  end.

(** The dict [type_stats] after the loop over [all_results]. *)
Fixpoint type_stats_of (type_stats : gmap string type_stat)
    (all_results : list ComparisonResult) : option (gmap string type_stat) :=
  match all_results with
  | [] => Some type_stats
  | result :: all_results' =>
      match type_stats_step type_stats result with
      | Some type_stats' => type_stats_of type_stats' all_results'
      | None => None
      end
  end.

(** ** Vocabulary of the further properties *)

(** *** The comparison *)

(** The CTE pass of the comparison reads the names as a set and, for a
    name of both sides, the definition of the first entry with that name. *)
Definition ctes_agree (source_ctes docker_ctes : list cte_entry) : Prop :=
  cte_names source_ctes = cte_names docker_ctes ∧
  ∀ n cs cd,
    first_cte n source_ctes = Some cs → first_cte n docker_ctes = Some cd →
    cte_definition cs = cte_definition cd.

(** Two objects on which no pass of [_compare_objects] finds a difference. *)
Definition same_for_comparison (o1 o2 : SQLObject) : Prop :=
  type o1 = type o2 ∧
  columns o1 = columns o2 ∧
  ctes_agree (ctes o1) (ctes o2) ∧
  (list_to_set (join_str <$> joins o1) : gset string) =
    list_to_set (join_str <$> joins o2) ∧
  where_clause o1 = where_clause o2 ∧
  group_by o1 = group_by o2 ∧
  order_by o1 = order_by o2 ∧
  (list_to_set (comments o1) : gset string) = list_to_set (comments o2) ∧
  (type o1 = FUNCTION →
   parameters o1 = parameters o2 ∧ return_type o1 = return_type o2).

(** The names of a list of objects, as a set. *)
Definition names (objs : list SQLObject) : gset string :=
  list_to_set (name <$> objs).

(** What [compare_files] says of one name: the three ways in which the
    result [r] can stand to the two sides. *)
Definition missing_result (source_objects docker_objects : list SQLObject)
    (r : ComparisonResult) : Prop :=
  object_name r ∈ names source_objects ∧
  (object_name r ∉ names docker_objects) ∧
  status r = "MISSING" ∧
  completeness_percentage r = 0%Q ∧ accuracy_percentage r = 0%Q ∧
  length (differences r) = 1 ∧
  missing_components r = [] ∧ extra_components r = [] ∧
  line_by_line_diff r = [].

Definition extra_result (source_objects docker_objects : list SQLObject)
    (r : ComparisonResult) : Prop :=
  (object_name r ∉ names source_objects) ∧
  object_name r ∈ names docker_objects ∧
  status r = "EXTRA" ∧
  completeness_percentage r = 0%Q ∧ accuracy_percentage r = 0%Q ∧
  length (differences r) = 1 ∧
  missing_components r = [] ∧ extra_components r = [] ∧
  line_by_line_diff r = [].

Definition paired_result (source_objects docker_objects : list SQLObject)
    (r : ComparisonResult) : Prop :=
  object_name r ∈ names source_objects ∧ object_name r ∈ names docker_objects ∧
  ((status r = "MATCH" ∧ differences r = []) ∨
   (status r = "DIFFERENT" ∧ differences r ≠ [])) ∧
  (0 <= completeness_percentage r)%Q ∧ (completeness_percentage r <= 100)%Q.

Definition result_case (source_objects docker_objects : list SQLObject)
    (r : ComparisonResult) : Prop :=
  missing_result source_objects docker_objects r ∨
  extra_result source_objects docker_objects r ∨
  paired_result source_objects docker_objects r.

(** *** The reports *)

(** The list [all_results] that [generate_all_reports] hands to
    [_generate_master_summary]: the results of [compare_files] for every
    pair of parsed files, in order. [None] when a comparison raises. *)
Definition all_results_of (ratio : string → string → Q)
    (unified_diff : list string → list string → list string)
    (pairs : list (list SQLObject * list SQLObject))
    : option (list ComparisonResult) :=
  (λ results, concat results) <$>
  mapM (λ p, compare_files ratio unified_diff p.1 p.2) pairs.

(** The results of one object type, and the entry of [type_stats] that
    counts them. *)
Definition of_type (t : string) (all_results : list ComparisonResult)
    : list ComparisonResult :=
  filter (λ r, type_value (object_type r) = t) all_results.

Definition row_of (t : string) (all_results : list ComparisonResult) : type_stat :=
  let rs := of_type t all_results in
  {| ts_total := length rs;
     ts_matching := length (filter (λ r, status r = "MATCH") rs);
     ts_different := length (filter (λ r, status r = "DIFFERENT") rs);
     ts_missing := length (filter (λ r, status r = "MISSING") rs);
     ts_extra := length (filter (λ r, status r = "EXTRA") rs);
     ts_completeness := completeness_percentage <$> rs;
     ts_accuracy := accuracy_percentage <$> rs |}.

(** One of the four values that [compare_files] gives to a status. *)
Definition known_status (r : ComparisonResult) : Prop :=
  status r ∈ ["MATCH"; "DIFFERENT"; "MISSING"; "EXTRA"].

(** What the loop over [all_results] keeps true of [type_stats]: a type has
    an entry exactly when a result of that type was read, and the entry
    counts the results read so far. *)
Definition type_stats_inv (m : gmap string type_stat)
    (l : list ComparisonResult) : Prop :=
  ∀ t, m !! t = if bool_decide (of_type t l = []) then None else Some (row_of t l).

(** *** The extractor *)

(** The lines that [_parse_statement] adds to [current_line] for one
    statement: none for a blank one, else the lines of its stripped text. *)
Definition lines_of (statement : string) : nat :=
  if is_empty (strip statement) then 0
  else count_char newline (strip statement) + 1.

(** The pairs [(start_line, end_line)] of the objects that a parser whose
    counter is at [line] emits for the statements [parsed]. *)
Fixpoint line_spans (line : nat) (parsed : list string) : list (nat * nat) :=
  match parsed with
  | [] => []
  | statement :: parsed' =>
      let line' := line + lines_of statement in
      (if emits (strip statement)
       then [(line', line' + count_char newline (strip statement))]
       else []) ++
      line_spans line' parsed'
  end.

(** [_parse_statement] raises on the stripped statement [statement_str]:
    it is a view or a materialized view with a name, and [_extract_ctes]
    raises on its defining query. *)
Definition raises (statement_str : string) : Prop :=
  emits statement_str = true ∧
  (_get_object_type statement_str = Some VIEW ∨
   _get_object_type statement_str = Some MATERIALIZED_VIEW) ∧
  ∃ body,
    search_group1 re_SI as_pattern statement_str = Some body ∧
    _extract_ctes (strip body) = None.

(** A list of numbers that grows strictly. *)
Definition increasing (l : list nat) : Prop :=
  ∀ i j a b, i < j → l !! i = Some a → l !! j = Some b → a < b.

(** A text that [strip] leaves as it is. *)
Definition stripped (s : string) : Prop := strip s = s.

(** The table of the examples, as the extractor emits it. *)
Definition example_table : SQLObject := default example_t1 (head example_t).

(** A view of the examples, as the extractor emits it. *)
Definition example_view : SQLObject :=
  default example_t1
    (head (objects_of ["CREATE OR REPLACE VIEW v AS SELECT a, b FROM t WHERE x=1"])).

(** A part of a WITH clause on which the unpacking of [_extract_ctes]
    raises: it has [" AS "] in its upper-cased text only. *)
Definition as_in_upper_only (cte_part : string) : Prop :=
  contains (upper (strip cte_part)) " AS " = true ∧
  contains (strip cte_part) " AS " = false.

(** The character [a] does not occur in [s]. *)
Definition no_char (a : ascii) (s : string) : bool :=
  all_chars (λ c, negb (Ascii.eqb a c)) s.

(** A token: not empty and without whitespace. *)
Definition is_token (w : string) : bool :=
  negb (is_empty w) && all_chars (λ c, negb (is_space c)) w.

(** The text that [_get_object_type] looks for at the start of the
    upper-cased statement, for each type it can return. *)
Definition keyword (t : SQLObjectType) : option string :=
  match t with
  | VIEW => Some "CREATE OR REPLACE VIEW"
  | MATERIALIZED_VIEW => Some "CREATE MATERIALIZED VIEW"
  | FUNCTION => Some "CREATE OR REPLACE FUNCTION"
  | TABLE => Some "CREATE TABLE"
  | INDEX => Some "CREATE INDEX"
  | TRIGGER => Some "CREATE TRIGGER"
  | GRANT => Some "GRANT"
  | COMMENT => Some "COMMENT ON"
  | CTE => None
  end.

(** An index of the examples, as the extractor emits it. *)
Definition example_index : SQLObject :=
  default example_t1 (head (objects_of ["CREATE INDEX i ON t (c)"])).

(** *** The matcher *)

(** What a match is, apart from the order in which the matcher tries the
    alternatives: [matches fl r t rest c c'] says that [r] matches the text
    [t] when [rest] follows it, and turns the groups [c] into [c']. *)
Inductive matches (fl : flags) : regex → string → string → caps → caps → Prop :=
| matches_eps rest c : matches fl Eps "" rest c c
| matches_one cs b rest c :
    cset_mem fl cs b = true → matches fl (One cs) (String b "") rest c c
| matches_star g cs t rest c :
    all_chars (cset_mem fl cs) t = true → matches fl (Star g cs) t rest c c
| matches_seq r1 r2 t1 t2 rest c c1 c2 :
    matches fl r1 t1 (t2 +:+ rest) c c1 → matches fl r2 t2 rest c1 c2 →
    matches fl (Seq r1 r2) (t1 +:+ t2) rest c c2
| matches_alt_l r1 r2 t rest c c' :
    matches fl r1 t rest c c' → matches fl (Alt r1 r2) t rest c c'
| matches_alt_r r1 r2 t rest c c' :
    matches fl r2 t rest c c' → matches fl (Alt r1 r2) t rest c c'
| matches_group n r t rest c c' :
    matches fl r t rest c c' → matches fl (Group n r) t rest c ((n, t) :: c')
| matches_eos rest c : at_end rest = true → matches fl Eos "" rest c c
| matches_look r t rest' rest c c' :
    matches fl r t rest' c c' → rest = t +:+ rest' →
    matches fl (Look r) "" rest c c'.

Global Instance cset_eq_dec : EqDecision cset.
Proof. solve_decision. Defined.

Global Instance regex_eq_dec : EqDecision regex.
Proof. solve_decision. Defined.

(** A pattern without capturing groups. *)
Fixpoint group_free (r : regex) : bool :=
  match r with
  | Eps | One _ | Star _ _ | Eos => true
  | Seq r1 r2 | Alt r1 r2 => group_free r1 && group_free r2
  | Group _ _ => false
  | Look r' => group_free r'
  end.

(** A pattern that ends with the group [qualified n] and has no other
    group. *)
Fixpoint ends_qualified (n : nat) (r : regex) : bool :=
  match r with
  | Seq r1 r2 => group_free r1 && ends_qualified n r2
  | Group m r' =>
      bool_decide (Group m r' = qualified n)
  | _ => false
  end.

(** A run of whitespace. *)
Definition blank (ws : string) : Prop := ws ≠ "" ∧ all_chars is_space ws = true.

(** The texts that [_extract_joins] gives as the type of a join: the
    keywords in upper case, with the whitespace of the statement between
    them. *)
Definition join_type_text (s : string) : Prop :=
  s = "JOIN" ∨
  ∃ ws, blank ws ∧
    (s = "LEFT" +:+ ws +:+ "JOIN" ∨ s = "RIGHT" +:+ ws +:+ "JOIN" ∨
     s = "INNER" +:+ ws +:+ "JOIN" ∨
     ∃ ws2, blank ws2 ∧ s = "FULL" +:+ ws +:+ "OUTER" +:+ ws2 +:+ "JOIN").

(** The texts that [_parse_function] gives as a return type: an identifier,
    or an identifier with a parenthesised argument text right after it. *)
Definition return_type_text (s : string) : Prop :=
  ∃ w, is_ident w = true ∧
       (s = w ∨
        ∃ args, no_char ")" args = true ∧ s = w +:+ "(" +:+ args +:+ ")").

(** * Properties *)

(** ** Characters and strings *)

Lemma sapp_cons c s t : String c s +:+ t = String c (s +:+ t).
Proof. reflexivity. Qed.

Lemma sapp_nil_l t : "" +:+ t = t.
Proof. reflexivity. Qed.

Lemma sapp_nil_r s : s +:+ "" = s.
Proof. induction s as [|c s IH]; [done|]. by rewrite sapp_cons, IH. Qed.

Lemma sapp_assoc s t u : (s +:+ t) +:+ u = s +:+ t +:+ u.
Proof. induction s as [|c s IH]; [done|]. by rewrite !sapp_cons, IH. Qed.

Lemma is_space_to_upper c : is_space (to_upper c) = is_space c.
Proof. by destruct c as [[] [] [] [] [] [] [] []]. Qed.

Lemma is_word_not_space c : is_word c = true → is_space c = false.
Proof. by destruct c as [[] [] [] [] [] [] [] []]. Qed.

Lemma startswith_app s p : startswith s p = true → ∃ r, s = p +:+ r.
Proof.
  revert s. induction p as [|a p IH]; intros s H.
  - by exists s.
  - destruct s as [|b s]; [done|]. simpl in H.
    apply andb_prop in H as [Hab Hp]. apply Ascii.eqb_eq in Hab as ->.
    destruct (IH _ Hp) as [r ->]. by exists r.
Qed.

Lemma upper_lstrip s : upper (lstrip s) = lstrip (upper s).
Proof.
  induction s as [|c s IH]; [done|]. simpl.
  rewrite is_space_to_upper. by destruct (is_space c).
Qed.

Lemma is_empty_upper s : is_empty (upper s) = is_empty s.
Proof. by destruct s. Qed.

Lemma upper_rstrip s : upper (rstrip s) = rstrip (upper s).
Proof.
  induction s as [|c s IH]; [done|]. simpl.
  rewrite <- IH, is_empty_upper, is_space_to_upper.
  by destruct (is_empty (rstrip s) && is_space c).
Qed.

Lemma upper_strip s : upper (strip s) = strip (upper s).
Proof. unfold strip. by rewrite upper_rstrip, upper_lstrip. Qed.

Lemma startswith_rstrip p s :
  ends_solid p = true → startswith s p = true → startswith (rstrip s) p = true.
Proof.
  revert s. induction p as [|a p IH]; intros s Hp H; [by destruct (rstrip s)|].
  destruct s as [|b s]; [done|]. simpl in H.
  apply andb_prop in H as [Hab Hs]. apply Ascii.eqb_eq in Hab as <-.
  assert (ends_solid p = true ∧ (p = "" → is_space a = false)) as [Hp' Ha].
  { destruct p; simpl in *; [by destruct (is_space a)|done]. }
  specialize (IH s Hp' Hs). cbn [rstrip].
  destruct p as [|a' p].
  - rewrite Ha by done. rewrite andb_false_r. cbn [startswith].
    by rewrite Ascii.eqb_refl.
  - destruct (rstrip s) as [|x r] eqn:E; [done|]. cbn [is_empty andb].
    cbn [startswith] in *. by rewrite Ascii.eqb_refl, IH.
Qed.

Lemma startswith_lstrip a p s :
  is_space a = false → startswith s (String a p) = true → lstrip s = s.
Proof.
  intros Ha H. destruct s as [|b s]; [done|]. simpl in H.
  apply andb_prop in H as [Hab _]. apply Ascii.eqb_eq in Hab as <-.
  simpl. by rewrite Ha.
Qed.

(** ** Defaults that are never taken *)

Lemma lstrip_head s :
  lstrip s = "" ∨ ∃ c r, lstrip s = String c r ∧ is_space c = false.
Proof.
  induction s as [|c s IH]; [by left|]. simpl.
  destruct (is_space c) eqn:E; [done|]. right. eauto.
Qed.

Lemma strip_head s :
  strip s = "" ∨ ∃ c r, strip s = String c r ∧ is_space c = false.
Proof.
  unfold strip. destruct (lstrip_head s) as [->|(c & r & -> & Hc)]; [by left|].
  right. cbn [rstrip]. rewrite Hc, andb_false_r. eauto.
Qed.

Lemma split_ws_go_Some w s : split_ws_go (Some w) s ≠ [].
Proof.
  revert w. induction s as [|c s IH]; intros w; [done|]. simpl.
  destruct (is_space c); [done|]. apply IH.
Qed.

(** [col_def.split()[0]] in [_extract_table_columns] does not raise: a
    stripped text that is not empty has a first word. *)
Lemma split_ws_head s :
  is_empty (strip s) = false → is_Some (head (split_ws (strip s))).
Proof.
  intros H. destruct (strip_head s) as [E|(c & r & E & Hc)];
    rewrite E in *; [done|].
  unfold split_ws. simpl. rewrite Hc. simpl.
  pose proof (split_ws_go_Some (String c "") r) as Hne.
  by destruct (split_ws_go _ r).
Qed.

(** [next(...)] in [_compare_ctes] does not raise: a name of the set of CTE
    names is borne by an entry of the list. *)
Lemma first_cte_is_Some n l : n ∈ cte_names l → is_Some (first_cte n l).
Proof.
  unfold cte_names. rewrite elem_of_list_to_set.
  induction l as [|cte l IH]; intros H; [by apply elem_of_nil in H|].
  simpl. case_bool_decide as E; [done|].
  rewrite fmap_cons in H. apply elem_of_cons in H as [->|H]; [done|auto].
Qed.

(** ** The classifier *)

Lemma upper_strip_prefix P s :
  ends_solid P = true → (∀ a P', P = String a P' → is_space a = false) →
  P ≠ "" →
  startswith (upper s) P = true → ∃ r, upper (strip s) = P +:+ r.
Proof.
  intros Hend Hfst Hne H. apply startswith_app.
  rewrite upper_strip. unfold strip.
  destruct P as [|a P]; [done|].
  rewrite (startswith_lstrip a P) by eauto.
  by apply startswith_rstrip.
Qed.

Lemma strip_nonempty_prefix P s r :
  upper (strip s) = P +:+ r → P ≠ "" → is_empty (strip s) = false.
Proof.
  intros H HP. destruct (strip s); [|done].
  destruct P; [done|discriminate].
Qed.

Lemma parse_statement_unclassified self statement :
  _get_object_type (strip statement) = None →
  ∃ self', _parse_statement self statement = Some self' ∧
           objects self' = objects self.
Proof.
  intros H. unfold _parse_statement. rewrite H.
  destruct (is_empty (strip statement)); eauto.
Qed.

Lemma get_object_type_classified s t :
  _get_object_type s = Some t → classified t.
Proof.
  unfold _get_object_type, classified.
  repeat case_match; intros; simplify_eq; done.
Qed.

(** ** Objects emitted by [_parse_statement] *)

Lemma build_object_fields self statement_str n t cs o :
  build_object self statement_str n t cs = Some o →
  name o = n ∧ type o = t ∧ definition o = statement_str ∧ comments o = cs.
Proof.
  unfold build_object, _parse_view_or_mv, _parse_function, _parse_table,
    _parse_index, _parse_trigger, _parse_grant, _create_basic_object.
  intros H. repeat case_match; simplify_eq; done.
Qed.

Lemma build_object_defaults self statement_str n t cs o :
  build_object self statement_str n t cs = Some o →
  (t ≠ VIEW → t ≠ MATERIALIZED_VIEW → ctes o = [] ∧ joins o = []) ∧
  (t ≠ VIEW → t ≠ MATERIALIZED_VIEW → t ≠ TABLE → columns o = []).
Proof.
  unfold build_object, _parse_function, _parse_table,
    _parse_index, _parse_trigger, _parse_grant, _create_basic_object.
  intros H. destruct t; simplify_eq; done.
Qed.

(** [_parse_statement] either leaves the objects as they are, when the
    stripped statement fails [emits], or appends one object built from it. *)
Lemma parse_statement_cases self statement self' :
  _parse_statement self statement = Some self' →
  (emits (strip statement) = false ∧ objects self' = objects self) ∨
  (emits (strip statement) = true ∧
   ∃ o, objects self' = objects self ++ [o] ∧ well_formed o ∧
        definition o = strip statement).
Proof.
  unfold _parse_statement, emits. intros H.
  destruct (is_empty (strip statement)) eqn:He; simplify_eq; [by left|].
  destruct (_get_object_type (strip statement)) as [t|] eqn:Ht;
    simplify_eq; [|by left].
  destruct (_extract_object_name (strip statement) t) as [n|] eqn:Hn;
    simplify_eq; [|by left].
  destruct (is_empty n) eqn:Hne; simplify_eq; [by left|].
  destruct (build_object _ _ _ _ _) as [o|] eqn:Ho; simplify_eq.
  right. split; [done|]. exists o. split; [done|].
  destruct (build_object_fields _ _ _ _ _ _ Ho) as (Hname & Htype & Hdef & _).
  destruct (build_object_defaults _ _ _ _ _ _ Ho) as [Hd1 Hd2].
  split; [|done]. unfold well_formed. rewrite Hname, Htype.
  split_and!; [by intros -> | by eapply get_object_type_classified | done..].
Qed.

Lemma parse_statements_spec parsed : ∀ self self',
  parse_statements self parsed = Some self' →
  ∃ new, objects self' = objects self ++ new ∧ Forall well_formed new ∧
         definition <$> new = filter (λ s, emits s = true) (strip <$> parsed).
Proof.
  induction parsed as [|statement parsed IH]; intros self self' H; simpl in H.
  - simplify_eq. exists []. by rewrite app_nil_r.
  - destruct (_parse_statement self statement) as [self1|] eqn:H1; [|done].
    destruct (IH _ _ H) as (new & Hobjs & Hwf & Hdefs).
    rewrite fmap_cons, filter_cons.
    destruct (parse_statement_cases _ _ _ H1) as [[He Ho]|(He & o & Ho & Hwfo & Hdo)].
    + exists new. rewrite Hobjs, Ho. rewrite decide_False by congruence. done.
    + exists (o :: new). rewrite Hobjs, Ho, <- app_assoc.
      rewrite decide_True by done. split_and!; [done|by constructor|].
      by rewrite fmap_cons, Hdo, Hdefs.
Qed.

(** ** Claims on the classifier and on the emitted objects *)

(** C8. Every object in the output of the extractor has a non-empty name and
    a type of the classifier, and the collections its type does not fill are
    empty lists; the objects are, in order, those of the statements that are
    classified and whose name pattern yields a name, every other statement
    being dropped. *)
Theorem extracted_objects_well_formed
    (sqlparse_parse : string → list string) (content : string)
    (objs : list SQLObject) :
  parse_file sqlparse_parse content = Some objs →
  Forall well_formed objs ∧
  definition <$> objs =
    filter (λ s, emits s = true) (strip <$> sqlparse_parse content).
Proof.
  unfold parse_file. intros H.
  destruct (parse_statements _ _) as [self'|] eqn:Hp; simplify_eq/=.
  destruct (parse_statements_spec _ _ _ Hp) as (new & Hobjs & Hwf & Hdefs).
  simpl in Hobjs. by rewrite Hobjs.
Qed.

Lemma extracted_objects_well_formed_witness :
  ∃ objs,
    parse_file one_statement "CREATE TABLE t (id INT)" = Some objs ∧
    Forall well_formed objs ∧
    definition <$> objs =
      filter (λ s, emits s = true)
        (strip <$> one_statement "CREATE TABLE t (id INT)").
Proof.
  eexists. split; [reflexivity|].
  apply (extracted_objects_well_formed one_statement "CREATE TABLE t (id INT)").
  reflexivity.
Defined.

(** C5. A statement that begins, letter case apart, with CREATE UNIQUE INDEX
    is given no type by [_get_object_type], whose test is for CREATE INDEX
    only, and [_parse_statement] emits no object for it. *)
Theorem unique_index_not_classified (statement : string) :
  startswith (upper statement) "CREATE UNIQUE INDEX" = true →
  _get_object_type (strip statement) = None ∧
  ∀ self, ∃ self', _parse_statement self statement = Some self' ∧
                   objects self' = objects self.
Proof.
  intros H.
  assert (_get_object_type (strip statement) = None) as Hnone.
  { destruct (upper_strip_prefix "CREATE UNIQUE INDEX" statement) as [r Hr];
      [done| |done|done|].
    { intros a P' [= <- <-]. done. }
    unfold _get_object_type. rewrite Hr. reflexivity. }
  split; [done|]. intros self. by apply parse_statement_unclassified.
Qed.

Lemma unique_index_not_classified_witness :
  _get_object_type (strip "CREATE UNIQUE INDEX idx ON t (c)") = None ∧
  ∀ self, ∃ self',
    _parse_statement self "CREATE UNIQUE INDEX idx ON t (c)" = Some self' ∧
    objects self' = objects self.
Proof.
  apply (unique_index_not_classified "CREATE UNIQUE INDEX idx ON t (c)").
  reflexivity.
Defined.

(** The name pattern of INDEX does accept the UNIQUE form. *)
Lemma unique_index_name_pattern :
  _extract_object_name "CREATE UNIQUE INDEX idx ON t (c)" INDEX = Some "idx".
Proof. reflexivity. Qed.

(** C3. Reference [CREATE TABLE t (id INT, name TEXT, PRIMARY KEY (id))]
    against candidate [CREATE TABLE t (id INT)]: the one result is for [t],
    its status is DIFFERENT, its missing components are exactly
    ["Missing column: name"], and its completeness is below 100. *)
Theorem table_missing_column_scenario
    (ratio : string → string → Q)
    (unified_diff : list string → list string → list string) :
  ∃ reference candidate r,
    extract ["CREATE TABLE t (id INT, name TEXT, PRIMARY KEY (id))"] =
      Some reference ∧
    extract ["CREATE TABLE t (id INT)"] = Some candidate ∧
    compare_files ratio unified_diff reference candidate = Some [r] ∧
    object_name r = "t" ∧
    status r = "DIFFERENT" ∧
    missing_components r = ["Missing column: name"] ∧
    (completeness_percentage r < 100)%Q.
Proof.
  do 3 eexists. split; [reflexivity|]. split; [reflexivity|].
  split; [vm_compute; reflexivity|]. by vm_compute.
Qed.

(** ** The comparator: pairing by name *)

Lemma lookup_of_snoc objs o :
  lookup_of (objs ++ [o]) = <[name o := o]> (lookup_of objs).
Proof. unfold lookup_of. by rewrite foldl_app. Qed.

Lemma lookup_of_name objs n o : lookup_of objs !! n = Some o → name o = n.
Proof.
  induction objs as [|o' objs IH] using rev_ind; [done|].
  rewrite lookup_of_snoc.
  destruct (decide (name o' = n)) as [<-|Hne].
  - rewrite lookup_insert_eq. by intros [= <-].
  - by rewrite lookup_insert_ne.
Qed.

Lemma lookup_of_None objs n : lookup_of objs !! n = None ↔ n ∉ name <$> objs.
Proof.
  induction objs as [|o objs IH] using rev_ind.
  - split; [|done]. intros _ H. by apply elem_of_nil in H.
  - rewrite lookup_of_snoc, fmap_app, elem_of_app. simpl.
    rewrite list_elem_of_singleton.
    destruct (decide (name o = n)) as [<-|Hne].
    + rewrite lookup_insert_eq. split; [done|]. intros H. destruct H. by right.
    + rewrite lookup_insert_ne by done. rewrite IH.
      split; [intros H [H'|H']; [done|by subst]|intros H H'; apply H; by left].
Qed.

(** Last write wins: the dictionary holds, for a name, the last object of
    the list that bears it. *)
Lemma lookup_of_last pre o post :
  (∀ o', o' ∈ post → name o' ≠ name o) →
  lookup_of (pre ++ o :: post) !! name o = Some o.
Proof.
  induction post as [|o' post IH] using rev_ind; intros Hpost.
  - by rewrite lookup_of_snoc, lookup_insert_eq.
  - replace (pre ++ o :: post ++ [o']) with ((pre ++ o :: post) ++ [o'])
      by (by rewrite <- app_assoc).
    rewrite lookup_of_snoc, lookup_insert_ne.
    + apply IH. intros o'' H. apply Hpost. apply elem_of_app. by left.
    + apply Hpost. apply elem_of_app. right. by apply list_elem_of_singleton.
Qed.

Lemma elem_of_all_names src dkr n :
  n ∈ dom (lookup_of src) ∪ dom (lookup_of dkr) ↔
  n ∈ name <$> src ∨ n ∈ name <$> dkr.
Proof.
  assert (∀ l, n ∈ dom (lookup_of l) ↔ n ∈ name <$> l) as Hdom.
  { intros l. rewrite elem_of_dom, <- not_eq_None_Some, lookup_of_None.
    destruct (decide (n ∈ name <$> l)); naive_solver. }
  by rewrite elem_of_union, !Hdom.
Qed.

Section ComparatorFacts.

Variable ratio : string → string → Q.
Variable unified_diff : list string → list string → list string.

Lemma compare_name_object_name n so do r :
  compare_name ratio unified_diff n so do = Some r →
  (∀ o, so = Some o → name o = n) → object_name r = n.
Proof.
  intros H Hn. destruct so as [o|], do as [o'|]; simplify_eq/=; auto.
Qed.

Lemma compare_name_is_Some n so do :
  is_Some so ∨ is_Some do → is_Some (compare_name ratio unified_diff n so do).
Proof. intros [[o ->]|[o ->]]; [destruct do|destruct so]; simpl; eauto. Qed.

Lemma compare_names_results src dkr (names : list string) :
  (∀ n, n ∈ names → is_Some (lookup_of src !! n) ∨ is_Some (lookup_of dkr !! n)) →
  ∃ rs,
    mapM (λ n, compare_name ratio unified_diff n
                 (lookup_of src !! n) (lookup_of dkr !! n)) names
      = Some rs ∧
    object_name <$> rs = names ∧
    ∀ r, r ∈ rs →
      compare_name ratio unified_diff (object_name r)
        (lookup_of src !! object_name r)
        (lookup_of dkr !! object_name r) = Some r.
Proof.
  induction names as [|n names IH]; intros Hnames.
  - exists []. split_and!; [done..|]. intros r H. by apply elem_of_nil in H.
  - destruct IH as (rs & Hrs & Hobj & Hall).
    { intros n' H. apply Hnames. by right. }
    destruct (compare_name_is_Some n (lookup_of src !! n) (lookup_of dkr !! n))
      as [r Hr]; [apply Hnames; by left|].
    assert (object_name r = n) as Hrn.
    { eapply compare_name_object_name; [done|]. intros o.
      apply lookup_of_name. }
    exists (r :: rs). split_and!.
    + simpl. rewrite Hr. simpl. by rewrite Hrs.
    + by rewrite fmap_cons, Hrn, Hobj.
    + intros r' H. apply elem_of_cons in H as [->|H]; [by rewrite Hrn|auto].
Qed.

(** [compare_files] does not raise; its results bear, in order, the names
    of the set [all_names], and each is what the loop body computes from
    the two dictionary entries of its name. *)
Lemma compare_files_results src dkr :
  ∃ rs,
    compare_files ratio unified_diff src dkr = Some rs ∧
    object_name <$> rs = elements (dom (lookup_of src) ∪ dom (lookup_of dkr)) ∧
    ∀ r, r ∈ rs →
      compare_name ratio unified_diff (object_name r)
        (lookup_of src !! object_name r)
        (lookup_of dkr !! object_name r) = Some r.
Proof.
  apply compare_names_results. intros n H.
  apply elem_of_elements, elem_of_union in H. by rewrite <- !elem_of_dom.
Qed.

Lemma filter_absent_name (rs : list ComparisonResult) n :
  n ∉ object_name <$> rs → filter (λ r', object_name r' = n) rs = [].
Proof.
  induction rs as [|r0 rs IH]; intros Hn; [done|].
  rewrite fmap_cons, not_elem_of_cons in Hn. destruct Hn as [Hne Hn].
  rewrite filter_cons, decide_False by done. by apply IH.
Qed.

Lemma filter_unique_name (rs : list ComparisonResult) r n :
  NoDup (object_name <$> rs) → r ∈ rs → object_name r = n →
  filter (λ r', object_name r' = n) rs = [r].
Proof.
  induction rs as [|r0 rs IH]; intros Hnd Hin Hn; [by apply elem_of_nil in Hin|].
  rewrite fmap_cons in Hnd. apply NoDup_cons in Hnd as [Hnotin Hnd].
  rewrite filter_cons. apply elem_of_cons in Hin as [<-|Hin].
  - rewrite decide_True by done. f_equal.
    apply filter_absent_name. by rewrite <- Hn.
  - rewrite decide_False; [by apply IH|].
    intros Heq. apply Hnotin. rewrite Heq, <- Hn.
    apply list_elem_of_fmap. eauto.
Qed.

(** For a name borne by an object of either side there is exactly one
    result, the one the loop body computes from the two dictionary entries. *)
Lemma compare_files_result_for src dkr n :
  n ∈ name <$> src ∨ n ∈ name <$> dkr →
  ∃ rs r,
    compare_files ratio unified_diff src dkr = Some rs ∧
    filter (λ r', object_name r' = n) rs = [r] ∧
    compare_name ratio unified_diff n (lookup_of src !! n) (lookup_of dkr !! n)
      = Some r.
Proof.
  intros Hn. destruct (compare_files_results src dkr) as (rs & Hrs & Hnames & Hall).
  apply elem_of_all_names, elem_of_elements in Hn. rewrite <- Hnames in Hn.
  apply list_elem_of_fmap in Hn as (r & -> & Hr).
  exists rs, r. split_and!; [done| |by apply Hall].
  apply filter_unique_name; [|done..]. rewrite Hnames. apply NoDup_elements.
Qed.

End ComparatorFacts.

(** ** Claims on the pairing by name *)

(** C4. An object name borne on the reference side only has exactly one
    result: status MISSING, completeness and accuracy 0, and one difference
    that notes the absence. With the two sequences swapped the name has
    exactly one result: status EXTRA, completeness and accuracy 0, and one
    difference that notes the unexpected presence. *)
Theorem missing_extra_symmetry
    (ratio : string → string → Q)
    (unified_diff : list string → list string → list string)
    (reference candidate : list SQLObject) (n : string) :
  n ∈ name <$> reference → n ∉ name <$> candidate →
  (∃ rs r,
     compare_files ratio unified_diff reference candidate = Some rs ∧
     filter (λ r', object_name r' = n) rs = [r] ∧
     status r = "MISSING" ∧
     completeness_percentage r = 0%Q ∧ accuracy_percentage r = 0%Q ∧
     differences r =
       ["Object '" +:+ n +:+ "' exists in source but missing in Docker"]) ∧
  (∃ rs r,
     compare_files ratio unified_diff candidate reference = Some rs ∧
     filter (λ r', object_name r' = n) rs = [r] ∧
     status r = "EXTRA" ∧
     completeness_percentage r = 0%Q ∧ accuracy_percentage r = 0%Q ∧
     differences r =
       ["Object '" +:+ n +:+ "' exists in Docker but not in source"]).
Proof.
  intros Hin Hout.
  assert (lookup_of candidate !! n = None) as Hc by by apply lookup_of_None.
  assert (∃ o, lookup_of reference !! n = Some o) as [o Ho].
  { destruct (lookup_of reference !! n) eqn:E; [eauto|].
    by apply lookup_of_None in E. }
  split.
  - destruct (compare_files_result_for ratio unified_diff reference candidate n)
      as (rs & r & Hrs & Hf & Hr); [by left|].
    rewrite Ho, Hc in Hr. simpl in Hr. injection Hr as <-.
    exists rs. eexists. split_and!; [done|exact Hf|done..].
  - destruct (compare_files_result_for ratio unified_diff candidate reference n)
      as (rs & r & Hrs & Hf & Hr); [by right|].
    rewrite Ho, Hc in Hr. simpl in Hr. injection Hr as <-.
    exists rs. eexists. split_and!; [done|exact Hf|done..].
Qed.

(** C7. When a side holds two objects of one name, the later being the last
    of that name, the name has exactly one result, and that result is what
    the loop body computes from the later object and the entry of the other
    side; this holds on the source side and on the Docker side. *)
Theorem duplicate_name_last_wins
    (ratio : string → string → Q)
    (unified_diff : list string → list string → list string)
    (other pre mid post : list SQLObject) (o1 o2 : SQLObject) :
  name o1 = name o2 →
  (∀ o, o ∈ post → name o ≠ name o2) →
  let side := pre ++ o1 :: mid ++ o2 :: post in
  (∃ rs r,
     compare_files ratio unified_diff side other = Some rs ∧
     filter (λ r', object_name r' = name o2) rs = [r] ∧
     compare_name ratio unified_diff (name o2) (Some o2)
       (lookup_of other !! name o2) = Some r) ∧
  (∃ rs r,
     compare_files ratio unified_diff other side = Some rs ∧
     filter (λ r', object_name r' = name o2) rs = [r] ∧
     compare_name ratio unified_diff (name o2)
       (lookup_of other !! name o2) (Some o2) = Some r).
Proof.
  intros Hsame Hpost side.
  assert (lookup_of side !! name o2 = Some o2) as Hside.
  { unfold side. replace (pre ++ o1 :: mid ++ o2 :: post)
      with ((pre ++ o1 :: mid) ++ o2 :: post) by (by rewrite <- app_assoc).
    by apply lookup_of_last. }
  assert (name o2 ∈ name <$> side) as Hin.
  { unfold side. rewrite !fmap_app, !fmap_cons, fmap_app, fmap_cons.
    rewrite !elem_of_app, !elem_of_cons, !elem_of_app, !elem_of_cons. auto. }
  split.
  - destruct (compare_files_result_for ratio unified_diff side other (name o2))
      as (rs & r & Hrs & Hf & Hr); [by left|].
    rewrite Hside in Hr. by exists rs, r.
  - destruct (compare_files_result_for ratio unified_diff other side (name o2))
      as (rs & r & Hrs & Hf & Hr); [by right|].
    rewrite Hside in Hr. by exists rs, r.
Qed.

Lemma missing_extra_symmetry_witness :
  (∃ rs r,
     compare_files ratio_equal diff_none example_tu example_t = Some rs ∧
     filter (λ r', object_name r' = "u") rs = [r] ∧
     status r = "MISSING" ∧
     completeness_percentage r = 0%Q ∧ accuracy_percentage r = 0%Q ∧
     differences r = ["Object 'u' exists in source but missing in Docker"]) ∧
  (∃ rs r,
     compare_files ratio_equal diff_none example_t example_tu = Some rs ∧
     filter (λ r', object_name r' = "u") rs = [r] ∧
     status r = "EXTRA" ∧
     completeness_percentage r = 0%Q ∧ accuracy_percentage r = 0%Q ∧
     differences r = ["Object 'u' exists in Docker but not in source"]).
Proof.
  apply (missing_extra_symmetry ratio_equal diff_none example_tu example_t "u").
  - apply (bool_decide_unpack _). by vm_compute.
  - apply (bool_decide_unpack _). by vm_compute.
Defined.

Lemma duplicate_name_last_wins_witness :
  let side := [] ++ example_t1 :: [] ++ example_t2 :: [] in
  (∃ rs r,
     compare_files ratio_equal diff_none side example_t = Some rs ∧
     filter (λ r', object_name r' = name example_t2) rs = [r] ∧
     compare_name ratio_equal diff_none (name example_t2) (Some example_t2)
       (lookup_of example_t !! name example_t2) = Some r) ∧
  (∃ rs r,
     compare_files ratio_equal diff_none example_t side = Some rs ∧
     filter (λ r', object_name r' = name example_t2) rs = [r] ∧
     compare_name ratio_equal diff_none (name example_t2)
       (lookup_of example_t !! name example_t2) (Some example_t2) = Some r).
Proof.
  apply (duplicate_name_last_wins ratio_equal diff_none example_t [] [] []
           example_t1 example_t2).
  - reflexivity.
  - intros o H. by apply elem_of_nil in H.
Defined.

(** ** The comparison passes *)

Lemma nonempty_false (X : gset string) : nonempty X = false ↔ X = ∅.
Proof.
  unfold nonempty. rewrite bool_decide_eq_false. split; [|by intros ->; auto].
  intros H. by destruct (decide (X = ∅)).
Qed.

Lemma difference_both_empty (X Y : gset string) :
  X ∖ Y = ∅ ∧ Y ∖ X = ∅ ↔ X = Y.
Proof.
  split; [|intros ->; split; apply difference_diag_L].
  intros [H1 H2]. apply set_eq. intros x.
  split; intros Hx.
  - destruct (decide (x ∈ Y)); [done|].
    assert (x ∈ X ∖ Y) as H by (by apply elem_of_difference).
    rewrite H1 in H. by apply not_elem_of_empty in H.
  - destruct (decide (x ∈ X)); [done|].
    assert (x ∈ Y ∖ X) as H by (by apply elem_of_difference).
    rewrite H2 in H. by apply not_elem_of_empty in H.
Qed.

Lemma app_if_nil_iff {A} (b1 b2 : bool) (x y : list A) :
  x ≠ [] → y ≠ [] →
  (if b1 then x else []) ++ (if b2 then y else []) = [] ↔
  b1 = false ∧ b2 = false.
Proof.
  intros Hx Hy. destruct x as [|a x]; [done|]. destruct y as [|b y]; [done|].
  destruct b1, b2; simpl; split; intros H; try done; by destruct H.
Qed.

(** C6, as amended. The JOIN pass of the comparison adds no difference
    exactly when the two lists of joins give the same set of texts
    [type table ON condition]: the key of the pass holds the condition. *)
Theorem join_pass_silent_iff (source_joins docker_joins : list join_entry) :
  found_differences (_compare_joins source_joins docker_joins) = [] ↔
  (list_to_set (join_str <$> source_joins) : gset string) =
    list_to_set (join_str <$> docker_joins).
Proof.
  unfold _compare_joins. cbn [found_differences].
  rewrite app_if_nil_iff by done.
  by rewrite !nonempty_false, difference_both_empty.
Qed.

(** C6 fails as stated: two joins with the same type and table, hence the
    same key [type table], whose conditions differ by spacing, make the JOIN
    pass add two differences. *)
Lemma join_condition_counterexample :
  (list_to_set (join_key <$> [join_spaced]) : gset string) =
    list_to_set (join_key <$> [join_tight]) ∧
  found_differences (_compare_joins [join_spaced] [join_tight]) =
    ["Missing JOINs: 1"; "Extra JOINs: 1"].
Proof. split; by vm_compute. Qed.

(** ** Objects extracted from the same text *)

Lemma parse_statement_emits self statement self' o :
  _parse_statement self statement = Some self' →
  objects self' = objects self ++ [o] →
  ∃ self1 t n,
    _get_object_type (strip statement) = Some t ∧
    _extract_object_name (strip statement) t = Some n ∧
    build_object self1 (strip statement) n t
      (_extract_comments (strip statement)) = Some o.
Proof.
  unfold _parse_statement. intros H Ho.
  assert (objects self ≠ objects self ++ [o]) as Hne.
  { intros E. apply (f_equal length) in E. rewrite length_app in E.
    simpl in E. lia. }
  destruct (is_empty (strip statement));
    [injection H as <-; by destruct Hne|].
  destruct (_get_object_type (strip statement)) as [t|];
    [|injection H as <-; by destruct Hne].
  destruct (_extract_object_name (strip statement) t) as [n|] eqn:Hn;
    [|injection H as <-; by destruct Hne].
  destruct (is_empty n); [injection H as <-; by destruct Hne|].
  destruct (build_object _ _ _ _ _) as [o'|] eqn:Hb; [|done].
  injection H as <-.
  simpl in Ho. apply app_inj_tail in Ho as [_ ->].
  eauto 6.
Qed.

Lemma build_object_same_text self1 self2 d n t cs o1 o2 :
  build_object self1 d n t cs = Some o1 →
  build_object self2 d n t cs = Some o2 →
  same_features o1 o2.
Proof.
  unfold build_object, _parse_view_or_mv, _parse_function, _parse_table,
    _parse_index, _parse_trigger, _parse_grant, _create_basic_object,
    same_features.
  intros H1 H2. repeat case_match; simplify_eq; done.
Qed.

Lemma emitted_same_definition o1 o2 :
  emitted o1 → emitted o2 → definition o1 = definition o2 →
  same_features o1 o2.
Proof.
  intros (s1 & st1 & s1' & Hp1 & Ho1) (s2 & st2 & s2' & Hp2 & Ho2) Hdef.
  destruct (parse_statement_emits _ _ _ _ Hp1 Ho1) as (a1 & t1 & n1 & Ht1 & Hn1 & Hb1).
  destruct (parse_statement_emits _ _ _ _ Hp2 Ho2) as (a2 & t2 & n2 & Ht2 & Hn2 & Hb2).
  destruct (build_object_fields _ _ _ _ _ _ Hb1) as (_ & _ & Hd1 & _).
  destruct (build_object_fields _ _ _ _ _ _ Hb2) as (_ & _ & Hd2 & _).
  assert (strip st1 = strip st2) as E by congruence.
  rewrite E in *. simplify_eq. by eapply build_object_same_text.
Qed.

Lemma lookup_of_elem objs n o : lookup_of objs !! n = Some o → o ∈ objs.
Proof.
  induction objs as [|o' objs IH] using rev_ind; [done|].
  rewrite lookup_of_snoc, elem_of_app, list_elem_of_singleton.
  destruct (decide (name o' = n)) as [<-|Hne].
  - rewrite lookup_insert_eq. intros [= <-]. by right.
  - rewrite lookup_insert_ne by done. intros H. left. by apply IH.
Qed.

(** ** Comparison of two objects with the same features *)

Lemma bool_decide_ne_refl {A} `{EqDecision A} (x : A) :
  bool_decide (x ≠ x) = false.
Proof. apply bool_decide_eq_false_2. intros H'. by apply H'. Qed.

Lemma compare_columns_same l : found_differences (_compare_columns l l) = [].
Proof.
  unfold _compare_columns. cbn [found_differences].
  rewrite difference_diag_L. unfold nonempty.
  rewrite !bool_decide_eq_false_2 by auto. done.
Qed.

Lemma cte_definition_differs_same l n : cte_definition_differs l l n = [].
Proof.
  unfold cte_definition_differs. destruct (first_cte n l); [|done].
  by rewrite bool_decide_eq_false_2 by auto.
Qed.

Lemma compare_ctes_same l : found_differences (_compare_ctes l l) = [].
Proof.
  unfold _compare_ctes. cbn [found_differences].
  rewrite difference_diag_L. unfold nonempty.
  rewrite !bool_decide_eq_false_2 by auto. simpl.
  induction (elements _) as [|n ns IH]; [done|].
  by rewrite fmap_cons, concat_cons, cte_definition_differs_same.
Qed.

Lemma compare_joins_same l : found_differences (_compare_joins l l) = [].
Proof.
  unfold _compare_joins. cbn [found_differences].
  rewrite difference_diag_L. unfold nonempty.
  by rewrite !bool_decide_eq_false_2 by auto.
Qed.

Lemma compare_clauses_same c t : found_differences (_compare_clauses c c t) = [].
Proof. unfold _compare_clauses. simpl. by rewrite bool_decide_eq_false_2 by auto. Qed.

Lemma compare_comments_same l : found_differences (_compare_comments l l) = [].
Proof.
  unfold _compare_comments. cbn [found_differences].
  rewrite difference_diag_L. unfold nonempty.
  by rewrite !bool_decide_eq_false_2 by auto.
Qed.

Lemma object_differences_same o1 o2 :
  same_features o1 o2 → object_differences o1 o2 = [].
Proof.
  intros (_ & Ht & _ & Hcm & Hcol & Hj & Hw & Hg & Ho & Hcte & Hp & Hr).
  unfold object_differences, _compare_functions. cbn [found_differences].
  rewrite <- Ht, <- Hcm, <- Hcol, <- Hj, <- Hw, <- Hg, <- Ho, <- Hcte, <- Hp, <- Hr.
  rewrite compare_columns_same, compare_ctes_same, compare_joins_same,
    !compare_clauses_same, compare_comments_same.
  rewrite !bool_decide_ne_refl. simpl. by case_bool_decide.
Qed.

(** ** Completeness and accuracy of two objects with the same features *)

Lemma size_list_to_set_le (l : list string) :
  size (list_to_set l : gset string) ≤ length l.
Proof.
  induction l as [|x l IH]; [done|]. rewrite list_to_set_cons. simpl.
  pose proof (size_union_alt {[x]} (list_to_set l : gset string)) as H.
  pose proof (subseteq_size (list_to_set l ∖ {[x]}) (list_to_set l : gset string)) as H'.
  rewrite size_singleton in H. rewrite H.
  assert (size (list_to_set l ∖ {[x]} : gset string) ≤ size (list_to_set l : gset string))
    by (by apply H', subseteq_difference_l).
  lia.
Qed.

Lemma size_list_to_set_NoDup (l : list string) :
  size (list_to_set l : gset string) = length l ↔ NoDup l.
Proof.
  split; [|apply size_list_to_set].
  induction l as [|x l IH]; intros H; [constructor|].
  rewrite list_to_set_cons in H. simpl in H.
  pose proof (size_list_to_set_le l) as Hle.
  destruct (decide (x ∈ l)) as [Hin|Hout].
  - assert ({[x]} ∪ list_to_set l = (list_to_set l : gset string)) as E.
    { apply subseteq_union_1_L, singleton_subseteq_l.
      by apply elem_of_list_to_set. }
    rewrite E in H. lia.
  - rewrite size_union in H
      by (by apply disjoint_singleton_l; rewrite elem_of_list_to_set).
    rewrite size_singleton in H.
    constructor; [done|]. apply IH. lia.
Qed.

Lemma pct_full (m t : nat) :
  t ≠ 0 → (Qnat m / Qnat t * 100 == 100)%Q ↔ m = t.
Proof.
  intros Ht.
  assert (¬ (Qnat t == 0)%Q) as Ht'.
  { unfold Qnat, Qeq. simpl. lia. }
  split.
  - intros H.
    assert (Qnat m / Qnat t == 1)%Q as H1.
    { apply (Qmult_inj_r _ _ 100%Q); [done|]. by rewrite H. }
    assert (Qnat m == Qnat t)%Q as H2.
    { transitivity (Qnat t * (Qnat m / Qnat t))%Q;
        [symmetry; by apply Qmult_div_r|].
      transitivity (Qnat t * 1)%Q; [|apply Qmult_1_r].
      apply Qmult_comp; [reflexivity|exact H1]. }
    unfold Qnat, Qeq in H2. simpl in H2. lia.
  - intros ->. unfold Qdiv. rewrite Qmult_inv_r by done. done.
Qed.

Lemma clause_counts_same (w g o : option string) :
  clause_matches w w + clause_matches g g + clause_matches o o =
  length (filter (λ c, truthy c = true) [w; g; o]).
Proof.
  unfold clause_matches. rewrite !bool_decide_eq_true_2 by done.
  rewrite !andb_true_r, !filter_cons, filter_nil.
  destruct (truthy w), (truthy g), (truthy o); reflexivity.
Qed.

(** Between two objects with the same features every reference component is
    matched once per distinct value, so completeness is 100 exactly when no
    column, CTE name or join key occurs twice. *)
Lemma completeness_same o1 o2 :
  same_features o1 o2 →
  (_calculate_completeness o1 o2 == 100)%Q ↔
  NoDup (columns o1) ∧ NoDup (cte_name <$> ctes o1) ∧
  NoDup (join_key <$> joins o1).
Proof.
  intros (_ & _ & _ & _ & Hcol & Hj & Hw & Hg & Ho & Hcte & _ & _).
  unfold _calculate_completeness, matching_components, total_components,
    cte_names.
  rewrite <- Hcol, <- Hj, <- Hw, <- Hg, <- Ho, <- Hcte.
  rewrite !intersection_idemp_L, clause_counts_same.
  rewrite <- !size_list_to_set_NoDup.
  pose proof (size_list_to_set_le (columns o1)) as L1.
  pose proof (size_list_to_set_le (cte_name <$> ctes o1)) as L2.
  pose proof (size_list_to_set_le (join_key <$> joins o1)) as L3.
  rewrite !length_fmap in *.
  destruct (Nat.eqb_spec
    (length (columns o1) + length (ctes o1) + length (joins o1) +
     length (filter (λ c, truthy c = true)
               [where_clause o1; group_by o1; order_by o1])) 0) as [E|E].
  - split; [intros _; lia|done].
  - rewrite pct_full by done. lia.
Qed.

Lemma accuracy_same ratio o1 o2 :
  (∀ s, ratio s s == 1)%Q → same_features o1 o2 →
  (_calculate_accuracy ratio o1 o2 == 100)%Q.
Proof.
  intros Hr (_ & _ & Hd & _). unfold _calculate_accuracy.
  rewrite <- Hd, Hr. done.
Qed.

(** ** Claim on identical texts *)

(** On identical texts in general. Take two sequences of extracted objects
    such that, for every name, the object kept for it has the same text on
    both sides, and a ratio that is 1 on equal texts. Then every result has
    status MATCH and accuracy 100, and [_calculate_completeness] gives 100
    exactly when the reference object has no column, no CTE name and no join
    key twice: it counts every component in the total and the distinct ones
    among the matches. *)
Lemma identical_text_results
    (ratio : string → string → Q)
    (unified_diff : list string → list string → list string)
    (reference candidate : list SQLObject) :
  (∀ s, ratio s s == 1)%Q →
  Forall emitted reference → Forall emitted candidate →
  (∀ n, definition <$> lookup_of reference !! n =
        definition <$> lookup_of candidate !! n) →
  ∃ rs,
    compare_files ratio unified_diff reference candidate = Some rs ∧
    ∀ r, r ∈ rs →
      status r = "MATCH" ∧ (accuracy_percentage r == 100)%Q ∧
      ∃ o, lookup_of reference !! object_name r = Some o ∧
        ((completeness_percentage r == 100)%Q ↔
         NoDup (columns o) ∧ NoDup (cte_name <$> ctes o) ∧
         NoDup (join_key <$> joins o)).
Proof.
  intros Hratio Href Hcand Hsame.
  destruct (compare_files_results ratio unified_diff reference candidate)
    as (rs & Hrs & _ & Hall).
  exists rs. split; [done|]. intros r Hr. specialize (Hall r Hr).
  specialize (Hsame (object_name r)).
  destruct (lookup_of reference !! object_name r) as [o1|] eqn:H1;
    destruct (lookup_of candidate !! object_name r) as [o2|] eqn:H2;
    simplify_eq/=.
  assert (same_features o1 o2) as Hfeat.
  { apply emitted_same_definition; [| |done].
    - eapply Forall_forall; [exact Href|]. by eapply lookup_of_elem.
    - eapply Forall_forall; [exact Hcand|]. by eapply lookup_of_elem. }
  split_and!.
  - by rewrite object_differences_same.
  - by apply accuracy_same.
  - exists o1. split; [done|]. by apply completeness_same.
Qed.

Lemma ratio_equal_same s : (ratio_equal s s == 1)%Q.
Proof. unfold ratio_equal. by rewrite bool_decide_eq_true_2. Qed.

Lemma identical_text_results_example :
  ∃ rs,
    compare_files ratio_equal diff_none example_t example_t = Some rs ∧
    ∀ r, r ∈ rs →
      status r = "MATCH" ∧ (accuracy_percentage r == 100)%Q ∧
      ∃ o, lookup_of example_t !! object_name r = Some o ∧
        ((completeness_percentage r == 100)%Q ↔
         NoDup (columns o) ∧ NoDup (cte_name <$> ctes o) ∧
         NoDup (join_key <$> joins o)).
Proof.
  assert (Forall emitted example_t) as He.
  { repeat constructor.
    exists SQLParser_init, "CREATE TABLE t (id INT)". eexists.
    split; reflexivity. }
  apply (identical_text_results ratio_equal diff_none example_t example_t).
  - exact ratio_equal_same.
  - exact He.
  - exact He.
  - reflexivity.
Defined.

(** C2, at a view with two columns of one name. The statement [CREATE OR
    REPLACE VIEW v AS SELECT a.id, b.id FROM a, b] is extracted with the
    columns ["id"; "id"]. Compared with itself the view has status MATCH and
    accuracy 100, as C2 says, but completeness 50 where C2 says 100:
    [_calculate_completeness] counts both columns in the total and, through
    the sets, one match. *)
Theorem identical_text_duplicate_columns :
  extract ["CREATE OR REPLACE VIEW v AS SELECT a.id, b.id FROM a, b"] =
    Some example_dup_columns ∧
  columns <$> example_dup_columns = [["id"; "id"]] ∧
  ∃ r,
    compare_files ratio_equal diff_none example_dup_columns example_dup_columns
      = Some [r] ∧
    status r = "MATCH" ∧ (accuracy_percentage r == 100)%Q ∧
    (completeness_percentage r == 50)%Q ∧
    ¬ (completeness_percentage r == 100)%Q.
Proof.
  split; [reflexivity|]. split; [reflexivity|]. eexists.
  split; [vm_compute; reflexivity|]. by vm_compute.
Qed.

(** ** The matcher on literals, repetitions and identifiers *)

Lemma rmatch_lit fl p s c k :
  rmatch fl (lit p) s c k =
  match lit_prefix fl p s with
  | Some (t, r) => k t r c
  | None => None
  end.
Proof.
  revert s k. induction p as [|a p IH]; intros s k; [done|].
  destruct p as [|a' p].
  - cbn [lit rmatch lit_prefix]. destruct s as [|b s]; [done|].
    by destruct (cset_mem fl (Lit a) b).
  - change (lit (String a (String a' p)))
      with (Seq (One (Lit a)) (lit (String a' p))).
    remember (String a' p) as q eqn:Hq.
    cbn [rmatch lit_prefix]. destruct s as [|b s]; [done|].
    destruct (cset_mem fl (Lit a) b); [|done].
    rewrite IH. by destruct (lit_prefix fl q s) as [[t r]|].
Qed.

Lemma rmatch_seq fl r1 r2 s c k :
  rmatch fl (Seq r1 r2) s c k =
  rmatch fl r1 s c (λ t1 s1 c1,
    rmatch fl r2 s1 c1 (λ t2 s2 c2, k (t1 +:+ t2) s2 c2)).
Proof. done. Qed.

Lemma rmatch_opt fl r s c k :
  rmatch fl (opt r) s c k =
  match rmatch fl r s c k with
  | Some x => Some x
  | None => k "" s c
  end.
Proof. done. Qed.

Lemma rmatch_group fl n r s c k :
  rmatch fl (Group n r) s c k = rmatch fl r s c (λ t s' c', k t s' ((n, t) :: c')).
Proof. done. Qed.

Lemma rmatch_plus fl cs b s c k :
  rmatch fl (plus cs) (String b s) c k =
  if cset_mem fl cs b
  then star_greedy (cset_mem fl cs) s (λ t s', k (String b t) s' c)
  else None.
Proof. unfold plus. cbn [rmatch]. by destruct (cset_mem fl cs b). Qed.

Lemma rmatch_plus_nil fl cs c k : rmatch fl (plus cs) "" c k = None.
Proof. done. Qed.

Lemma star_greedy_stop p s k : boundary p s = true → star_greedy p s k = k "" s.
Proof. destruct s as [|b s]; [done|]. simpl. by destruct (p b). Qed.

Lemma star_greedy_app_Some p w s k x :
  all_chars p w = true → boundary p s = true → k w s = Some x →
  star_greedy p (w +:+ s) k = Some x.
Proof.
  revert k. induction w as [|a w IH]; intros k Hw Hs Hk.
  - by rewrite sapp_nil_l, star_greedy_stop.
  - simpl in Hw. apply andb_prop in Hw as [Ha Hw].
    rewrite sapp_cons. cbn [star_greedy]. rewrite Ha.
    by rewrite (IH (λ t r, k (String a t) r)).
Qed.

Lemma lit_dot_false fl b :
  Ascii.eqb b "." = false → cset_mem fl (Lit ".") b = false.
Proof.
  destruct fl as [[] ?]; destruct b as [[] [] [] [] [] [] [] []]; done.
Qed.

Lemma name_end_inv s :
  name_end s = true →
  boundary is_word s = true ∧
  ∀ fl r c k, rmatch fl (Seq (One (Lit ".")) r) s c k = None.
Proof.
  destruct s as [|b s]; [done|]. unfold name_end. cbn [boundary].
  rewrite negb_orb. intros [Hw Hd]%andb_prop. split; [done|].
  intros fl r c k. apply negb_true_iff in Hd. cbn [rmatch].
  by rewrite lit_dot_false.
Qed.

Lemma rmatch_qualified fl n w rest c k x :
  is_ident w = true → name_end rest = true →
  k w rest ((n, w) :: c) = Some x →
  rmatch fl (qualified n) (w +:+ rest) c k = Some x.
Proof.
  intros Hw Hrest Hk. destruct (name_end_inv _ Hrest) as [Hb Hdot].
  unfold is_ident in Hw. destruct w as [|a w]; [done|]. simpl in Hw.
  apply andb_prop in Hw as [Ha Hw].
  unfold qualified. rewrite rmatch_group, rmatch_seq, sapp_cons, rmatch_plus.
  cbn [cset_mem]. rewrite Ha.
  apply star_greedy_app_Some; [done..|].
  rewrite rmatch_opt, Hdot. by rewrite sapp_nil_r.
Qed.

Lemma search_here fl r s t rest c :
  rmatch fl r s [] accept = Some (t, rest, c) →
  search_group1 fl r s = Some (default "" (group 1 c)).
Proof.
  intros H. unfold search_group1. destruct s; simpl; by rewrite H.
Qed.

Lemma search_here_group fl r s t rest c g :
  rmatch fl r s [] accept = Some (t, rest, c) → group 1 c = Some g →
  search_group1 fl r s = Some g.
Proof. intros H Hg. rewrite (search_here _ _ _ _ _ _ H). by rewrite Hg. Qed.

Lemma boundary_space_ident fl w s :
  is_ident w = true → boundary (cset_mem fl Space) (w +:+ s) = true.
Proof.
  unfold is_ident. destruct w as [|a w]; [done|]. simpl.
  intros [Ha _]%andb_prop. by rewrite (is_word_not_space a).
Qed.

(** Evaluation of the matcher on the literal part of a text. *)
Ltac eval_lit :=
  match goal with
  | |- context [lit_prefix ?fl ?p ?s] =>
      let r := eval lazy -[String.append] in (lit_prefix fl p s) in
      match r with
      | Some _ => idtac
      | None => idtac
      end;
      change (lit_prefix fl p s) with r
  end.

Ltac eval_chars :=
  repeat match goal with
  | |- context [cset_mem ?fl ?cs ?b] =>
      let r := eval vm_compute in (cset_mem fl cs b) in
      match r with
      | true => idtac
      | false => idtac
      end;
      change (cset_mem fl cs b) with r
  end.

Ltac step_lit := rewrite ?rmatch_seq, rmatch_lit; eval_lit; cbv beta iota.

Ltac step_ws :=
  rewrite ?rmatch_seq, rmatch_plus; eval_chars; cbv beta iota;
  rewrite star_greedy_stop
    by first [reflexivity | by apply boundary_space_ident]; cbv beta.

(** ** Name patterns *)

Lemma comment_name kw rest :
  is_ident kw = true → name_end rest = true →
  _extract_object_name ("COMMENT ON " +:+ kw +:+ rest) COMMENT = Some kw.
Proof.
  intros Hkw Hrest. unfold _extract_object_name. cbn [name_pattern].
  apply (search_here _ _ _ ("COMMENT ON " +:+ kw) rest [(1, kw)]).
  rewrite !sapp_cons, sapp_nil_l.
  step_lit. step_ws. step_lit. step_ws.
  by apply rmatch_qualified.
Qed.

(** ** Letter case *)

Lemma to_upper_to_lower b : to_upper (to_lower b) = to_upper b.
Proof. by destruct b as [[] [] [] [] [] [] [] []]. Qed.

Lemma is_word_to_lower b : is_word (to_lower b) = is_word b.
Proof. by destruct b as [[] [] [] [] [] [] [] []]. Qed.

Lemma is_word_to_upper b : is_word (to_upper b) = is_word b.
Proof. by destruct b as [[] [] [] [] [] [] [] []]. Qed.

Lemma lit_to_upper fl a b :
  cset_mem fl (Lit a) b = true → to_upper b = to_upper a.
Proof.
  cbn [cset_mem]. destruct (IGNORECASE fl); intros H%Ascii.eqb_eq.
  - by rewrite <- (to_upper_to_lower b), <- H, to_upper_to_lower.
  - by subst.
Qed.

Lemma lit_is_word fl a b :
  cset_mem fl (Lit a) b = true → is_word a = true → is_word b = true.
Proof.
  cbn [cset_mem]. destruct (IGNORECASE fl); intros H%Ascii.eqb_eq Ha.
  - by rewrite <- is_word_to_lower, <- H, is_word_to_lower.
  - by subst.
Qed.

Lemma to_lower_to_upper b : to_lower (to_upper b) = to_lower b.
Proof. by destruct b as [[] [] [] [] [] [] [] []]. Qed.

Lemma lit_of_to_upper fl a b :
  IGNORECASE fl = true → to_upper b = to_upper a → cset_mem fl (Lit a) b = true.
Proof.
  intros Hfl H. cbn [cset_mem]. rewrite Hfl. apply Ascii.eqb_eq.
  by rewrite <- (to_lower_to_upper a), <- H, to_lower_to_upper.
Qed.

Lemma lit_prefix_upper fl p : ∀ w1 s,
  IGNORECASE fl = true → upper w1 = upper p →
  lit_prefix fl p (w1 +:+ s) = Some (w1, s).
Proof.
  induction p as [|a p IH]; intros w1 s Hfl H.
  - by destruct w1.
  - destruct w1 as [|b w1]; [done|]. simpl in H. injection H as Hb Hw.
    rewrite sapp_cons. cbn [lit_prefix].
    by rewrite (lit_of_to_upper _ _ _ Hfl Hb), IH.
Qed.

Lemma all_chars_app p u v :
  all_chars p (u +:+ v) = all_chars p u && all_chars p v.
Proof.
  induction u as [|c u IH]; [done|].
  rewrite sapp_cons. simpl. by rewrite IH, andb_assoc.
Qed.

Lemma upper_app u v : upper (u +:+ v) = upper u +:+ upper v.
Proof. induction u as [|c u IH]; [done|]. rewrite sapp_cons. simpl. by rewrite IH. Qed.

Lemma upper_length s : String.length (upper s) = String.length s.
Proof. induction s as [|c s IH]; [done|]. simpl. by rewrite IH. Qed.

Lemma sapp_length u v :
  String.length (u +:+ v) = String.length u + String.length v.
Proof. induction u as [|c u IH]; [done|]. rewrite sapp_cons. simpl. by rewrite IH. Qed.

(** ** A literal met inside a word *)

Lemma lit_prefix_word fl p : ∀ w s t r,
  all_chars is_word p = true → all_chars is_word w = true →
  boundary is_word s = true →
  lit_prefix fl p (w +:+ s) = Some (t, r) →
  ∃ w2, w = t +:+ w2 ∧ r = w2 +:+ s ∧ upper t = upper p.
Proof.
  induction p as [|a p IH]; intros w s t r Hp Hw Hs H.
  - simpl in H. injection H as <- <-. by exists w.
  - simpl in Hp. apply andb_prop in Hp as [Ha Hp].
    destruct w as [|b w].
    + rewrite sapp_nil_l in H. destruct s as [|b s]; [done|].
      cbn [lit_prefix] in H. destruct (cset_mem fl (Lit a) b) eqn:E; [|done].
      apply lit_is_word in E; [|done]. simpl in Hs. by rewrite E in Hs.
    + simpl in Hw. apply andb_prop in Hw as [Hb Hw].
      rewrite sapp_cons in H. cbn [lit_prefix] in H.
      destruct (cset_mem fl (Lit a) b) eqn:E; [|done].
      destruct (lit_prefix fl p (w +:+ s)) as [[t' r']|] eqn:E'; [|done].
      injection H as <- <-.
      destruct (IH _ _ _ _ Hp Hw Hs E') as (w2 & -> & -> & Hu).
      exists w2. split_and!; [done..|]. simpl.
      by rewrite Hu, (lit_to_upper _ _ _ E).
Qed.

Lemma rmatch_plus_boundary fl cs s c k :
  boundary (cset_mem fl cs) s = true → rmatch fl (plus cs) s c k = None.
Proof.
  destruct s as [|b s]; [done|]. rewrite rmatch_plus. simpl.
  by destruct (cset_mem fl cs b).
Qed.

Lemma boundary_space_word fl w s :
  all_chars is_word w = true → boundary is_word s = true →
  w ≠ "" ∨ boundary is_space s = true →
  boundary (cset_mem fl Space) (w +:+ s) = true.
Proof.
  intros Hw Hs H. destruct w as [|b w].
  - destruct H; [done|]. by rewrite sapp_nil_l.
  - simpl in Hw. apply andb_prop in Hw as [Hb _]. rewrite sapp_cons. simpl.
    by rewrite (is_word_not_space b).
Qed.

(** A pattern that starts with a literal word and whitespace does not match
    at a position inside a word, unless what is left of the word is the
    literal and whitespace follows. *)
Lemma lit_ws_fail fl p R w s c k :
  all_chars is_word p = true → all_chars is_word w = true →
  boundary is_word s = true →
  upper w ≠ upper p ∨ boundary is_space s = true →
  rmatch fl (lit p ⋅ \s+ ⋅ R) (w +:+ s) c k = None.
Proof.
  intros Hp Hw Hs H. rewrite rmatch_seq, rmatch_lit.
  destruct (lit_prefix fl p (w +:+ s)) as [[t r]|] eqn:E; [|done].
  destruct (lit_prefix_word _ _ _ _ _ _ Hp Hw Hs E) as (w2 & -> & -> & Hu).
  rewrite rmatch_seq. apply rmatch_plus_boundary.
  rewrite all_chars_app in Hw. apply andb_prop in Hw as [_ Hw2].
  apply boundary_space_word; [done..|].
  destruct w2 as [|b w2]; [|by left]. right.
  rewrite sapp_nil_r in H. by destruct H.
Qed.

Lemma search_group1_skip fl r b s :
  rmatch fl r (String b s) [] accept = None →
  search_group1 fl r (String b s) = search_group1 fl r s.
Proof.
  intros H. unfold search_group1. cbn [search]. rewrite H.
  by destruct (search fl r s) as [[pre [[t r'] c]]|].
Qed.

Lemma search_group1_skip_lit fl p R b s :
  lit_prefix fl p (String b s) = None →
  search_group1 fl (lit p ⋅ R) (String b s) = search_group1 fl (lit p ⋅ R) s.
Proof.
  intros H. apply search_group1_skip. by rewrite rmatch_seq, rmatch_lit, H.
Qed.

Lemma search_group1_nil_lit fl p R :
  lit_prefix fl p "" = None → search_group1 fl (lit p ⋅ R) "" = None.
Proof.
  intros H. unfold search_group1. cbn [search].
  by rewrite rmatch_seq, rmatch_lit, H.
Qed.

Lemma upper_eq_length u v : upper u = upper v → String.length u = String.length v.
Proof. intros H. by rewrite <- (upper_length u), H, upper_length. Qed.

Lemma word_tail_short p w :
  String.length w < String.length p → word_tail p w = None.
Proof.
  induction w as [|b w IH]; intros Hl; cbn [word_tail].
  - rewrite bool_decide_eq_false_2; [done|].
    intros H%upper_eq_length. lia.
  - rewrite bool_decide_eq_false_2; [apply IH; simpl in Hl; lia|].
    intros H%upper_eq_length. lia.
Qed.

(** [re.search] across a word for a pattern that starts with a literal
    word and whitespace: only the suffix of the word that equals the literal
    can start a match. *)
Lemma search_word fl p R w s :
  all_chars is_word p = true → all_chars is_word w = true →
  boundary is_word s = true →
  search_group1 fl (lit p ⋅ \s+ ⋅ R) (w +:+ s) =
  match word_tail p w with
  | Some w1 =>
      match rmatch fl (lit p ⋅ \s+ ⋅ R) (w1 +:+ s) [] accept with
      | Some (_, _, c) => Some (default "" (group 1 c))
      | None => search_group1 fl (lit p ⋅ \s+ ⋅ R) s
      end
  | None => search_group1 fl (lit p ⋅ \s+ ⋅ R) s
  end.
Proof.
  intros Hp. induction w as [|b w IH]; intros Hw Hs.
  - cbn [word_tail]. case_bool_decide as E; [|done].
    rewrite sapp_nil_l.
    destruct (rmatch _ _ s [] accept) as [[[t r] c]|] eqn:Hm; [|done].
    by rewrite (search_here _ _ _ _ _ _ Hm).
  - simpl in Hw. apply andb_prop in Hw as [Hb Hw].
    cbn [word_tail]. case_bool_decide as E.
    + destruct (rmatch _ _ (String b w +:+ s) [] accept) as [[[t r] c]|] eqn:Hm.
      * by rewrite (search_here _ _ _ _ _ _ Hm).
      * rewrite sapp_cons in *. rewrite search_group1_skip by done.
        rewrite IH by done. rewrite word_tail_short; [done|].
        apply upper_eq_length in E. simpl in E. lia.
    + rewrite sapp_cons. rewrite search_group1_skip; [by apply IH|].
      rewrite <- sapp_cons. apply lit_ws_fail; [done|by simpl; rewrite Hb|done|].
      by left.
Qed.

(** The same search when no whitespace follows the word. *)
Lemma search_word_tight fl p R w s :
  all_chars is_word p = true → all_chars is_word w = true →
  boundary is_word s = true → boundary is_space s = true →
  search_group1 fl (lit p ⋅ \s+ ⋅ R) (w +:+ s) =
  search_group1 fl (lit p ⋅ \s+ ⋅ R) s.
Proof.
  intros Hp. induction w as [|b w IH]; intros Hw Hs Hs'; [done|].
  simpl in Hw. apply andb_prop in Hw as [Hb Hw].
  rewrite sapp_cons. rewrite search_group1_skip; [by apply IH|].
  rewrite <- sapp_cons. apply lit_ws_fail; [done|by simpl; rewrite Hb|done|].
  by right.
Qed.

(** ** The lazy repetition *)

Lemma rmatch_star_lazy fl cs s c k :
  rmatch fl (Star false cs) s c k =
  star_lazy (cset_mem fl cs) s (λ t s', k t s' c).
Proof. done. Qed.

Lemma rmatch_star_greedy fl cs s c k :
  rmatch fl (Star true cs) s c k =
  star_greedy (cset_mem fl cs) s (λ t s', k t s' c).
Proof. done. Qed.

Lemma star_lazy_here p s k x : k "" s = Some x → star_lazy p s k = Some x.
Proof. intros H. destruct s; simpl; by rewrite H. Qed.

Lemma star_lazy_step p b s k :
  k "" (String b s) = None → p b = true →
  star_lazy p (String b s) k = star_lazy p s (λ t r, k (String b t) r).
Proof. intros H Hb. cbn [star_lazy]. by rewrite H, Hb. Qed.

Lemma star_lazy_end p k : k "" "" = None → star_lazy p "" k = None.
Proof. intros H. simpl. by rewrite H. Qed.

Lemma star_lazy_skip_word p w s k :
  (∀ t w2, w2 ≠ "" → all_chars is_word w2 = true → k t (w2 +:+ s) = None) →
  all_chars is_word w = true → all_chars p w = true →
  star_lazy p (w +:+ s) k = star_lazy p s (λ t r, k (w +:+ t) r).
Proof.
  revert k. induction w as [|b w IH]; intros k Hk Hw Hpw; [done|].
  simpl in Hw, Hpw. apply andb_prop in Hw as [Hb Hw].
  apply andb_prop in Hpw as [Hpb Hpw].
  rewrite sapp_cons, star_lazy_step; [|rewrite <- sapp_cons; apply Hk; [done|by simpl; rewrite Hb]|done].
  rewrite IH; [done| |done..].
  intros t w2 Hne Hw2. by apply Hk.
Qed.

Lemma all_chars_dot w : all_chars (cset_mem re_SI Dot) w = true.
Proof. by induction w. Qed.

Lemma star_greedy_all p s k x :
  all_chars p s = true → k s "" = Some x → star_greedy p s k = Some x.
Proof.
  intros Hs Hk. rewrite <- (sapp_nil_r s). apply star_greedy_app_Some; [done..|].
  done.
Qed.

(** ** The matcher returns a decomposition of its input *)

Lemma star_greedy_sound p s : ∀ k x,
  star_greedy p s k = Some x → ∃ t s', s = t +:+ s' ∧ k t s' = Some x.
Proof.
  induction s as [|b s IH]; intros k x H; cbn [star_greedy] in H.
  - by exists "", "".
  - destruct (p b); [|by exists "", (String b s)].
    destruct (star_greedy p s _) as [y|] eqn:E.
    + injection H as ->. apply IH in E as (t & s' & -> & Hk).
      by exists (String b t), s'.
    + by exists "", (String b s).
Qed.

Lemma star_lazy_sound p s : ∀ k x,
  star_lazy p s k = Some x → ∃ t s', s = t +:+ s' ∧ k t s' = Some x.
Proof.
  induction s as [|b s IH]; intros k x H; cbn [star_lazy] in H.
  - destruct (k "" "") eqn:E; [|done]. injection H as ->. by exists "", "".
  - destruct (k "" (String b s)) eqn:E.
    + injection H as ->. by exists "", (String b s).
    + destruct (p b); [|done]. apply IH in H as (t & s' & -> & Hk).
      by exists (String b t), s'.
Qed.

Lemma rmatch_sound fl r : ∀ s c k x,
  rmatch fl r s c k = Some x →
  ∃ t s' c', s = t +:+ s' ∧ k t s' c' = Some x.
Proof.
  induction r as [|cs|g cs|r1 IH1 r2 IH2|r1 IH1 r2 IH2|n r IH| |r IH];
    intros s c k x H; cbn [rmatch] in H.
  - by exists "", s, c.
  - destruct s as [|b s]; [done|]. destruct (cset_mem fl cs b); [|done].
    by exists (String b ""), s, c.
  - destruct g.
    + apply star_greedy_sound in H as (t & s' & -> & Hk). by exists t, s', c.
    + apply star_lazy_sound in H as (t & s' & -> & Hk). by exists t, s', c.
  - apply IH1 in H as (t1 & s1 & c1 & -> & H).
    apply IH2 in H as (t2 & s2 & c2 & -> & H).
    exists (t1 +:+ t2), s2, c2. by rewrite sapp_assoc.
  - destruct (rmatch fl r1 s c k) as [y|] eqn:E.
    + injection H as ->. by apply IH1 in E.
    + by apply IH2 in H.
  - apply IH in H as (t & s' & c' & -> & H). by exists t, s', ((n, t) :: c').
  - destruct (at_end s); [|done]. by exists "", s, c.
  - destruct (rmatch fl r s c accept) as [[[t0 r0] c']|]; [|done].
    by exists "", s, c'.
Qed.

(** What [re.search] returns is a cut of the text: the part skipped, the
    match, and the rest. *)
Lemma search_sound fl r s pre t rest c :
  search fl r s = Some (pre, (t, rest, c)) → s = pre +:+ t +:+ rest.
Proof.
  revert pre. induction s as [|b s IH]; intros pre H; cbn [search] in H.
  - destruct (rmatch fl r "" [] accept) as [m|] eqn:E; [|done].
    injection H as <- ->.
    apply rmatch_sound in E as (t' & s' & c' & Hs & Hk).
    by injection Hk as <- <- <-.
  - destruct (rmatch fl r (String b s) [] accept) as [m|] eqn:E.
    + injection H as <- ->.
      apply rmatch_sound in E as (t' & s' & c' & Hs & Hk).
      by injection Hk as <- <- <-.
    + destruct (search fl r s) as [[pre' m]|] eqn:E'; [|done].
      injection H as <- ->. by rewrite (IH pre' eq_refl).
Qed.

(** ** The rounds of the loops suffice *)

Lemma partition_length sep s l r :
  sep ≠ "" → partition sep s = Some (l, r) →
  String.length r < String.length s.
Proof.
  intros Hsep. revert l. induction s as [|b s IH]; intros l H; cbn [partition] in H.
  - destruct sep; [done|]. done.
  - destruct (startswith (String b s) sep) eqn:E.
    + injection H as <- <-. apply startswith_app in E as [r' E].
      rewrite E. destruct sep as [|a sep]; [done|].
      clear. cbn [String.length drop_chars String.append].
      revert r'. induction sep as [|a' sep IH]; intros r'; simpl; [lia|].
      specialize (IH r'). simpl in IH. lia.
    + destruct (partition sep s) as [[l' r']|] eqn:E'; [|done].
      injection H as <- <-. specialize (IH _ eq_refl). simpl. lia.
Qed.

(** [split] does not depend on the number of rounds, once it is at least
    the length of the text. *)
Lemma split_fuel_enough sep : sep ≠ "" → ∀ n m s,
  String.length s ≤ n → String.length s ≤ m →
  split_fuel n sep s = split_fuel m sep s.
Proof.
  intros Hsep. induction n as [|n IH]; intros m s Hn Hm.
  - destruct s; [|simpl in Hn; lia]. destruct m; [done|].
    simpl. destruct sep; [done|]. done.
  - destruct m as [|m].
    + destruct s; [|simpl in Hm; lia]. simpl. destruct sep; [done|]. done.
    + simpl. destruct (partition sep s) as [[l r]|] eqn:E; [|done].
      apply partition_length in E; [|done]. f_equal. apply IH; lia.
Qed.

Lemma finditer_fuel_enough fl r : ∀ n m s,
  String.length s < n → String.length s < m →
  finditer_fuel n fl r s = finditer_fuel m fl r s.
Proof.
  induction n as [|n IH]; intros m s Hn Hm; [lia|].
  destruct m as [|m]; [lia|]. cbn [finditer_fuel].
  destruct (search fl r s) as [[pre [[t rest] c]]|] eqn:E; [|done].
  apply search_sound in E. rewrite E, !sapp_length in Hn, Hm.
  f_equal. destruct t as [|a t]; cbn [is_empty].
  - destruct rest as [|b rest]; [done|]. simpl in Hn, Hm. apply IH; lia.
  - simpl in Hn, Hm. apply IH; lia.
Qed.

Lemma sub_group1_fuel_enough fl r : ∀ n m s,
  String.length s < n → String.length s < m →
  sub_group1_fuel n fl r s = sub_group1_fuel m fl r s.
Proof.
  induction n as [|n IH]; intros m s Hn Hm; [lia|].
  destruct m as [|m]; [lia|]. cbn [sub_group1_fuel].
  destruct (search fl r s) as [[pre [[t rest] c]]|] eqn:E; [|done].
  apply search_sound in E. rewrite E, !sapp_length in Hn, Hm.
  do 2 f_equal. destruct t as [|a t]; cbn [is_empty].
  - destruct rest as [|b rest]; [done|]. simpl in Hn, Hm. f_equal. apply IH; lia.
  - simpl in Hn, Hm. apply IH; lia.
Qed.

(** ** Stripping a statement *)

Lemma rstrip_app_nonempty u v :
  rstrip v ≠ "" → rstrip (u +:+ v) = u +:+ rstrip v.
Proof.
  intros Hv. induction u as [|c u IH]; [done|].
  rewrite !sapp_cons. cbn [rstrip]. rewrite IH.
  destruct (u +:+ rstrip v) eqn:E; [|done].
  destruct u; [|done]. by rewrite sapp_nil_l in E.
Qed.

Lemma rstrip_ident_app w v :
  is_ident w = true → rstrip (w +:+ v) = w +:+ rstrip v.
Proof.
  unfold is_ident. intros [Hne Hw]%andb_prop.
  induction w as [|c w IH]; [done|].
  simpl in Hw. apply andb_prop in Hw as [Hc Hw].
  rewrite sapp_cons. cbn [rstrip].
  rewrite (is_word_not_space c Hc), andb_false_r.
  destruct w as [|c' w]; [done|]. by rewrite IH.
Qed.

Lemma ident_nonempty w : is_ident w = true → w ≠ "".
Proof. by destruct w. Qed.

Lemma sapp_nonempty_l u v : u ≠ "" → u +:+ v ≠ "".
Proof. by destruct u. Qed.

Lemma name_end_rstrip s : name_end s = true → name_end (rstrip s) = true.
Proof.
  destruct s as [|c s]; [done|]. cbn [rstrip].
  by destruct (is_empty (rstrip s) && is_space c).
Qed.

Lemma name_end_space s : name_end (String " " s) = true.
Proof. done. Qed.

(** ** Name patterns on statements without OR REPLACE, and on COMMENT *)

Lemma name_stop_inv s :
  name_stop s = true →
  boundary is_word s = true ∧
  ∀ fl c k, rmatch fl (One (Lit ".") ⋅ \w+) s c k = None.
Proof.
  destruct s as [|b s]; [done|]. cbn [name_stop boundary].
  intros [Hw Hd]%andb_prop. split; [done|].
  intros fl c k. rewrite rmatch_seq. cbn [rmatch].
  destruct (cset_mem fl (Lit ".") b) eqn:E; [|done].
  destruct (Ascii.eqb b ".") eqn:Eb; [|by rewrite lit_dot_false in E].
  cbn [andb] in Hd. apply negb_true_iff, negb_false_iff in Hd.
  by apply rmatch_plus_boundary.
Qed.

Lemma rmatch_ident fl w rest c k x :
  is_ident w = true → boundary is_word rest = true →
  k w rest c = Some x →
  rmatch fl (\w+) (w +:+ rest) c k = Some x.
Proof.
  intros Hw Hrest Hk. unfold is_ident in Hw. destruct w as [|a w]; [done|].
  simpl in Hw. apply andb_prop in Hw as [Ha Hw].
  rewrite sapp_cons, rmatch_plus. cbn [cset_mem]. rewrite Ha.
  by apply star_greedy_app_Some.
Qed.

Lemma boundary_word_dot s : boundary is_word (String "." s) = true.
Proof. done. Qed.

Lemma rmatch_name_before fl n q rest c k x :
  name_before q rest →
  k q rest ((n, q) :: c) = Some x →
  rmatch fl (qualified n) (q +:+ rest) c k = Some x.
Proof.
  intros [[Hq Hstop]|(w1 & w2 & Hw1 & Hw2 & -> & Hrest)] Hk.
  - destruct (name_stop_inv _ Hstop) as [Hb Hdot].
    unfold qualified. rewrite rmatch_group, rmatch_seq.
    apply rmatch_ident; [done..|].
    rewrite rmatch_opt, Hdot. by rewrite sapp_nil_r.
  - unfold qualified. rewrite rmatch_group, rmatch_seq.
    rewrite !sapp_assoc.
    apply rmatch_ident; [done|done|].
    rewrite rmatch_opt, rmatch_seq. rewrite sapp_cons, sapp_nil_l.
    cbn [rmatch]. assert (cset_mem fl (Lit ".") "." = true) as ->.
    { by destruct fl as [[] ?]. }
    erewrite rmatch_ident; [reflexivity|done|done|].
    cbv beta. by rewrite sapp_cons, sapp_nil_l in Hk.
Qed.

Lemma upper_app_inv s : ∀ u v,
  upper s = u +:+ v → ∃ s1 s2, s = s1 +:+ s2 ∧ upper s1 = u ∧ upper s2 = v.
Proof.
  intros u. revert s. induction u as [|a u IH]; intros s v H.
  - by exists "", s.
  - destruct s as [|b s]; [done|]. rewrite sapp_cons in H. simpl in H.
    injection H as Hb H. apply IH in H as (s1 & s2 & -> & H1 & H2).
    exists (String b s1), s2. simpl. by rewrite Hb, H1.
Qed.

Lemma upper_space_inv s : upper s = " " → s = " ".
Proof.
  destruct s as [|b [|b' s]]; [done| |done]. simpl. intros [= H]. f_equal.
  by destruct b as [[] [] [] [] [] [] [] []].
Qed.

Lemma boundary_space_upper fl a u s t :
  upper s = String a u → is_space a = false →
  boundary (cset_mem fl Space) (s +:+ t) = true.
Proof.
  destruct s as [|b s]; [done|]. simpl. intros [= Hb _] Ha.
  by rewrite <- is_space_to_upper, Hb, Ha.
Qed.

Lemma lit_prefix_other fl a p b u s t :
  upper s = String b u → to_upper a ≠ b →
  lit_prefix fl (String a p) (s +:+ t) = None.
Proof.
  destruct s as [|c s]; [done|]. intros H Hne. simpl in H.
  injection H as Hc _. rewrite sapp_cons. cbn [lit_prefix].
  destruct (cset_mem fl (Lit a) c) eqn:E; [|done].
  apply lit_to_upper in E. congruence.
Qed.

Lemma boundary_space_name fl q rest :
  name_before q rest → boundary (cset_mem fl Space) (q +:+ rest) = true.
Proof.
  intros [[Hq _]|(w1 & w2 & Hw1 & _ & -> & _)].
  - by apply boundary_space_ident.
  - rewrite sapp_assoc. by apply boundary_space_ident.
Qed.

(** The name pattern of VIEW on a statement without OR REPLACE, the
    keywords in any letter case. *)
Lemma view_name_without_replace kw ws q rest :
  upper kw = "CREATE VIEW " → all_chars is_space ws = true →
  name_before q rest →
  _extract_object_name (kw +:+ ws +:+ q +:+ rest) VIEW = Some q.
Proof.
  intros Hkw Hws Hq. unfold _extract_object_name. cbn [name_pattern].
  apply (upper_app_inv kw "CREATE" " VIEW ") in Hkw as (k1 & kw1 & -> & Hk1 & Hkw).
  apply (upper_app_inv kw1 " " "VIEW ") in Hkw as (sp1 & kw2 & -> & ->%upper_space_inv & Hkw).
  apply (upper_app_inv kw2 "VIEW" " ") in Hkw as (k2 & sp2 & -> & Hk2 & ->%upper_space_inv).
  rewrite !sapp_assoc.
  eapply search_here_group.
  - rewrite rmatch_seq, rmatch_lit, lit_prefix_upper by done. cbv beta iota.
    rewrite sapp_cons, sapp_nil_l, rmatch_seq, rmatch_plus.
    change (cset_mem re_I Space " ") with true. cbv iota.
    rewrite star_greedy_stop by (by eapply boundary_space_upper). cbv beta.
    rewrite rmatch_seq, rmatch_opt.
    rewrite rmatch_seq, rmatch_lit, (lit_prefix_other _ _ _ _ _ _ _ Hk2) by done.
    rewrite rmatch_seq, rmatch_lit, lit_prefix_upper by done. cbv beta iota.
    rewrite sapp_cons, sapp_nil_l, rmatch_seq, rmatch_plus.
    change (cset_mem re_I Space " ") with true. cbv iota.
    erewrite star_greedy_app_Some;
      [reflexivity|done|by apply boundary_space_name|].
    cbv beta. by apply rmatch_name_before.
  - reflexivity.
Qed.

Lemma name_stop_rstrip s : name_stop s = true → name_stop (rstrip s) = true.
Proof.
  destruct s as [|c s]; [done|]. cbn [rstrip name_stop].
  intros [Hc Hd]%andb_prop.
  destruct (is_empty (rstrip s) && is_space c) eqn:E; [done|].
  cbn [name_stop]. rewrite Hc. cbn [andb]. apply negb_true_iff.
  apply negb_true_iff in Hd. destruct (Ascii.eqb c "."); [|done].
  cbn [andb] in *. apply negb_false_iff in Hd. apply negb_false_iff.
  destruct s as [|d s]; [done|]. cbn [rstrip].
  by destruct (is_empty (rstrip s) && is_space d).
Qed.

Lemma boundary_rstrip p s : boundary p s = true → boundary p (rstrip s) = true.
Proof.
  destruct s as [|c s]; [done|]. cbn [rstrip].
  by destruct (is_empty (rstrip s) && is_space c).
Qed.

Lemma name_before_rstrip q rest :
  name_before q rest →
  name_before q (rstrip rest) ∧ rstrip (q +:+ rest) = q +:+ rstrip rest.
Proof.
  intros [[Hq Hs]|(w1 & w2 & Hw1 & Hw2 & -> & Hb)].
  - split; [left; split; [done|by apply name_stop_rstrip]|].
    by apply rstrip_ident_app.
  - split.
    + right. exists w1, w2. split_and!; [done..|by apply boundary_rstrip].
    + rewrite !sapp_assoc, rstrip_ident_app by done.
      rewrite (rstrip_app_nonempty "."); rewrite rstrip_ident_app by done;
        [done|]. by apply sapp_nonempty_l, ident_nonempty.
Qed.

Lemma name_before_nonempty q rest : name_before q rest → q ≠ "".
Proof.
  intros [[Hq _]|(w1 & w2 & Hw1 & _ & -> & _)].
  - by apply ident_nonempty.
  - by apply sapp_nonempty_l, ident_nonempty.
Qed.

Lemma lstrip_upper a u s :
  upper s = String a u → is_space a = false → lstrip s = s.
Proof.
  destruct s as [|b s]; [done|]. simpl. intros [= Hb _] Ha.
  by rewrite <- is_space_to_upper, Hb, Ha.
Qed.

Lemma strip_create_view kw ws q rest :
  upper kw = "CREATE VIEW " → name_before q rest →
  strip (kw +:+ ws +:+ q +:+ rest) = kw +:+ ws +:+ q +:+ rstrip rest.
Proof.
  intros Hkw Hq. unfold strip.
  destruct (name_before_rstrip _ _ Hq) as [_ Hr].
  assert (rstrip (q +:+ rest) ≠ "") as Hne.
  { rewrite Hr. by eapply sapp_nonempty_l, name_before_nonempty. }
  assert (lstrip (kw +:+ ws +:+ q +:+ rest) = kw +:+ ws +:+ q +:+ rest) as ->.
  { destruct kw as [|b kw]; [done|]. simpl in Hkw. injection Hkw as Hb _.
    rewrite sapp_cons. cbn [lstrip].
    by rewrite <- is_space_to_upper, Hb. }
  assert (rstrip (ws +:+ q +:+ rest) = ws +:+ rstrip (q +:+ rest)) as Hws
    by (by apply rstrip_app_nonempty).
  rewrite rstrip_app_nonempty; rewrite Hws; [by rewrite Hr|].
  destruct ws; [done|by rewrite sapp_cons].
Qed.

Lemma parse_comment self kw rest :
  is_ident kw = true →
  ∃ o,
    _parse_statement self ("COMMENT ON " +:+ kw +:+ " " +:+ rest) =
      Some {| objects := objects self ++ [o];
              current_line :=
                current_line self +
                (count_char newline
                   (strip ("COMMENT ON " +:+ kw +:+ " " +:+ rest)) + 1) |} ∧
    name o = kw ∧ type o = COMMENT.
Proof.
  intros Hkw. unfold _parse_statement.
  assert (strip ("COMMENT ON " +:+ kw +:+ " " +:+ rest) =
          "COMMENT ON " +:+ kw +:+ rstrip (" " +:+ rest)) as Hs.
  { unfold strip. change (lstrip ("COMMENT ON " +:+ kw +:+ " " +:+ rest))
      with ("COMMENT ON " +:+ kw +:+ " " +:+ rest).
    rewrite rstrip_app_nonempty; rewrite rstrip_ident_app by done; [done|].
    by apply sapp_nonempty_l, ident_nonempty. }
  rewrite Hs. set (r := rstrip (" " +:+ rest)).
  assert (name_end r = true) as Hr by apply name_end_rstrip, name_end_space.
  change (is_empty ("COMMENT ON " +:+ kw +:+ r)) with false. cbv iota.
  change (_get_object_type ("COMMENT ON " +:+ kw +:+ r)) with (Some COMMENT).
  cbv iota. rewrite comment_name by done.
  destruct kw as [|c kw]; [done|]. cbn [is_empty]. cbv iota.
  eexists. split; [reflexivity|]. done.
Qed.

Lemma span_word_spec s :
  s = (span_word s).1 +:+ (span_word s).2 ∧
  all_chars is_word (span_word s).1 = true ∧
  boundary is_word (span_word s).2 = true.
Proof.
  induction s as [|c s (IH1 & IH2 & IH3)]; [done|]. cbn [span_word].
  destruct (is_word c) eqn:Hc.
  - destruct (span_word s) as [w r]. simpl in *. rewrite Hc.
    split_and!; [by rewrite IH1 at 1|done..].
  - simpl. by rewrite Hc.
Qed.

(** A text that starts with a word character starts with a qualified
    name. *)
Lemma name_before_total c s :
  is_word c = true → ∃ q rest, String c s = q +:+ rest ∧ name_before q rest.
Proof.
  intros Hc. destruct (span_word_spec (String c s)) as (H1 & H2 & H3).
  destruct (span_word (String c s)) as [w r] eqn:E. simpl in *.
  assert (is_ident w = true) as Hw.
  { unfold is_ident. rewrite H2, andb_true_r.
    cbn [span_word] in E. rewrite Hc in E.
    destruct (span_word s). by injection E as <- _. }
  destruct (name_stop r) eqn:Hstop.
  - exists w, r. split; [done|]. by left.
  - destruct r as [|d r]; [done|]. cbn [name_stop boundary] in Hstop, H3.
    rewrite H3 in Hstop. cbn [andb] in Hstop.
    apply negb_false_iff, andb_prop in Hstop as [Hd%Ascii.eqb_eq Hr]. subst d.
    apply negb_true_iff in Hr.
    destruct r as [|e r]; [done|]. simpl in Hr. apply negb_false_iff in Hr.
    destruct (span_word_spec (String e r)) as (G1 & G2 & G3).
    destruct (span_word (String e r)) as [w2 r2] eqn:E2. simpl in *.
    exists (w +:+ "." +:+ w2), r2. split.
    + rewrite H1, G1. by rewrite !sapp_assoc.
    + right. exists w, w2. split_and!; [done| |done..].
      unfold is_ident. rewrite G2, andb_true_r.
      cbn [span_word] in E2. rewrite Hr in E2.
      destruct (span_word r). by injection E2 as <- _.
Qed.

(** ** Claims on CREATE VIEW and on COMMENT *)

(** C9. A statement that begins, letter case apart, with [CREATE VIEW ] is
    given no type by [_get_object_type] and [_parse_statement] emits no
    object for it; yet the name pattern of VIEW, in which OR REPLACE is
    optional, matches the stripped statement: it yields the qualified name
    [q] that follows the keywords and whitespace, in whatever letter case
    the keywords are, and it yields a name whenever a word character
    follows them. *)
Theorem create_view_not_classified (statement : string) :
  startswith (upper statement) "CREATE VIEW " = true →
  _get_object_type (strip statement) = None ∧
  (∀ self, ∃ self', _parse_statement self statement = Some self' ∧
                    objects self' = objects self) ∧
  (∀ kw ws q rest,
     statement = kw +:+ ws +:+ q +:+ rest →
     upper kw = "CREATE VIEW " → all_chars is_space ws = true →
     name_before q rest →
     _extract_object_name (strip statement) VIEW = Some q) ∧
  (∀ kw ws c tail,
     statement = kw +:+ ws +:+ String c tail →
     upper kw = "CREATE VIEW " → all_chars is_space ws = true →
     is_word c = true →
     ∃ q, _extract_object_name (strip statement) VIEW = Some q ∧ q ≠ "").
Proof.
  intros H.
  assert (_get_object_type (strip statement) = None) as Hnone.
  { apply startswith_app in H as [r0 Hr0].
    destruct (upper_strip_prefix "CREATE VIEW" statement) as [r Hr];
      [done| |done| |].
    { intros a P' [= <- <-]. done. }
    { by rewrite Hr0. }
    unfold _get_object_type. rewrite Hr. reflexivity. }
  assert (∀ kw ws q rest,
     upper kw = "CREATE VIEW " → all_chars is_space ws = true →
     name_before q rest →
     _extract_object_name (strip (kw +:+ ws +:+ q +:+ rest)) VIEW = Some q)
    as Hname.
  { intros kw ws q rest Hkw Hws Hq. rewrite strip_create_view by done.
    apply view_name_without_replace; [done..|]. by apply name_before_rstrip. }
  split_and!; [done|by intros self; apply parse_statement_unclassified| |].
  - intros kw ws q rest -> Hkw Hws Hq. by apply Hname.
  - intros kw ws c tail -> Hkw Hws Hc.
    destruct (name_before_total c tail Hc) as (q & rest & -> & Hq).
    exists q. split; [by apply Hname|by eapply name_before_nonempty].
Qed.

Lemma create_view_not_classified_witness :
  _get_object_type (strip "create view s.v AS SELECT 1") = None ∧
  (∀ self, ∃ self',
     _parse_statement self "create view s.v AS SELECT 1" = Some self' ∧
     objects self' = objects self) ∧
  (∀ kw ws q rest,
     "create view s.v AS SELECT 1" = kw +:+ ws +:+ q +:+ rest →
     upper kw = "CREATE VIEW " → all_chars is_space ws = true →
     name_before q rest →
     _extract_object_name (strip "create view s.v AS SELECT 1") VIEW = Some q) ∧
  (∀ kw ws c tail,
     "create view s.v AS SELECT 1" = kw +:+ ws +:+ String c tail →
     upper kw = "CREATE VIEW " → all_chars is_space ws = true →
     is_word c = true →
     ∃ q, _extract_object_name (strip "create view s.v AS SELECT 1") VIEW
            = Some q ∧ q ≠ "").
Proof.
  apply (create_view_not_classified "create view s.v AS SELECT 1"). reflexivity.
Defined.

(** The name pattern does yield the names of such statements. *)
Lemma create_view_name_example :
  _extract_object_name (strip "CREATE VIEW v AS SELECT 1") VIEW = Some "v" ∧
  _extract_object_name (strip "create view v as select 1") VIEW = Some "v" ∧
  _extract_object_name (strip "CREATE VIEW s.v AS SELECT 1") VIEW = Some "s.v" ∧
  _extract_object_name (strip "Create View  db.s.v AS SELECT 1") VIEW
    = Some "db.s".
Proof. split_and!; reflexivity. Qed.

(** C10. A statement [COMMENT ON kw ...], [kw] being the word after ON,
    yields an object of type COMMENT whose name is [kw]. Two such
    statements on the same [kw] yield two objects of that one name, and
    whatever the other side is, the comparison has exactly one result for
    [kw], computed from the later of the two: this holds on the source side
    and on the Docker side. *)
Theorem comment_named_by_object_class
    (ratio : string → string → Q)
    (unified_diff : list string → list string → list string)
    (kw rest1 rest2 : string) :
  is_ident kw = true →
  ∃ o1 o2,
    extract ["COMMENT ON " +:+ kw +:+ " " +:+ rest1;
             "COMMENT ON " +:+ kw +:+ " " +:+ rest2] = Some [o1; o2] ∧
    name o1 = kw ∧ type o1 = COMMENT ∧ name o2 = kw ∧ type o2 = COMMENT ∧
    ∀ other,
      (∃ rs r,
         compare_files ratio unified_diff [o1; o2] other = Some rs ∧
         filter (λ r', object_name r' = kw) rs = [r] ∧
         compare_name ratio unified_diff kw (Some o2) (lookup_of other !! kw)
           = Some r) ∧
      (∃ rs r,
         compare_files ratio unified_diff other [o1; o2] = Some rs ∧
         filter (λ r', object_name r' = kw) rs = [r] ∧
         compare_name ratio unified_diff kw (lookup_of other !! kw) (Some o2)
           = Some r).
Proof.
  intros Hkw.
  destruct (parse_comment SQLParser_init kw rest1 Hkw) as (o1 & Hp1 & Hn1 & Ht1).
  set (self1 := {| objects := objects SQLParser_init ++ [o1];
                   current_line := current_line SQLParser_init +
                     (count_char newline
                        (strip ("COMMENT ON " +:+ kw +:+ " " +:+ rest1)) + 1) |}) in *.
  destruct (parse_comment self1 kw rest2 Hkw) as (o2 & Hp2 & Hn2 & Ht2).
  exists o1, o2. split_and!; [|done..|].
  { unfold extract. cbn [parse_statements]. rewrite Hp1, Hp2. done. }
  intros other.
  assert (lookup_of [o1; o2] !! kw = Some o2) as Hlast.
  { rewrite <- Hn2 at 1. apply (lookup_of_last [o1] o2 []).
    intros o H. by apply elem_of_nil in H. }
  assert (kw ∈ name <$> [o1; o2]) as Hin.
  { rewrite <- Hn1. simpl. by left. }
  split.
  - destruct (compare_files_result_for ratio unified_diff [o1; o2] other kw)
      as (rs & r & Hrs & Hf & Hr); [by left|].
    rewrite Hlast in Hr. by exists rs, r.
  - destruct (compare_files_result_for ratio unified_diff other [o1; o2] kw)
      as (rs & r & Hrs & Hf & Hr); [by right|].
    rewrite Hlast in Hr. by exists rs, r.
Qed.

Lemma comment_named_by_object_class_witness :
  ∃ o1 o2,
    extract ["COMMENT ON " +:+ "TABLE" +:+ " " +:+ "s.t IS 'x'";
             "COMMENT ON " +:+ "TABLE" +:+ " " +:+ "s.u IS 'y'"] = Some [o1; o2] ∧
    name o1 = "TABLE" ∧ type o1 = COMMENT ∧
    name o2 = "TABLE" ∧ type o2 = COMMENT ∧
    ∀ other,
      (∃ rs r,
         compare_files ratio_equal diff_none [o1; o2] other = Some rs ∧
         filter (λ r', object_name r' = "TABLE") rs = [r] ∧
         compare_name ratio_equal diff_none "TABLE" (Some o2)
           (lookup_of other !! "TABLE") = Some r) ∧
      (∃ rs r,
         compare_files ratio_equal diff_none other [o1; o2] = Some rs ∧
         filter (λ r', object_name r' = "TABLE") rs = [r] ∧
         compare_name ratio_equal diff_none "TABLE"
           (lookup_of other !! "TABLE") (Some o2) = Some r).
Proof.
  apply (comment_named_by_object_class ratio_equal diff_none
           "TABLE" "s.t IS 'x'" "s.u IS 'y'").
  reflexivity.
Defined.

(** ** Strings without separators *)

Lemma all_chars_impl (p q : ascii → bool) s :
  (∀ c, p c = true → q c = true) → all_chars p s = true → all_chars q s = true.
Proof.
  intros Hpq. induction s as [|c s IH]; [done|]. simpl.
  intros [Hc Hs]%andb_prop. by rewrite (Hpq c Hc), IH.
Qed.

Lemma solid_app u v : solid v → solid (u +:+ v).
Proof.
  intros [Hv Hne]. split.
  - rewrite rstrip_app_nonempty; by rewrite Hv.
  - destruct u; [done|]. by rewrite sapp_cons.
Qed.

Lemma lstrip_ident_app w v : is_ident w = true → lstrip (w +:+ v) = w +:+ v.
Proof.
  unfold is_ident. destruct w as [|c w]; [done|]. simpl.
  intros [Hc _]%andb_prop. by rewrite sapp_cons, (is_word_not_space c Hc).
Qed.

Lemma strip_ident w : is_ident w = true → strip w = w.
Proof.
  intros Hw. unfold strip. rewrite <- (sapp_nil_r w) at 1.
  rewrite lstrip_ident_app, rstrip_ident_app by done. by rewrite sapp_nil_r.
Qed.

Lemma strip_space_ident w : is_ident w = true → strip (" " +:+ w) = w.
Proof.
  intros Hw. unfold strip. change (lstrip (" " +:+ w)) with (lstrip w).
  by apply strip_ident.
Qed.

Lemma is_word_neq c d : is_word c = true → is_word d = false → Ascii.eqb d c = false.
Proof. intros Hc Hd. apply Ascii.eqb_neq. by intros ->; congruence. Qed.

Lemma startswith_word_false u d p :
  is_word d = false → all_chars is_word u = true →
  startswith u (String d p) = false.
Proof.
  intros Hd. destruct u as [|c u]; [done|]. simpl.
  intros [Hc _]%andb_prop. by rewrite (is_word_neq c d).
Qed.

Lemma contains_word_false u d p :
  is_word d = false → all_chars is_word u = true →
  contains u (String d p) = false.
Proof.
  intros Hd. induction u as [|c u IH]; intros Hu; [done|].
  cbn [contains]. rewrite startswith_word_false by done.
  simpl in Hu. apply andb_prop in Hu as [_ Hu]. by apply IH.
Qed.

Lemma all_word_upper w : all_chars is_word (upper w) = all_chars is_word w.
Proof.
  induction w as [|c w IH]; [done|]. simpl. by rewrite is_word_to_upper, IH.
Qed.

Lemma startswith_nil s : startswith s "" = true.
Proof. by destruct s. Qed.

Lemma partition_word_none u d :
  is_word d = false → all_chars is_word u = true →
  partition (String d "") u = None.
Proof.
  intros Hd. induction u as [|c u IH]; intros Hu; [done|].
  cbn [partition]. rewrite startswith_word_false by done.
  simpl in Hu. apply andb_prop in Hu as [_ Hu]. by rewrite IH.
Qed.

Lemma partition_word_app u d v :
  is_word d = false → all_chars is_word u = true →
  partition (String d "") (u +:+ String d v) = Some (u, v).
Proof.
  intros Hd. induction u as [|c u IH]; intros Hu.
  - rewrite sapp_nil_l. cbn [partition startswith].
    by rewrite Ascii.eqb_refl, startswith_nil.
  - rewrite sapp_cons. cbn [partition].
    simpl in Hu. apply andb_prop in Hu as [Hc Hu].
    cbn [startswith]. rewrite (is_word_neq c d) by done. cbn [andb].
    by rewrite IH.
Qed.

Lemma split_fuel_none n sep s : partition sep s = None → split_fuel n sep s = [s].
Proof. intros H. destruct n; [done|]. simpl. by rewrite H. Qed.

Lemma split_word d w :
  is_word d = false → all_chars is_word w = true → split (String d "") w = [w].
Proof. intros Hd Hw. apply split_fuel_none. by apply partition_word_none. Qed.

(** The two items of the SELECT list. *)
Lemma split_two_columns a b :
  is_ident a = true → is_ident b = true →
  split "," (a +:+ ", " +:+ b) = [a; " " +:+ b].
Proof.
  unfold is_ident. intros [_ Ha]%andb_prop [_ Hb]%andb_prop.
  unfold split. rewrite !sapp_cons, sapp_nil_l, sapp_length.
  cbn [String.length]. rewrite Nat.add_succ_r. cbn [split_fuel].
  rewrite partition_word_app by done.
  change (String " " b) with (" " +:+ b). f_equal.
  apply split_fuel_none. rewrite sapp_cons, sapp_nil_l. cbn [partition].
  change (startswith (String " " b) ",") with false. cbv iota.
  by rewrite partition_word_none.
Qed.

(** ** The function-call pattern on an identifier *)

Lemma star_greedy_none (q p : ascii → bool) s k :
  (∀ t s', all_chars q s' = true → k t s' = None) →
  all_chars q s = true → star_greedy p s k = None.
Proof.
  revert k. induction s as [|b s IH]; intros k Hk Hs; cbn [star_greedy].
  - by apply Hk.
  - rewrite (Hk "" (String b s)) by done.
    rewrite IH; [by destruct (p b)| |].
    + intros t s' Hs'. by apply Hk.
    + simpl in Hs. by apply andb_prop in Hs as [_ Hs].
Qed.

Lemma search_none (q : ascii → bool) fl r s :
  (∀ s', all_chars q s' = true → rmatch fl r s' [] accept = None) →
  all_chars q s = true → search fl r s = None.
Proof.
  intros Hr. induction s as [|b s IH]; intros Hs; cbn [search].
  - by rewrite Hr.
  - rewrite Hr by done. simpl in Hs. apply andb_prop in Hs as [_ Hs].
    by rewrite IH.
Qed.

Lemma call_pattern_word w :
  all_chars is_word w = true → sub_group1 re_0 call_pattern w = w.
Proof.
  intros Hw. unfold sub_group1. cbn [sub_group1_fuel].
  rewrite (search_none is_word); [done| |done].
  intros s' Hs'. unfold call_pattern.
  rewrite rmatch_seq, rmatch_star_greedy.
  apply (star_greedy_none is_word); [|done].
  intros t s'' Hs''. rewrite rmatch_seq. cbn [rmatch].
  destruct s'' as [|c s'']; [done|].
  simpl in Hs''. apply andb_prop in Hs'' as [Hc _].
  cbn [cset_mem re_0 IGNORECASE]. by rewrite (is_word_neq c "(").
Qed.

(** ** One item of the SELECT list that is an identifier *)

Lemma upper_ident_not_star w : is_ident w = true → upper w ≠ "*".
Proof.
  unfold is_ident. destruct w as [|c w]; [done|]. simpl.
  intros [Hc _]%andb_prop [= H _].
  rewrite <- is_word_to_upper, H in Hc. done.
Qed.

Lemma column_of_stripped w item :
  is_ident w = true → upper w ≠ "DISTINCT" → strip item = w →
  column_of_item item = Some w.
Proof.
  intros Hw Hd Hs. unfold column_of_item. rewrite Hs.
  pose proof Hw as [Hne Hall]%andb_prop.
  rewrite contains_word_false by (by rewrite ?all_word_upper).
  rewrite strip_ident, call_pattern_word by done.
  rewrite split_word by done. cbn [last default from_option id].
  rewrite Hne. cbn [andb].
  rewrite bool_decide_eq_false_2; [done|].
  intros [H|[H|H]%elem_of_cons]%elem_of_cons.
  - by apply upper_ident_not_star in H.
  - done.
  - by apply elem_of_nil in H.
Qed.

(** ** Words that end or start with a keyword *)

Lemma word_tail_Some p w w1 : word_tail p w = Some w1 → upper w1 = upper p.
Proof.
  induction w as [|b w IH]; cbn [word_tail]; case_bool_decide as E;
    intros H; simplify_eq; auto.
Qed.

Lemma endswith_ci_word_tail w p : endswith_ci w p = false → word_tail p w = None.
Proof.
  induction w as [|b w IH]; cbn [endswith_ci word_tail];
    intros [H1 H2]%orb_false_elim; rewrite H1; auto.
Qed.

Lemma startswith_app_refl p r : startswith (p +:+ r) p = true.
Proof.
  induction p as [|a p IH]; [by destruct r|].
  rewrite sapp_cons. simpl. by rewrite Ascii.eqb_refl, IH.
Qed.

Lemma lit_prefix_not_start fl p w s :
  all_chars is_word p = true → all_chars is_word w = true →
  boundary is_word s = true →
  startswith (upper w) (upper p) = false →
  lit_prefix fl p (w +:+ s) = None.
Proof.
  intros Hp Hw Hs H.
  destruct (lit_prefix fl p (w +:+ s)) as [[t r]|] eqn:E; [|done].
  destruct (lit_prefix_word _ _ _ _ _ _ Hp Hw Hs E) as (w2 & -> & _ & Hu).
  by rewrite upper_app, Hu, startswith_app_refl in H.
Qed.

Lemma ident_all_word w : is_ident w = true → all_chars is_word w = true.
Proof. by intros [_ H]%andb_prop. Qed.

Lemma ws_fails_in_word fl R w2 s c k :
  w2 ≠ "" → all_chars is_word w2 = true →
  rmatch fl (\s+ ⋅ R) (w2 +:+ s) c k = None.
Proof.
  intros Hne Hw. rewrite rmatch_seq. apply rmatch_plus_boundary.
  destruct w2 as [|b w2]; [done|]. simpl in Hw. apply andb_prop in Hw as [Hb _].
  rewrite sapp_cons. simpl. by rewrite (is_word_not_space b).
Qed.

Ltac skip_lits := repeat (rewrite search_group1_skip_lit by reflexivity).

Ltac word_side :=
  first [ reflexivity | by apply ident_all_word | by apply boundary_space_ident
        | done ].

(** ** Qualified names in a text *)

Lemma upper_not_word u d v p :
  is_word d = false → all_chars is_word p = true →
  upper (u +:+ String d v) ≠ upper p.
Proof.
  intros Hd Hp H.
  assert (all_chars is_word (upper (u +:+ String d v)) = true) as Hall
    by (by rewrite H, all_word_upper).
  rewrite all_word_upper, all_chars_app in Hall. simpl in Hall.
  rewrite Hd in Hall. by rewrite andb_false_r in Hall.
Qed.

Lemma word_tail_after u d v p :
  is_word d = false → all_chars is_word p = true →
  word_tail p (u +:+ String d v) = word_tail p v.
Proof.
  intros Hd Hp. induction u as [|c u IH].
  - rewrite sapp_nil_l. cbn [word_tail].
    rewrite bool_decide_eq_false_2; [done|].
    by apply (upper_not_word "").
  - rewrite sapp_cons. cbn [word_tail].
    rewrite bool_decide_eq_false_2; [done|].
    by apply (upper_not_word (String c u)).
Qed.

Lemma lit_prefix_not_word fl a p d s :
  is_word a = true → is_word d = false →
  lit_prefix fl (String a p) (String d s) = None.
Proof.
  intros Ha Hd. cbn [lit_prefix].
  destruct (cset_mem fl (Lit a) d) eqn:E; [|done].
  apply lit_is_word in E; [|done]. congruence.
Qed.

(** [re.search] across a qualified name for a pattern that starts with a
    literal word and whitespace: as across a word, the dot starting no
    match. *)
Lemma search_qualified fl p R t s :
  p ≠ "" → all_chars is_word p = true → qualified_name t →
  boundary is_word s = true →
  search_group1 fl (lit p ⋅ \s+ ⋅ R) (t +:+ s) =
  match word_tail p t with
  | Some w1 =>
      match rmatch fl (lit p ⋅ \s+ ⋅ R) (w1 +:+ s) [] accept with
      | Some (_, _, c) => Some (default "" (group 1 c))
      | None => search_group1 fl (lit p ⋅ \s+ ⋅ R) s
      end
  | None => search_group1 fl (lit p ⋅ \s+ ⋅ R) s
  end.
Proof.
  intros Hne Hp (w & Hw & [-> | (w2 & Hw2 & ->)]) Hs.
  - apply search_word; [done|by apply ident_all_word|done].
  - change ("." +:+ w2) with (String "." w2).
    rewrite word_tail_after by done. rewrite sapp_assoc, sapp_cons.
    rewrite search_word_tight; [|done|by apply ident_all_word|done..].
    destruct p as [|a p]; [done|]. simpl in Hp. apply andb_prop in Hp as [Ha Hp].
    rewrite search_group1_skip_lit by (by apply lit_prefix_not_word).
    apply search_word; [by simpl; rewrite Ha|by apply ident_all_word|done].
Qed.

Lemma qualified_solid t :
  qualified_name t → all_chars (λ c, negb (is_space c)) t = true.
Proof.
  assert (∀ w, is_ident w = true → all_chars (λ c, negb (is_space c)) w = true)
    as Hid.
  { intros w Hw. apply (all_chars_impl is_word); [|by apply ident_all_word].
    intros c Hc. by rewrite (is_word_not_space c). }
  intros (w & Hw & [-> | (w2 & Hw2 & ->)]); [by apply Hid|].
  rewrite !all_chars_app, (Hid w), (Hid w2) by done. reflexivity.
Qed.

Lemma qualified_nonempty t : qualified_name t → t ≠ "".
Proof.
  intros (w & Hw & [-> | (w2 & Hw2 & ->)]).
  - by apply ident_nonempty.
  - by apply sapp_nonempty_l, ident_nonempty.
Qed.

Lemma boundary_space_qualified fl t s :
  qualified_name t → boundary (cset_mem fl Space) (t +:+ s) = true.
Proof.
  intros (w & Hw & [-> | (w2 & Hw2 & ->)]).
  - by apply boundary_space_ident.
  - rewrite sapp_assoc. by apply boundary_space_ident.
Qed.

Lemma name_before_qualified q c rest :
  qualified_name q → is_word c = false → Ascii.eqb c "." = false →
  name_before q (String c rest).
Proof.
  intros (w & Hw & [-> | (w2 & Hw2 & ->)]) Hc Hd.
  - left. split; [done|]. cbn [name_stop]. by rewrite Hc, Hd.
  - right. exists w, w2. split_and!; [done..|]. simpl. by rewrite Hc.
Qed.

(** The lazy repetition runs over a text without whitespace when what
    follows it in the pattern starts with whitespace. *)
Lemma star_lazy_skip_solid p w s k :
  (∀ t c r, is_space c = false → k t (String c r) = None) →
  all_chars (λ c, negb (is_space c)) w = true → all_chars p w = true →
  star_lazy p (w +:+ s) k = star_lazy p s (λ t r, k (w +:+ t) r).
Proof.
  revert k. induction w as [|b w IH]; intros k Hk Hw Hpw; [done|].
  simpl in Hw, Hpw. apply andb_prop in Hw as [Hb Hw].
  apply andb_prop in Hpw as [Hpb Hpw]. apply negb_true_iff in Hb.
  rewrite sapp_cons, star_lazy_step; [|by apply Hk|done].
  rewrite IH; [done| |done..].
  intros t c r Hc. by apply Hk.
Qed.

Lemma ws_fails_at_solid fl R b s c k :
  is_space b = false → rmatch fl (\s+ ⋅ R) (String b s) c k = None.
Proof.
  intros Hb. rewrite rmatch_seq. apply rmatch_plus_boundary. simpl.
  by rewrite Hb.
Qed.

Ltac name_side :=
  first [ word_side | by apply boundary_space_qualified ].

(** ** The clauses of the defining query *)

Section ViewQuery.

Variables a b t : string.
Hypothesis Ha : is_ident a = true.
Hypothesis Hb : is_ident b = true.
Hypothesis Ht : qualified_name t.

(** The text after the first AS of the statement: the query, with the AS
    of the statement before it when the name of the view ends with AS. *)
Variable body : string.
Hypothesis Hbody : body = select_text a b t ∨ body = "AS " +:+ select_text a b t.

Lemma where_of_body :
  endswith_ci b "WHERE" = false → endswith_ci t "WHERE" = false →
  _extract_where_clause body = Some "x=1".
Proof.
  intros Hbw%endswith_ci_word_tail Htw%endswith_ci_word_tail.
  unfold _extract_where_clause, where_pattern.
  assert (search_group1 re_SI
            (lit "WHERE" ⋅ \s+ ⋅ Group 1 (Star false Dot) ⋅
             ((\s+ ⋅ lit "GROUP" ⋅ \s+ ⋅ lit "BY") ∣
              (\s+ ⋅ lit "ORDER" ⋅ \s+ ⋅ lit "BY") ∣ Eos))
            (select_text a b t) = Some "x=1") as Hsel.
  { unfold select_text. rewrite !sapp_cons, !sapp_nil_l. skip_lits.
    rewrite search_word_tight by word_side. skip_lits.
    rewrite search_word by word_side. rewrite Hbw. skip_lits.
    rewrite search_qualified by word_side. rewrite Htw. skip_lits.
    reflexivity. }
  destruct Hbody as [-> | ->]; [by rewrite Hsel|].
  rewrite !sapp_cons, !sapp_nil_l. skip_lits. by rewrite Hsel.
Qed.

Lemma select_clause_of_query :
  startswith (upper b) "FROM" = false →
  search_group1 re_SI select_pattern (select_text a b t) =
    Some (a +:+ ", " +:+ b).
Proof.
  intros Hfrom. unfold select_pattern, select_text.
  rewrite !sapp_cons, !sapp_nil_l.
  eapply search_here_group.
  - step_lit. step_ws.
    rewrite rmatch_seq, rmatch_group, rmatch_star_lazy.
    rewrite star_lazy_skip_word;
      [|by intros; apply ws_fails_in_word|by apply ident_all_word
       |by apply all_chars_dot].
    rewrite star_lazy_step;
      [|rewrite rmatch_seq, rmatch_plus; eval_chars; reflexivity|reflexivity].
    rewrite star_lazy_step; [| |reflexivity].
    2:{ rewrite rmatch_seq, rmatch_plus. eval_chars. cbv iota.
        rewrite star_greedy_stop by word_side.
        rewrite rmatch_lit, lit_prefix_not_start; [done|word_side..|done]. }
    rewrite star_lazy_skip_word;
      [|by intros; apply ws_fails_in_word|by apply ident_all_word
       |by apply all_chars_dot].
    apply star_lazy_here. step_ws. rewrite rmatch_lit. eval_lit. cbv beta iota.
    reflexivity.
  - cbn. by rewrite !sapp_nil_r.
Qed.

Lemma columns_of_body :
  upper a ≠ "DISTINCT" → upper b ≠ "DISTINCT" →
  startswith (upper b) "FROM" = false →
  _extract_columns body = [a; b].
Proof.
  intros Had Hbd Hfrom. unfold _extract_columns.
  assert (search_group1 re_SI select_pattern body = Some (a +:+ ", " +:+ b)) as ->.
  { destruct Hbody as [-> | ->]; [by apply select_clause_of_query|].
    unfold select_pattern. rewrite !sapp_cons, !sapp_nil_l. skip_lits.
    by apply select_clause_of_query. }
  rewrite split_two_columns by done. cbn [omap list_omap].
  rewrite (column_of_stripped a a), (column_of_stripped b (" " +:+ b));
    [done|done..|by apply strip_space_ident|done|done|by apply strip_ident].
Qed.

Lemma with_after_table :
  search_group1 re_SI with_pattern (" FROM " +:+ t +:+ " WHERE x=1") = None.
Proof.
  unfold with_pattern. rewrite !sapp_cons, !sapp_nil_l. skip_lits.
  rewrite search_qualified by word_side.
  destruct (word_tail "WITH" t) as [w1|] eqn:E; [|reflexivity].
  apply word_tail_Some in E.
  rewrite rmatch_seq, rmatch_lit, lit_prefix_upper by done.
  reflexivity.
Qed.

(** At the end of [b], when [b] ends with WITH: the CTE pattern matches
    only if [t] starts with SELECT, and then its group is [FROM]. *)
Lemma with_at_column w1 :
  upper w1 = "WITH" →
  rmatch re_SI with_pattern (w1 +:+ " FROM " +:+ t +:+ " WHERE x=1") [] accept
    = None ∨
  ∃ t0 r0,
    rmatch re_SI with_pattern (w1 +:+ " FROM " +:+ t +:+ " WHERE x=1") [] accept
      = Some (t0, r0, [(1, "FROM")]).
Proof.
  intros E. unfold with_pattern.
  rewrite rmatch_seq, rmatch_lit, lit_prefix_upper by done. cbv beta iota.
  rewrite !sapp_cons, !sapp_nil_l. step_ws.
  rewrite rmatch_seq, rmatch_group, rmatch_star_lazy.
  do 4 (rewrite star_lazy_step;
    [|rewrite rmatch_seq, rmatch_plus; eval_chars; reflexivity|reflexivity]).
  destruct (lit_prefix re_SI "SELECT" (t +:+ " WHERE x=1")) as [[t1 r1]|] eqn:Hsel.
  - right. do 2 eexists. apply star_lazy_here.
    rewrite rmatch_seq, rmatch_plus. eval_chars. cbv iota.
    rewrite star_greedy_stop by name_side. cbv beta.
    rewrite rmatch_lit, Hsel. reflexivity.
  - left. rewrite star_lazy_step; [| |reflexivity].
    2:{ rewrite rmatch_seq, rmatch_plus. eval_chars. cbv iota.
        rewrite star_greedy_stop by name_side. cbv beta.
        by rewrite rmatch_lit, Hsel. }
    rewrite star_lazy_skip_solid;
      [|by intros; apply ws_fails_at_solid|by apply qualified_solid
       |by apply all_chars_dot].
    reflexivity.
Qed.

Lemma with_of_query :
  search_group1 re_SI with_pattern (select_text a b t) = None ∨
  search_group1 re_SI with_pattern (select_text a b t) = Some "FROM".
Proof.
  pose proof with_after_table as Hafter.
  unfold with_pattern, select_text in *.
  rewrite !sapp_cons, !sapp_nil_l in *. skip_lits.
  rewrite search_word_tight by word_side. skip_lits.
  rewrite search_word by word_side.
  destruct (word_tail "WITH" b) as [w1|] eqn:E; [|by left].
  apply word_tail_Some in E.
  destruct (with_at_column w1 E) as [Hm|(t0 & r0 & Hm)];
    unfold with_pattern in Hm; rewrite !sapp_cons, !sapp_nil_l in Hm;
    rewrite Hm; [by left|by right].
Qed.

Lemma ctes_of_body : _extract_ctes body = Some [].
Proof.
  unfold _extract_ctes.
  assert (search_group1 re_SI with_pattern body =
          search_group1 re_SI with_pattern (select_text a b t)) as ->.
  { destruct Hbody as [-> | ->]; [done|].
    unfold with_pattern. rewrite !sapp_cons, !sapp_nil_l. by skip_lits. }
  by destruct with_of_query as [-> | ->].
Qed.

End ViewQuery.

(** ** The statement of a view *)

Lemma solid_select_text a b t : solid (select_text a b t).
Proof. unfold select_text. do 6 apply solid_app. by split. Qed.

Lemma strip_view_statement n a b t :
  strip (view_statement n a b t) = view_statement n a b t.
Proof.
  unfold strip.
  change (lstrip (view_statement n a b t)) with (view_statement n a b t).
  unfold view_statement. do 3 apply solid_app. apply solid_select_text.
Qed.

Lemma view_name n a b t :
  qualified_name n →
  _extract_object_name (view_statement n a b t) VIEW = Some n.
Proof.
  intros Hn. unfold _extract_object_name. cbn [name_pattern].
  apply (search_here _ _ _ ("CREATE OR REPLACE VIEW " +:+ n)
           (" AS " +:+ select_text a b t) [(1, n)]).
  unfold view_statement. rewrite !sapp_cons, !sapp_nil_l.
  step_lit. step_ws. rewrite rmatch_seq, rmatch_opt.
  step_lit. step_ws. step_lit. step_ws. step_lit.
  rewrite ?rmatch_seq, rmatch_plus; eval_chars; cbv beta iota.
  rewrite star_greedy_stop by name_side. cbv beta.
  erewrite rmatch_name_before;
    [reflexivity|by apply name_before_qualified|reflexivity].
Qed.

(** The text after the first AS of the statement. *)
Lemma view_body n a b t :
  qualified_name n →
  ∃ body,
    search_group1 re_SI as_pattern (view_statement n a b t) = Some body ∧
    strip body = body ∧
    (body = select_text a b t ∨ body = "AS " +:+ select_text a b t).
Proof.
  intros Hn. unfold as_pattern, view_statement.
  rewrite !sapp_cons, !sapp_nil_l. skip_lits.
  rewrite search_qualified by word_side.
  destruct (word_tail "AS" n) as [w1|] eqn:E.
  - apply word_tail_Some in E. exists ("AS " +:+ select_text a b t).
    split_and!; [| |by right].
    + rewrite rmatch_seq, rmatch_lit, lit_prefix_upper by done. cbv beta iota.
      step_ws. rewrite rmatch_group, rmatch_star_greedy.
      erewrite star_greedy_all; [|apply all_chars_dot|reflexivity].
      reflexivity.
    + unfold strip.
      change (lstrip ("AS " +:+ select_text a b t))
        with ("AS " +:+ select_text a b t).
      by apply solid_app, solid_select_text.
  - exists (select_text a b t). split_and!; [| |by left].
    + skip_lits. eapply search_here_group.
      * step_lit. step_ws. rewrite rmatch_group, rmatch_star_greedy.
        apply star_greedy_all; [apply all_chars_dot|reflexivity].
      * reflexivity.
    + unfold strip.
      change (lstrip (select_text a b t)) with (select_text a b t).
      by apply solid_select_text.
Qed.

(** ** Claim on the extraction of a view *)

(** C1, as amended. For a statement [CREATE OR REPLACE VIEW n AS SELECT a,
    b FROM t WHERE x=1] in which the name [n] and the table [t] are
    identifiers or schema-qualified identifiers, the columns [a] and [b] are
    identifiers, neither column is the word DISTINCT, [b] does not start
    with FROM, and neither [b] nor [t] ends with WHERE (letter case apart
    throughout), the extractor emits exactly one object; its type is VIEW,
    its name is [n], its columns are [a; b] and its WHERE clause is
    [x=1]. *)
Theorem view_extraction (self : SQLParser) (n a b t : string) :
  qualified_name n → is_ident a = true → is_ident b = true →
  qualified_name t →
  upper a ≠ "DISTINCT" → upper b ≠ "DISTINCT" →
  startswith (upper b) "FROM" = false →
  endswith_ci b "WHERE" = false → endswith_ci t "WHERE" = false →
  ∃ self' o,
    _parse_statement self (view_statement n a b t) = Some self' ∧
    objects self' = objects self ++ [o] ∧
    type o = VIEW ∧ name o = n ∧ columns o = [a; b] ∧
    where_clause o = Some "x=1".
Proof.
  intros Hn Ha Hb Ht Had Hbd Hfrom Hbw Htw.
  unfold _parse_statement. rewrite strip_view_statement.
  change (is_empty (view_statement n a b t)) with false. cbv iota.
  change (_get_object_type (view_statement n a b t)) with (Some VIEW).
  cbv iota. rewrite view_name by done.
  assert (is_empty n = false) as ->.
  { apply qualified_nonempty in Hn. by destruct n. }
  cbv iota. cbn [build_object]. unfold _parse_view_or_mv.
  destruct (view_body n a b t) as (body & -> & -> & Hbody); [done|].
  rewrite (ctes_of_body a b t) by done.
  do 2 eexists. split; [reflexivity|]. cbn.
  split_and!; [done..| |].
  - by apply (columns_of_body a b t).
  - by apply (where_of_body a b t).
Qed.

Lemma view_extraction_witness :
  ∃ self' o,
    _parse_statement SQLParser_init (view_statement "s.v" "a" "b" "s.t")
      = Some self' ∧
    objects self' = objects SQLParser_init ++ [o] ∧
    type o = VIEW ∧ name o = "s.v" ∧ columns o = ["a"; "b"] ∧
    where_clause o = Some "x=1".
Proof.
  apply (view_extraction SQLParser_init "s.v" "a" "b" "s.t");
    first [ reflexivity | discriminate
          | by exists "s"; split; [|right; exists "v"]
          | by exists "s"; split; [|right; exists "t"] ].
Defined.

(** C1 fails as stated for some identifiers: a second column [from_date] is
    lost, the SELECT list being cut at the first whitespace followed by
    FROM; a table [elsewhere] and a second column [nowhere] put a keyword
    into the WHERE clause, the clause being taken from the first WHERE
    followed by whitespace; and a column [distinct] is dropped. *)
Lemma view_extraction_counterexample :
  view_statement "v" "a" "from_date" "t" =
    "CREATE OR REPLACE VIEW v AS SELECT a, from_date FROM t WHERE x=1" ∧
  (∃ o, extract [view_statement "v" "a" "from_date" "t"] = Some [o] ∧
        columns o = ["a"] ∧ where_clause o = Some "x=1") ∧
  (∃ o, extract [view_statement "v" "a" "b" "elsewhere"] = Some [o] ∧
        columns o = ["a"; "b"] ∧ where_clause o = Some "WHERE x=1") ∧
  (∃ o, extract [view_statement "v" "a" "nowhere" "t"] = Some [o] ∧
        columns o = ["a"; "nowhere"] ∧
        where_clause o = Some "FROM t WHERE x=1") ∧
  (∃ o, extract [view_statement "v" "distinct" "b" "t"] = Some [o] ∧
        columns o = ["b"] ∧ where_clause o = Some "x=1").
Proof.
  split; [reflexivity|].
  split_and!; eexists; (split; [reflexivity|]); by split.
Qed.

(** A view and a table with their schemas. *)
Lemma view_extraction_qualified_example :
  ∃ o,
    extract ["CREATE OR REPLACE VIEW claims.v_x AS SELECT a, b FROM claims.t WHERE x=1"]
      = Some [o] ∧
    type o = VIEW ∧ name o = "claims.v_x" ∧ columns o = ["a"; "b"] ∧
    where_clause o = Some "x=1".
Proof. eexists. split; [reflexivity|]. by split_and!. Qed.

(** * Further properties *)

(** ** The column pass *)

Lemma sapp_inj_l p a b : p +:+ a = p +:+ b → a = b.
Proof.
  induction p as [|c p IH]; [by rewrite !sapp_nil_l|].
  rewrite !sapp_cons. intros [= H]. by apply IH.
Qed.

Lemma nonempty_true (X : gset string) : nonempty X = true ↔ X ≠ ∅.
Proof. unfold nonempty. by rewrite bool_decide_eq_true. Qed.

Lemma if_nonempty_elem {A} (X : gset string) (f : string → A) (x : A) :
  x ∈ (if nonempty X then f <$> elements X else []) ↔ ∃ c, x = f c ∧ c ∈ X.
Proof.
  destruct (nonempty X) eqn:E.
  - rewrite list_elem_of_fmap. by setoid_rewrite elem_of_elements.
  - apply nonempty_false in E as ->. split; [by intros ?%elem_of_nil|].
    intros (c & _ & Hc). by apply not_elem_of_empty in Hc.
Qed.

Lemma if_nonempty_NoDup (X : gset string) (p : string) :
  NoDup (if nonempty X then (λ c, p +:+ c) <$> elements X else []).
Proof.
  destruct (nonempty X); [|constructor].
  apply NoDup_fmap_2; [|apply NoDup_elements].
  intros a b. apply sapp_inj_l.
Qed.

Lemma if_nonempty_length {A} (X : gset string) (f : string → A) :
  length (if nonempty X then f <$> elements X else []) = size X.
Proof.
  destruct (nonempty X) eqn:E.
  - by rewrite length_fmap.
  - apply nonempty_false in E as ->. by rewrite size_empty.
Qed.

(** X1. The missing entries of the column pass are, each once, the texts
    [Missing column: c] for the columns [c] of the source list that the
    Docker list does not have, and the extra entries are the texts
    [Extra column: c] for the columns of the Docker list that the source
    list does not have; there are as many entries as such columns. *)
Theorem columns_missing_extra (source_cols docker_cols : list string) :
  let f := _compare_columns source_cols docker_cols in
  (∀ x, x ∈ found_missing f ↔
        ∃ col, x = "Missing column: " +:+ col ∧
               col ∈ source_cols ∧ col ∉ docker_cols) ∧
  (∀ x, x ∈ found_extra f ↔
        ∃ col, x = "Extra column: " +:+ col ∧
               col ∈ docker_cols ∧ col ∉ source_cols) ∧
  NoDup (found_missing f) ∧ NoDup (found_extra f) ∧
  length (found_missing f) =
    size ((list_to_set source_cols : gset string) ∖ list_to_set docker_cols) ∧
  length (found_extra f) =
    size ((list_to_set docker_cols : gset string) ∖ list_to_set source_cols).
Proof.
  unfold _compare_columns. cbn [found_missing found_extra].
  split_and!.
  - intros x. rewrite if_nonempty_elem.
    by setoid_rewrite elem_of_difference; setoid_rewrite elem_of_list_to_set.
  - intros x. rewrite if_nonempty_elem.
    by setoid_rewrite elem_of_difference; setoid_rewrite elem_of_list_to_set.
  - apply if_nonempty_NoDup.
  - apply if_nonempty_NoDup.
  - apply if_nonempty_length.
  - apply if_nonempty_length.
Qed.

Lemma columns_pass_nil (source_cols docker_cols : list string) :
  found_differences (_compare_columns source_cols docker_cols) = [] ↔
  source_cols = docker_cols.
Proof.
  split; [|intros ->; apply compare_columns_same].
  unfold _compare_columns. cbn [found_differences].
  destruct (nonempty (list_to_set source_cols ∖ list_to_set docker_cols)); [done|].
  destruct (nonempty (list_to_set docker_cols ∖ list_to_set source_cols)); [done|].
  simpl. case_bool_decide as H; [done|]. intros _.
  by destruct (decide (source_cols = docker_cols)).
Qed.

(** X2. The column pass of the comparison has three outcomes. Equal lists: no
    difference. Different lists over the same set of names (another order,
    or a name repeated): the single difference [Column order differs] and
    no missing or extra entry. Different sets: at least one difference and
    one missing or extra entry, and never [Column order differs]. *)
Theorem columns_pass_cases (source_cols docker_cols : list string) :
  let f := _compare_columns source_cols docker_cols in
  let same_set :=
    (list_to_set source_cols : gset string) = list_to_set docker_cols in
  (source_cols = docker_cols ∧ found_differences f = []) ∨
  (source_cols ≠ docker_cols ∧ same_set ∧
   f = {| found_differences := ["Column order differs"];
          found_missing := []; found_extra := [] |}) ∨
  (¬ same_set ∧ found_differences f ≠ [] ∧
   ("Column order differs" ∉ found_differences f) ∧
   (found_missing f ≠ [] ∨ found_extra f ≠ [])).
Proof.
  intros f same_set. subst f same_set.
  destruct (decide (source_cols = docker_cols)) as [->|Hne].
  { left. split; [done|]. apply compare_columns_same. }
  right.
  destruct (decide ((list_to_set source_cols : gset string) =
                    list_to_set docker_cols)) as [Hs|Hs].
  { left. split; [done|]. split; [done|].
    unfold _compare_columns. rewrite Hs, difference_diag_L.
    assert (nonempty ∅ = false) as -> by by apply nonempty_false.
    by rewrite bool_decide_eq_true_2 by done. }
  right. split; [done|].
  unfold _compare_columns. cbn [found_differences found_missing found_extra].
  assert (nonempty (list_to_set source_cols ∖ list_to_set docker_cols) = true ∨
          nonempty (list_to_set docker_cols ∖ list_to_set source_cols) = true)
    as Hcase.
  { destruct (nonempty (list_to_set source_cols ∖ list_to_set docker_cols)) eqn:E1;
      [by left|].
    destruct (nonempty (list_to_set docker_cols ∖ list_to_set source_cols)) eqn:E2;
      [by right|].
    apply nonempty_false in E1, E2. destruct Hs. by apply difference_both_empty. }
  assert (∀ X : gset string, nonempty X = true → elements X ≠ []) as Hel.
  { intros X HX E. apply nonempty_true in HX. apply HX.
    by apply elements_empty_inv in E as ->%leibniz_equiv. }
  split_and!.
  - destruct Hcase as [-> | ->]; [done|].
    by destruct (nonempty (list_to_set source_cols ∖ list_to_set docker_cols)).
  - intros Hin.
    destruct (nonempty (list_to_set source_cols ∖ list_to_set docker_cols)) eqn:E1;
      destruct (nonempty (list_to_set docker_cols ∖ list_to_set source_cols)) eqn:E2;
      rewrite ?andb_false_r in Hin; simpl in Hin;
      repeat (apply elem_of_cons in Hin as [Hin|Hin]; [by rewrite sapp_cons in Hin|]);
      try (by apply elem_of_nil in Hin).
    by destruct Hcase.
  - destruct Hcase as [E|E]; rewrite E; [left|right];
      intros H%fmap_nil_inv; by eapply Hel.
Qed.

(** ** What a MATCH is *)

Lemma set_pass_nil (X Y : gset string) (x y : list string) :
  x ≠ [] → y ≠ [] →
  (if nonempty (X ∖ Y) then x else []) ++ (if nonempty (Y ∖ X) then y else []) = [] ↔
  X = Y.
Proof.
  intros Hx Hy. rewrite app_if_nil_iff by done.
  by rewrite !nonempty_false, difference_both_empty.
Qed.

Lemma joins_pass_nil source_joins docker_joins :
  found_differences (_compare_joins source_joins docker_joins) = [] ↔
  (list_to_set (join_str <$> source_joins) : gset string) =
    list_to_set (join_str <$> docker_joins).
Proof. unfold _compare_joins. cbn [found_differences]. by apply set_pass_nil. Qed.

Lemma comments_pass_nil source_comments docker_comments :
  found_differences (_compare_comments source_comments docker_comments) = [] ↔
  (list_to_set source_comments : gset string) = list_to_set docker_comments.
Proof. unfold _compare_comments. cbn [found_differences]. by apply set_pass_nil. Qed.

Lemma clauses_pass_nil a b t :
  found_differences (_compare_clauses a b t) = [] ↔ a = b.
Proof.
  unfold _compare_clauses. cbn [found_differences].
  case_bool_decide as H.
  - split; [|done]. by destruct a, b.
  - split; [|done]. intros _. by destruct (decide (a = b)).
Qed.

Lemma functions_pass_nil o1 o2 :
  found_differences (_compare_functions o1 o2) = [] ↔
  parameters o1 = parameters o2 ∧ return_type o1 = return_type o2.
Proof.
  unfold _compare_functions. cbn [found_differences].
  rewrite app_if_nil_iff by done. rewrite !bool_decide_eq_false.
  split; intros [H1 H2].
  - split; [by destruct (decide (parameters o1 = parameters o2))|
            by destruct (decide (return_type o1 = return_type o2))].
  - split; intros H; by apply H.
Qed.

Lemma cte_definition_differs_nil s d n cs cd :
  first_cte n s = Some cs → first_cte n d = Some cd →
  cte_definition_differs s d n = [] ↔ cte_definition cs = cte_definition cd.
Proof.
  intros Hs Hd. unfold cte_definition_differs. rewrite Hs, Hd.
  case_bool_decide as H; split; try done.
Qed.

Lemma first_cte_Some n l c : first_cte n l = Some c → n ∈ cte_names l.
Proof.
  unfold cte_names. induction l as [|c' l IH]; [done|]. simpl.
  case_bool_decide as E.
  - intros _. rewrite <- E. apply elem_of_union_l. by apply elem_of_singleton.
  - intros H. apply elem_of_union_r. by apply IH.
Qed.

Lemma concat_fmap_nil {A B} (f : A → list B) (l : list A) :
  concat (f <$> l) = [] ↔ ∀ x, x ∈ l → f x = [].
Proof.
  induction l as [|a l IH]; simpl.
  - split; [|done]. by intros _ x ?%elem_of_nil.
  - rewrite app_nil, IH. split.
    + intros [Ha Hl] x [->|Hx]%elem_of_cons; auto.
    + intros H. split; [apply H; by left|]. intros x Hx. apply H. by right.
Qed.

Lemma ctes_pass_nil source_ctes docker_ctes :
  found_differences (_compare_ctes source_ctes docker_ctes) = [] ↔
  ctes_agree source_ctes docker_ctes.
Proof.
  unfold _compare_ctes, ctes_agree. cbn [found_differences].
  rewrite app_assoc, app_nil, set_pass_nil by done.
  rewrite concat_fmap_nil.
  split; intros [Hn H]; (split; [done|]).
  - intros n cs cd Hs Hd.
    eapply cte_definition_differs_nil; [done..|].
    apply H, elem_of_elements, elem_of_intersection.
    split; by eapply first_cte_Some.
  - intros n [Hs Hd]%elem_of_elements%elem_of_intersection.
    destruct (first_cte_is_Some _ _ Hs) as [cs Hcs].
    destruct (first_cte_is_Some _ _ Hd) as [cd Hcd].
    rewrite cte_definition_differs_nil by done. by eapply H.
Qed.

Section Match.

Variable ratio : string → string → Q.
Variable unified_diff : list string → list string → list string.

Lemma status_match_nil o1 o2 :
  status (_compare_objects ratio unified_diff o1 o2) = "MATCH" ↔
  object_differences o1 o2 = [].
Proof.
  unfold _compare_objects. cbn [status].
  case_bool_decide as H; by split.
Qed.

Lemma object_differences_nil o1 o2 :
  object_differences o1 o2 = [] ↔ same_for_comparison o1 o2.
Proof.
  unfold object_differences, same_for_comparison.
  rewrite !app_nil.
  rewrite columns_pass_nil, ctes_pass_nil, joins_pass_nil, !clauses_pass_nil,
    comments_pass_nil.
  assert ((if bool_decide (type o1 ≠ type o2)
           then ["Type mismatch: source=" +:+ type_value (type o1) +:+
                 ", docker=" +:+ type_value (type o2)] else []) = [] ↔
          type o1 = type o2) as ->.
  { case_bool_decide as H; split; done. }
  assert ((if bool_decide (type o1 = FUNCTION)
           then found_differences (_compare_functions o1 o2) else []) = [] ↔
          (type o1 = FUNCTION →
           parameters o1 = parameters o2 ∧ return_type o1 = return_type o2)) as ->.
  { case_bool_decide as H; [rewrite functions_pass_nil|]; split; auto; done. }
  tauto.
Qed.

End Match.

(** X3. [_compare_objects] gives the status MATCH exactly when the two objects
    have the same type, the same list of columns, the same set of CTE names
    with equal definitions for the first entry of every name, the same set of
    join texts, equal WHERE, GROUP BY and ORDER BY clauses and the same set
    of comments, and, for a function, equal parameters and return type.
    Neither the definition text nor the line numbers take part. *)
Theorem match_iff
    (ratio : string → string → Q)
    (unified_diff : list string → list string → list string)
    (source_obj docker_obj : SQLObject) :
  status (_compare_objects ratio unified_diff source_obj docker_obj) = "MATCH" ↔
  same_for_comparison source_obj docker_obj.
Proof. by rewrite status_match_nil, object_differences_nil. Qed.

(** ** Bounds of the completeness *)

Lemma size_intersection_le_l (X Y : gset string) : size (X ∩ Y) ≤ size X.
Proof. apply subseteq_size, intersection_subseteq_l. Qed.

Lemma clause_matches_le c d : clause_matches c d ≤ if truthy c then 1 else 0.
Proof. unfold clause_matches. destruct (truthy c); simpl; [case_bool_decide|]; lia. Qed.

Lemma matching_le_total o1 o2 :
  matching_components o1 o2 ≤ total_components o1.
Proof.
  unfold matching_components, total_components, cte_names.
  pose proof (size_intersection_le_l (list_to_set (columns o1))
                (list_to_set (columns o2))) as H1.
  pose proof (size_intersection_le_l (list_to_set (cte_name <$> ctes o1))
                (list_to_set (cte_name <$> ctes o2))) as H2.
  pose proof (size_intersection_le_l (list_to_set (join_key <$> joins o1))
                (list_to_set (join_key <$> joins o2))) as H3.
  pose proof (size_list_to_set_le (columns o1)) as L1.
  pose proof (size_list_to_set_le (cte_name <$> ctes o1)) as L2.
  pose proof (size_list_to_set_le (join_key <$> joins o1)) as L3.
  rewrite length_fmap in L2. rewrite length_fmap in L3.
  pose proof (clause_matches_le (where_clause o1) (where_clause o2)) as C1.
  pose proof (clause_matches_le (group_by o1) (group_by o2)) as C2.
  pose proof (clause_matches_le (order_by o1) (order_by o2)) as C3.
  rewrite !filter_cons, filter_nil.
  destruct (truthy (where_clause o1)), (truthy (group_by o1)),
    (truthy (order_by o1)); simpl; lia.
Qed.

Lemma pct_bounds (m t : nat) :
  t ≠ 0 → m ≤ t → (0 <= Qnat m / Qnat t * 100 ∧ Qnat m / Qnat t * 100 <= 100)%Q.
Proof.
  intros Ht Hm.
  assert (0 < Qnat t)%Q as Hpos by (unfold Qnat, Qlt; simpl; lia).
  assert (0 <= Qnat m)%Q as Hm0 by (unfold Qnat, Qle; simpl; lia).
  assert (Qnat m <= Qnat t)%Q as Hle by (unfold Qnat, Qle; simpl; lia).
  assert (0 <= Qnat m / Qnat t)%Q as H0.
  { apply Qle_shift_div_l; [done|]. by rewrite Qmult_0_l. }
  assert (Qnat m / Qnat t <= 1)%Q as H1.
  { apply Qle_shift_div_r; [done|]. by rewrite Qmult_1_l. }
  split.
  - apply Qmult_le_0_compat; [done|]. by unfold Qle.
  - apply (Qle_trans _ (1 * 100)%Q); [|by unfold Qle].
    apply Qmult_le_compat_r; [done|]. by unfold Qle.
Qed.

(** X4. The completeness that [_calculate_completeness] returns lies between 0
    and 100, and it is 100 when the source object has no component to
    count. *)
Theorem completeness_bounds (source_obj docker_obj : SQLObject) :
  (0 <= _calculate_completeness source_obj docker_obj)%Q ∧
  (_calculate_completeness source_obj docker_obj <= 100)%Q ∧
  (total_components source_obj = 0 →
   _calculate_completeness source_obj docker_obj = 100%Q).
Proof.
  unfold _calculate_completeness.
  destruct (Nat.eqb_spec (total_components source_obj) 0) as [E|E].
  - split_and!; [by unfold Qle|by unfold Qle|done].
  - destruct (pct_bounds (matching_components source_obj docker_obj)
                (total_components source_obj) E (matching_le_total _ _)).
    split_and!; done.
Qed.

(** ** The results of [compare_files] *)

Lemma dom_lookup_of objs : dom (lookup_of objs) = names objs.
Proof.
  unfold names.
  induction objs as [|o objs IH] using rev_ind; [apply dom_empty_L|].
  rewrite lookup_of_snoc, dom_insert_L, IH, fmap_app, list_to_set_app_L.
  simpl. rewrite union_empty_r_L. apply union_comm_L.
Qed.

Lemma lookup_of_is_Some objs n : is_Some (lookup_of objs !! n) ↔ n ∈ names objs.
Proof. by rewrite <- dom_lookup_of, elem_of_dom. Qed.

Lemma lookup_of_is_None objs n : lookup_of objs !! n = None ↔ n ∉ names objs.
Proof. by rewrite <- dom_lookup_of, not_elem_of_dom. Qed.

Section Results.

Variable ratio : string → string → Q.
Variable unified_diff : list string → list string → list string.

Lemma compare_objects_paired so do :
  let r := _compare_objects ratio unified_diff so do in
  ((status r = "MATCH" ∧ differences r = []) ∨
   (status r = "DIFFERENT" ∧ differences r ≠ [])) ∧
  (0 <= completeness_percentage r)%Q ∧ (completeness_percentage r <= 100)%Q.
Proof.
  unfold _compare_objects.
  cbn [status differences completeness_percentage].
  split; [case_bool_decide; auto|].
  unfold _calculate_completeness.
  destruct (Nat.eqb_spec (total_components so) 0) as [E|E].
  - by unfold Qle.
  - apply pct_bounds; [done|apply matching_le_total].
Qed.

Lemma compare_name_case src dkr r :
  compare_name ratio unified_diff (object_name r)
    (lookup_of src !! object_name r) (lookup_of dkr !! object_name r) = Some r →
  result_case src dkr r.
Proof.
  unfold compare_name, result_case, missing_result, extra_result, paired_result.
  destruct (lookup_of src !! object_name r) as [so|] eqn:Hs;
    destruct (lookup_of dkr !! object_name r) as [do|] eqn:Hd;
    intros H; [| | |done].
  - right; right.
    injection H as H.
    assert (is_Some (lookup_of src !! object_name r)) as Hs' by by rewrite Hs.
    assert (is_Some (lookup_of dkr !! object_name r)) as Hd' by by rewrite Hd.
    apply lookup_of_is_Some in Hs', Hd'.
    split; [done|]. split; [done|]. rewrite <- H at 1 2 3 4 5 6.
    apply compare_objects_paired.
  - left. injection H as H.
    assert (is_Some (lookup_of src !! object_name r)) as Hs' by by rewrite Hs.
    apply lookup_of_is_Some in Hs'. apply lookup_of_is_None in Hd.
    split; [done|]. split; [done|]. by rewrite <- H.
  - right; left. injection H as H.
    assert (is_Some (lookup_of dkr !! object_name r)) as Hd' by by rewrite Hd.
    apply lookup_of_is_Some in Hd'. apply lookup_of_is_None in Hs.
    split; [done|]. split; [done|]. by rewrite <- H.
Qed.

Lemma compare_files_cases src dkr :
  ∃ rs,
    compare_files ratio unified_diff src dkr = Some rs ∧
    object_name <$> rs = elements (names src ∪ names dkr) ∧
    Forall (result_case src dkr) rs.
Proof.
  destruct (compare_files_results ratio unified_diff src dkr) as (rs & H & Hn & Hr).
  exists rs. split; [done|]. rewrite !dom_lookup_of in Hn. split; [done|].
  apply Forall_forall. intros r Hin. by apply compare_name_case, Hr.
Qed.

End Results.

(** X5. [compare_files] never raises: it returns one result for every name
    that occurs on either side, and no name twice. *)
Theorem compare_files_one_result_per_name
    (ratio : string → string → Q)
    (unified_diff : list string → list string → list string)
    (source_objects docker_objects : list SQLObject) :
  ∃ rs,
    compare_files ratio unified_diff source_objects docker_objects = Some rs ∧
    NoDup (object_name <$> rs) ∧
    (∀ n, n ∈ object_name <$> rs ↔
          n ∈ name <$> source_objects ∨ n ∈ name <$> docker_objects) ∧
    length rs = size (names source_objects ∪ names docker_objects).
Proof.
  destruct (compare_files_cases ratio unified_diff source_objects docker_objects)
    as (rs & H & Hn & _).
  exists rs. split; [done|]. rewrite Hn. split_and!.
  - apply NoDup_elements.
  - intros n. unfold names.
    by rewrite elem_of_elements, elem_of_union, !elem_of_list_to_set.
  - by rewrite <- (length_fmap object_name), Hn.
Qed.

(** X6. Every result of [compare_files] is of one of three kinds. The name is
    on the source side only: MISSING, both percentages 0, one difference, no
    components and no diff. The name is on the Docker side only: EXTRA, with
    the same values. The name is on both sides: MATCH with no difference or
    DIFFERENT with at least one, and a completeness between 0 and 100. *)
Theorem compare_files_result_cases
    (ratio : string → string → Q)
    (unified_diff : list string → list string → list string)
    (source_objects docker_objects : list SQLObject) :
  ∃ rs,
    compare_files ratio unified_diff source_objects docker_objects = Some rs ∧
    Forall (result_case source_objects docker_objects) rs.
Proof.
  destruct (compare_files_cases ratio unified_diff source_objects docker_objects)
    as (rs & H & _ & Hc).
  by exists rs.
Qed.

(** ** The order of the objects *)

Lemma lookup_of_NoDup objs n o :
  NoDup (name <$> objs) →
  lookup_of objs !! n = Some o ↔ o ∈ objs ∧ name o = n.
Proof.
  induction objs as [|o' objs IH] using rev_ind.
  - intros _. unfold lookup_of. simpl. rewrite lookup_empty.
    split; [done|]. by intros [?%elem_of_nil _].
  - rewrite fmap_app. simpl. intros [Hnd [Hout _]]%NoDup_app.
    rewrite lookup_of_snoc, elem_of_app, list_elem_of_singleton.
    destruct (decide (name o' = n)) as [<-|Hne].
    + rewrite lookup_insert_eq. split.
      * intros [= <-]. auto.
      * intros [[Hin | ->] Hn]; [|done].
        destruct (Hout (name o')); [|by left].
        rewrite <- Hn. apply list_elem_of_fmap. eauto.
    + rewrite lookup_insert_ne by done. rewrite IH by done.
      split; [intros [? ?]; auto|]. intros [[Hin | ->] Hn]; [done|]. by destruct Hne.
Qed.

Lemma lookup_of_Permutation objs objs' :
  NoDup (name <$> objs) → objs ≡ₚ objs' → lookup_of objs = lookup_of objs'.
Proof.
  intros Hnd Hp.
  assert (NoDup (name <$> objs')) as Hnd' by by rewrite <- Hp.
  apply map_eq. intros n. apply option_eq. intros o.
  rewrite !lookup_of_NoDup by done. by rewrite Hp.
Qed.

(** X7. When no name occurs twice on a side, the order of the objects on that
    side does not matter: for any rearrangement of the two sides
    [compare_files] returns the same results, up to the order in which the
    set of names is iterated. *)
Theorem compare_files_order_irrelevant
    (ratio : string → string → Q)
    (unified_diff : list string → list string → list string)
    (source_objects source_objects' docker_objects docker_objects'
      : list SQLObject) :
  NoDup (name <$> source_objects) → NoDup (name <$> docker_objects) →
  source_objects ≡ₚ source_objects' → docker_objects ≡ₚ docker_objects' →
  ∃ rs rs',
    compare_files ratio unified_diff source_objects docker_objects = Some rs ∧
    compare_files ratio unified_diff source_objects' docker_objects' = Some rs' ∧
    rs ≡ₚ rs'.
Proof.
  intros Hs Hd Ps Pd.
  destruct (compare_files_results ratio unified_diff source_objects docker_objects)
    as (rs & H & _).
  exists rs, rs. split; [done|]. split; [|done].
  rewrite <- H. unfold compare_files.
  by rewrite (lookup_of_Permutation _ _ Hs Ps), (lookup_of_Permutation _ _ Hd Pd).
Qed.

(** X7 at an example. *)
Lemma compare_files_order_irrelevant_witness :
  ∃ rs rs',
    compare_files ratio_equal diff_none example_tu example_t = Some rs ∧
    compare_files ratio_equal diff_none (reverse example_tu) example_t = Some rs' ∧
    rs ≡ₚ rs'.
Proof.
  apply compare_files_order_irrelevant.
  - apply (bool_decide_unpack _). by vm_compute.
  - apply (bool_decide_unpack _). by vm_compute.
  - symmetry. apply reverse_Permutation.
  - reflexivity.
Defined.

(** ** The statistics of the reports *)

Lemma filter_Forall_iff {A} (P Q : A → Prop)
    `{∀ x, Decision (P x)} `{∀ x, Decision (Q x)} (l : list A) :
  Forall (λ x, P x ↔ Q x) l → filter P l = filter Q l.
Proof.
  induction 1 as [|x l Hx Hl IH]; [done|].
  rewrite !filter_cons, IH.
  destruct (decide (P x)), (decide (Q x)); tauto.
Qed.

Lemma length_filter_fmap {A B} (f : A → B) (Q : B → Prop)
    `{∀ y, Decision (Q y)} (l : list A) :
  length (filter (λ x, Q (f x)) l) = length (filter Q (f <$> l)).
Proof.
  induction l as [|x l IH]; [done|].
  rewrite fmap_cons, !filter_cons.
  destruct (decide (Q (f x))); simpl; by rewrite IH.
Qed.

Lemma length_filter_elements (X Y : gset string) (Q : string → Prop)
    `{∀ x, Decision (Q x)} :
  (∀ x, x ∈ Y ↔ x ∈ X ∧ Q x) → length (filter Q (elements X)) = size Y.
Proof.
  intros HY. unfold size, set_size. simpl. apply Permutation_length.
  apply NoDup_Permutation.
  - apply NoDup_filter, NoDup_elements.
  - apply NoDup_elements.
  - intros x. rewrite list_elem_of_filter, !elem_of_elements, HY. tauto.
Qed.

Lemma result_case_status src dkr r :
  result_case src dkr r →
  (status r = "MISSING" ↔ object_name r ∉ names dkr) ∧
  (status r = "EXTRA" ↔ object_name r ∉ names src) ∧
  (status r = "MATCH" ↔ differences r = []) ∧
  status r ∈ ["MATCH"; "DIFFERENT"; "MISSING"; "EXTRA"].
Proof.
  intros [H|[H|H]].
  - destruct H as (Hs & Hd & St & _ & _ & Hl & _). rewrite St.
    split_and!; [done|done| |by apply (bool_decide_unpack _)].
    split; [done|]. intros E. by rewrite E in Hl.
  - destruct H as (Hs & Hd & St & _ & _ & Hl & _). rewrite St.
    split_and!; [done|done| |by apply (bool_decide_unpack _)].
    split; [done|]. intros E. by rewrite E in Hl.
  - destruct H as (Hs & Hd & [[St Hl]|[St Hl]] & _); rewrite St.
    + split_and!; [done|done|done|by apply (bool_decide_unpack _)].
    + split_and!; [done|done|done|by apply (bool_decide_unpack _)].
Qed.

Section Statistics.

Variable ratio : string → string → Q.
Variable unified_diff : list string → list string → list string.

Lemma count_by_name src dkr rs (P : ComparisonResult → Prop) (Q : string → Prop)
    (Y : gset string) `{∀ r, Decision (P r)} `{∀ n, Decision (Q n)} :
  object_name <$> rs = elements (names src ∪ names dkr) →
  Forall (λ r, P r ↔ Q (object_name r)) rs →
  (∀ n, n ∈ Y ↔ n ∈ names src ∪ names dkr ∧ Q n) →
  length (filter P rs) = size Y.
Proof.
  intros Hn HP HY.
  rewrite (filter_Forall_iff P (λ r, Q (object_name r))) by done.
  rewrite (length_filter_fmap object_name Q), Hn.
  by apply length_filter_elements.
Qed.

End Statistics.

(** X8. On the results of [compare_files], the summary of a report counts names:
    [total_expected] is the number of names of both sides together,
    [total_found] the number of names of the Docker side, and the sections
    Missing Objects and Extra Objects list as many results as there are
    names of one side only. *)
Theorem summary_stats_count_names
    (ratio : string → string → Q)
    (unified_diff : list string → list string → list string)
    (source_objects docker_objects : list SQLObject) :
  ∃ rs,
    compare_files ratio unified_diff source_objects docker_objects = Some rs ∧
    total_expected (_calculate_summary_stats rs) =
      size (names source_objects ∪ names docker_objects) ∧
    total_found (_calculate_summary_stats rs) = size (names docker_objects) ∧
    length (missing_objects rs) =
      size (names source_objects ∖ names docker_objects) ∧
    length (extra_objects rs) =
      size (names docker_objects ∖ names source_objects).
Proof.
  destruct (compare_files_cases ratio unified_diff source_objects docker_objects)
    as (rs & H & Hn & Hc).
  exists rs. split; [done|].
  unfold _calculate_summary_stats, missing_objects, extra_objects.
  cbn [total_expected total_found].
  split_and!.
  - by rewrite <- (length_fmap object_name), Hn.
  - apply (count_by_name source_objects docker_objects rs _
             (λ n, n ∈ names docker_objects)); [apply _|done| |].
    + eapply Forall_impl; [exact Hc|]. intros r Hr.
      destruct (result_case_status _ _ _ Hr) as (Hm & _).
      rewrite Hm. split; [apply dec_stable|auto].
    + intros n. rewrite elem_of_union. tauto.
  - apply (count_by_name source_objects docker_objects rs _
             (λ n, n ∉ names docker_objects)); [apply _|done| |].
    + eapply Forall_impl; [exact Hc|]. intros r Hr.
      by destruct (result_case_status _ _ _ Hr) as (Hm & _).
    + intros n. rewrite elem_of_difference, elem_of_union. tauto.
  - apply (count_by_name source_objects docker_objects rs _
             (λ n, n ∉ names source_objects)); [apply _|done| |].
    + eapply Forall_impl; [exact Hc|]. intros r Hr.
      by destruct (result_case_status _ _ _ Hr) as (_ & Hm & _).
    + intros n. rewrite elem_of_difference, elem_of_union. tauto.
Qed.

(** X9. On the results of [compare_files], the sections Issues Found and
    Detailed Comparisons of a report hold the same results, those whose
    status is not MATCH, and the note of a result is [Perfect match] exactly
    when the result has no difference. *)
Theorem report_sections_agree
    (ratio : string → string → Q)
    (unified_diff : list string → list string → list string)
    (source_objects docker_objects : list SQLObject) :
  ∃ rs,
    compare_files ratio unified_diff source_objects docker_objects = Some rs ∧
    issues rs = filter (λ r, status r ≠ "MATCH") rs ∧
    detailed rs = filter (λ r, status r ≠ "MATCH") rs ∧
    Forall (λ r, _get_result_notes r = "Perfect match" ↔ differences r = []) rs.
Proof.
  destruct (compare_files_cases ratio unified_diff source_objects docker_objects)
    as (rs & H & Hn & Hc).
  exists rs. split; [done|]. unfold issues, detailed. split_and!.
  - apply filter_Forall_iff. eapply Forall_impl; [exact Hc|]. intros r Hr.
    destruct (result_case_status _ _ _ Hr) as (_ & _ & Hm & _).
    by rewrite Hm.
  - apply filter_Forall_iff. eapply Forall_impl; [exact Hc|]. intros r Hr.
    destruct (result_case_status _ _ _ Hr) as (_ & _ & _ & Hi).
    repeat (apply elem_of_cons in Hi as [->|Hi]); [..|by apply elem_of_nil in Hi];
      split; try done; by apply (bool_decide_unpack _).
  - eapply Forall_impl; [exact Hc|]. intros r Hr.
    destruct (result_case_status _ _ _ Hr) as (_ & _ & Hm & Hi).
    rewrite <- Hm. unfold _get_result_notes.
    repeat (apply elem_of_cons in Hi as [->|Hi]); [..|by apply elem_of_nil in Hi];
      try done.
    split; [|done]. simpl. intros E.
    destruct (fmt_len (length (differences r))) as [|c [|c' x]].
    + by rewrite sapp_nil_l in E.
    + by rewrite sapp_cons, sapp_nil_l in E.
    + apply (f_equal String.length) in E.
      rewrite !sapp_cons in E. simpl in E. rewrite sapp_length in E.
      simpl in E. lia.
Qed.

(** ** The master summary *)

Lemma counts_add_up (l : list ComparisonResult) :
  Forall known_status l →
  length (filter (λ r, status r = "MATCH") l) +
  length (filter (λ r, status r = "DIFFERENT") l) +
  length (filter (λ r, status r = "MISSING") l) +
  length (filter (λ r, status r = "EXTRA") l) = length l.
Proof.
  induction 1 as [|r l Hr Hl IH]; [done|].
  rewrite !filter_cons. simpl. rewrite <- IH. unfold known_status in Hr.
  repeat (apply elem_of_cons in Hr as [->|Hr]); [..|by apply elem_of_nil in Hr];
    repeat case_decide; try done; simpl; lia.
Qed.

Section Master.

Variable ratio : string → string → Q.
Variable unified_diff : list string → list string → list string.

Lemma all_results_cases pairs :
  ∃ all_results,
    all_results_of ratio unified_diff pairs = Some all_results ∧
    Forall (λ r, ∃ p, p ∈ pairs ∧ result_case p.1 p.2 r) all_results.
Proof.
  unfold all_results_of.
  induction pairs as [|p pairs (all_results & IH & Hall)].
  - exists []. by split.
  - destruct (compare_files_cases ratio unified_diff p.1 p.2) as (rs & H & _ & Hc).
    destruct (mapM _ pairs) as [rss|] eqn:E; [|done].
    injection IH as <-.
    exists (rs ++ concat rss). split.
    + cbn [mapM]. rewrite H. simpl. by rewrite E.
    + apply Forall_app. split.
      * eapply Forall_impl; [exact Hc|]. intros r Hr. exists p. split; [by left|done].
      * eapply Forall_impl; [exact Hall|]. intros r (p' & Hp' & Hr).
        exists p'. split; [by right|done].
Qed.

End Master.

(** ** The statistics by object type *)

Lemma row_of_nil t l : of_type t l = [] → row_of t l = type_stat_init.
Proof. unfold row_of. by intros ->. Qed.

Lemma of_type_snoc t l r :
  of_type t (l ++ [r]) =
  of_type t l ++ (if bool_decide (type_value (object_type r) = t) then [r] else []).
Proof.
  unfold of_type. rewrite filter_app, filter_cons, filter_nil.
  by rewrite decide_bool_decide.
Qed.

Lemma length_filter_snoc {A} (P : A → Prop) `{∀ x, Decision (P x)} l x :
  length (filter P (l ++ [x])) =
  length (filter P l) + (if bool_decide (P x) then 1 else 0).
Proof.
  rewrite filter_app, filter_cons, filter_nil, length_app.
  rewrite decide_bool_decide. by destruct (bool_decide (P x)).
Qed.

Lemma type_stats_step_inv m l r :
  known_status r → type_stats_inv m l →
  ∃ m', type_stats_step m r = Some m' ∧ type_stats_inv m' (l ++ [r]).
Proof.
  intros Hk Hinv.
  assert (default type_stat_init (m !! type_value (object_type r)) =
          row_of (type_value (object_type r)) l) as Hrow.
  { rewrite Hinv. case_bool_decide as E; [by rewrite row_of_nil|done]. }
  assert (∀ t, t ≠ type_value (object_type r) →
               of_type t (l ++ [r]) = of_type t l) as Hother.
  { intros t Ht. rewrite of_type_snoc, bool_decide_eq_false_2 by done.
    apply app_nil_r. }
  assert (of_type (type_value (object_type r)) (l ++ [r]) =
          of_type (type_value (object_type r)) l ++ [r]) as Hsame.
  { by rewrite of_type_snoc, bool_decide_eq_true_2. }
  unfold type_stats_step. rewrite Hrow.
  unfold known_status in Hk.
  repeat (apply elem_of_cons in Hk as [Hk|Hk]); [..|by apply elem_of_nil in Hk];
    rewrite Hk; (eexists; split; [reflexivity|]);
    intros t; (destruct (decide (t = type_value (object_type r))) as [->|Ht];
      [|rewrite lookup_insert_ne by done; unfold row_of;
        rewrite Hother by done; apply Hinv]);
    rewrite lookup_insert_eq, bool_decide_eq_false_2
      by (rewrite Hsame; by destruct (of_type _ l));
    f_equal; unfold row_of; rewrite Hsame; cbn;
    rewrite !length_filter_snoc, !fmap_app, length_app, Hk;
    repeat case_bool_decide; try done; cbn; f_equal; lia.
Qed.

Lemma type_stats_of_inv l : ∀ m l0,
  Forall known_status l → type_stats_inv m l0 →
  ∃ m', type_stats_of m l = Some m' ∧ type_stats_inv m' (l0 ++ l).
Proof.
  induction l as [|r l IH]; intros m l0 Hk Hinv.
  - exists m. by rewrite app_nil_r.
  - apply Forall_cons in Hk as [Hr Hl].
    destruct (type_stats_step_inv m l0 r Hr Hinv) as (m1 & Hs & Hinv1).
    destruct (IH m1 (l0 ++ [r]) Hl Hinv1) as (m' & Hm' & Hinv').
    exists m'. simpl. rewrite Hs. split; [done|].
    by rewrite <- app_assoc in Hinv'.
Qed.

Lemma row_adds_up t l :
  Forall known_status l →
  ts_matching (row_of t l) + ts_different (row_of t l) +
  ts_missing (row_of t l) + ts_extra (row_of t l) = ts_total (row_of t l).
Proof.
  intros Hk. unfold row_of. cbn. apply counts_add_up.
  unfold of_type. rewrite Forall_forall in Hk. apply Forall_forall.
  intros r [_ Hr]%list_elem_of_filter. by apply Hk.
Qed.

(** X10. In the master summary over the results of any list of compared pairs,
    the four counts by status add up to the total, every MISSING result
    is listed as a critical issue, and every critical issue has a
    difference. *)
Theorem overall_counts_add_up
    (ratio : string → string → Q)
    (unified_diff : list string → list string → list string)
    (pairs : list (list SQLObject * list SQLObject)) :
  ∃ all_results,
    all_results_of ratio unified_diff pairs = Some all_results ∧
    matching_objects (overall all_results) +
    different_objects (overall all_results) +
    missing_count (overall all_results) + extra_count (overall all_results) =
      total_objects (overall all_results) ∧
    (∀ r, r ∈ missing_objects all_results → r ∈ critical_issues all_results) ∧
    (∀ r, r ∈ critical_issues all_results → differences r ≠ []).
Proof.
  destruct (all_results_cases ratio unified_diff pairs) as (all_results & H & Hc).
  exists all_results. split; [done|]. split_and!.
  - unfold overall. cbn. apply counts_add_up.
    eapply Forall_impl; [exact Hc|]. intros r (p & _ & Hr).
    by destruct (result_case_status _ _ _ Hr) as (_ & _ & _ & Hk).
  - unfold missing_objects, critical_issues. intros r [Hm Hin]%list_elem_of_filter.
    apply list_elem_of_filter. split; [|done].
    rewrite Forall_forall in Hc. destruct (Hc r Hin) as (p & _ & Hr).
    split; [rewrite Hm; by apply (bool_decide_unpack _)|].
    destruct Hr as [Hr|[Hr|Hr]].
    + destruct Hr as (_ & _ & _ & -> & _). done.
    + destruct Hr as (_ & _ & St & _). by rewrite St in Hm.
    + destruct Hr as (_ & _ & [[St _]|[St _]] & _); by rewrite St in Hm.
  - unfold critical_issues. intros r [[Hs _] Hin]%list_elem_of_filter.
    rewrite Forall_forall in Hc. destruct (Hc r Hin) as (p & _ & Hr).
    destruct (result_case_status _ _ _ Hr) as (_ & _ & Hm & _).
    rewrite <- Hm. intros E. rewrite E in Hs.
    by repeat (apply elem_of_cons in Hs as [Hs|Hs]); [..|apply elem_of_nil in Hs].
Qed.

(** X11. The loop that fills [type_stats] in the master summary never raises on
    the results of compared pairs. A type has a row exactly when a result
    has that type; the row counts the results of the type, in total and by
    status, its four counts by status add up to its total, which is not 0,
    and its two lists of percentages have one entry per result. *)
Theorem type_stats_rows
    (ratio : string → string → Q)
    (unified_diff : list string → list string → list string)
    (pairs : list (list SQLObject * list SQLObject)) :
  ∃ all_results type_stats,
    all_results_of ratio unified_diff pairs = Some all_results ∧
    type_stats_of ∅ all_results = Some type_stats ∧
    (∀ t, type_stats !! t = None ↔ of_type t all_results = []) ∧
    ∀ t stats, type_stats !! t = Some stats →
      stats = row_of t all_results ∧
      0 < ts_total stats ∧
      ts_matching stats + ts_different stats + ts_missing stats + ts_extra stats =
        ts_total stats ∧
      length (ts_completeness stats) = ts_total stats ∧
      length (ts_accuracy stats) = ts_total stats.
Proof.
  destruct (all_results_cases ratio unified_diff pairs) as (all_results & H & Hc).
  assert (Forall known_status all_results) as Hk.
  { eapply Forall_impl; [exact Hc|]. intros r (p & _ & Hr).
    by destruct (result_case_status _ _ _ Hr) as (_ & _ & _ & Hk). }
  destruct (type_stats_of_inv all_results ∅ [] Hk) as (m & Hm & Hinv).
  { intros t. by rewrite lookup_empty. }
  simpl in Hinv. exists all_results, m. split_and!; [done|done| |].
  - intros t. rewrite Hinv. case_bool_decide; by split.
  - intros t stats. rewrite Hinv. case_bool_decide as E; [done|].
    intros [= <-]. split_and!.
    + done.
    + unfold row_of. cbn. destruct (of_type t all_results); [done|simpl; lia].
    + by apply row_adds_up.
    + unfold row_of. cbn. by rewrite length_fmap.
    + unfold row_of. cbn. by rewrite length_fmap.
Qed.

(** ** Bounds of the averages *)

Lemma Qnat_S n : (Qnat (S n) == Qnat n + 1)%Q.
Proof.
  unfold Qnat. rewrite Nat2Z.inj_succ, <- Z.add_1_r, inject_Z_plus. ring.
Qed.

Lemma foldl_Qplus_bounds l : ∀ acc,
  Forall (λ q, 0 <= q ∧ q <= 100)%Q l →
  (acc <= foldl Qplus acc l ∧
   foldl Qplus acc l <= acc + 100 * Qnat (length l))%Q.
Proof.
  induction l as [|q l IH]; intros acc Hl; simpl.
  - split; [apply Qle_refl|]. apply Qle_lteq. right. unfold Qnat. simpl. ring.
  - apply Forall_cons in Hl as [[Hq0 Hq1] Hl].
    destruct (IH (acc + q)%Q Hl) as [H0 H1]. split.
    + eapply Qle_trans; [|exact H0].
      apply (Qle_trans _ (acc + 0)%Q); [apply Qle_lteq; right; ring|].
      apply Qplus_le_compat; [apply Qle_refl|done].
    + eapply Qle_trans; [exact H1|].
      apply (Qle_trans _ (acc + 100 + 100 * Qnat (length l))%Q).
      * apply Qplus_le_compat; [|apply Qle_refl].
        apply Qplus_le_compat; [apply Qle_refl|done].
      * apply Qle_lteq. right.
        transitivity (acc + 100 * (Qnat (length l) + 1))%Q; [ring|].
        apply Qplus_comp; [reflexivity|].
        apply Qmult_comp; [reflexivity|]. symmetry. apply Qnat_S.
Qed.

Lemma average_bounds l :
  Forall (λ q, 0 <= q ∧ q <= 100)%Q l →
  let avg := if 0 <? length l then (Qsum l / Qnat (length l))%Q else 0%Q in
  (0 <= avg ∧ avg <= 100)%Q.
Proof.
  intros Hl. simpl. destruct (Nat.ltb_spec 0 (length l)) as [Hn|Hn].
  - destruct (foldl_Qplus_bounds l 0%Q Hl) as [H0 H1]. fold (Qsum l) in H0, H1.
    assert (0 < Qnat (length l))%Q as Hpos by (unfold Qnat, Qlt; simpl; lia).
    split.
    + apply Qle_shift_div_l; [done|]. by rewrite Qmult_0_l.
    + apply Qle_shift_div_r; [done|].
      eapply Qle_trans; [exact H1|]. apply Qle_lteq. right. ring.
  - by split.
Qed.

Section Averages.

Variable ratio : string → string → Q.
Variable unified_diff : list string → list string → list string.
Hypothesis ratio_bounds : ∀ a b, (0 <= ratio a b ∧ ratio a b <= 1)%Q.

Lemma accuracy_bounds so do :
  (0 <= _calculate_accuracy ratio so do ∧
   _calculate_accuracy ratio so do <= 100)%Q.
Proof.
  unfold _calculate_accuracy.
  destruct (ratio_bounds (join " " (split_ws (definition so)))
              (join " " (split_ws (definition do)))) as [H0 H1].
  split.
  - apply Qmult_le_0_compat; [done|]. by unfold Qle.
  - apply (Qle_trans _ (1 * 100)%Q); [|by unfold Qle].
    apply Qmult_le_compat_r; [done|]. by unfold Qle.
Qed.

Lemma compare_name_bounds n so do r :
  compare_name ratio unified_diff n so do = Some r →
  (0 <= completeness_percentage r ∧ completeness_percentage r <= 100)%Q ∧
  (0 <= accuracy_percentage r ∧ accuracy_percentage r <= 100)%Q.
Proof.
  unfold compare_name. destruct so as [so|], do as [do|]; intros [= <-].
  - destruct (compare_objects_paired ratio unified_diff so do) as (_ & H0 & H1).
    split; [done|]. apply accuracy_bounds.
  - simpl. by unfold Qle.
  - simpl. by unfold Qle.
Qed.

End Averages.

(** X12. When the similarity ratio lies between 0 and 1, the average completeness
    and the average accuracy in the summary of a report lie between 0 and
    100. *)
Theorem summary_percentages_bounded
    (ratio : string → string → Q)
    (unified_diff : list string → list string → list string)
    (source_objects docker_objects : list SQLObject) :
  (∀ a b, 0 <= ratio a b ∧ ratio a b <= 1)%Q →
  ∃ rs,
    compare_files ratio unified_diff source_objects docker_objects = Some rs ∧
    (0 <= completeness (_calculate_summary_stats rs) ∧
     completeness (_calculate_summary_stats rs) <= 100 ∧
     0 <= accuracy (_calculate_summary_stats rs) ∧
     accuracy (_calculate_summary_stats rs) <= 100)%Q.
Proof.
  intros Hr.
  destruct (compare_files_results ratio unified_diff source_objects docker_objects)
    as (rs & H & _ & Hrs).
  exists rs. split; [done|].
  assert (Forall (λ r,
    (0 <= completeness_percentage r ∧ completeness_percentage r <= 100)%Q ∧
    (0 <= accuracy_percentage r ∧ accuracy_percentage r <= 100)%Q) rs) as Hb.
  { apply Forall_forall. intros r Hin.
    by eapply compare_name_bounds, Hrs. }
  unfold _calculate_summary_stats. cbn [completeness accuracy].
  pose proof (average_bounds (completeness_percentage <$> rs)) as Hc.
  pose proof (average_bounds (accuracy_percentage <$> rs)) as Ha.
  rewrite !length_fmap in Hc, Ha. simpl in Hc, Ha.
  destruct Hc as [Hc0 Hc1].
  { apply Forall_fmap. eapply Forall_impl; [exact Hb|]. by intros r [? _]. }
  destruct Ha as [Ha0 Ha1].
  { apply Forall_fmap. eapply Forall_impl; [exact Hb|]. by intros r [_ ?]. }
  done.
Qed.

(** X12 at an example. *)
Lemma summary_percentages_bounded_witness :
  ∃ rs,
    compare_files ratio_equal diff_none example_tu example_t = Some rs ∧
    (0 <= completeness (_calculate_summary_stats rs) ∧
     completeness (_calculate_summary_stats rs) <= 100 ∧
     0 <= accuracy (_calculate_summary_stats rs) ∧
     accuracy (_calculate_summary_stats rs) <= 100)%Q.
Proof.
  apply summary_percentages_bounded.
  intros a b. unfold ratio_equal. by case_bool_decide.
Defined.

(** ** Stripping twice *)

Lemma rstrip_idemp s : rstrip (rstrip s) = rstrip s.
Proof.
  induction s as [|c s IH]; [done|]. simpl.
  destruct (is_empty (rstrip s) && is_space c) eqn:E; [done|].
  simpl. by rewrite IH, E.
Qed.

Lemma lstrip_strip s : lstrip (strip s) = strip s.
Proof.
  destruct (strip_head s) as [->|(c & r & -> & Hc)]; [done|].
  simpl. by rewrite Hc.
Qed.

Lemma strip_idemp s : strip (strip s) = strip s.
Proof.
  unfold strip at 1. rewrite lstrip_strip. unfold strip. apply rstrip_idemp.
Qed.

(** ** Line numbers *)

Lemma build_object_lines self d n t cs o :
  build_object self d n t cs = Some o →
  start_line o = current_line self ∧
  end_line o = current_line self + count_char newline d.
Proof.
  unfold build_object, _parse_view_or_mv, _parse_function, _parse_table,
    _parse_index, _parse_trigger, _parse_grant, _create_basic_object.
  intros H. repeat case_match; simplify_eq; done.
Qed.

(** What one call of [_parse_statement] that returns does. *)
Lemma parse_statement_step self statement self' :
  _parse_statement self statement = Some self' →
  current_line self' = current_line self + lines_of statement ∧
  ∃ new,
    objects self' = objects self ++ new ∧
    (λ o, (start_line o, end_line o)) <$> new =
      (if emits (strip statement)
       then [(current_line self', current_line self' +
                count_char newline (strip statement))]
       else []) ∧
    (emits (strip statement) = false → new = []) ∧
    (emits (strip statement) = true → ∃ o t n,
       new = [o] ∧
       _get_object_type (strip statement) = Some t ∧
       _extract_object_name (strip statement) t = Some n ∧
       build_object
         {| objects := objects self; current_line := current_line self' |}
         (strip statement) n t (_extract_comments (strip statement)) = Some o).
Proof.
  unfold _parse_statement, lines_of, emits.
  destruct (is_empty (strip statement)) eqn:He.
  { intros [= <-]. split; [lia|]. exists []. by rewrite app_nil_r. }
  simpl.
  destruct (_get_object_type (strip statement)) as [t|] eqn:Ht.
  2:{ intros [= <-]. split; [done|]. exists []. by rewrite app_nil_r. }
  destruct (_extract_object_name (strip statement) t) as [n|] eqn:Hn.
  2:{ intros [= <-]. split; [done|]. exists []. by rewrite app_nil_r. }
  destruct (is_empty n) eqn:Hne.
  { intros [= <-]. split; [done|]. exists []. by rewrite app_nil_r. }
  simpl.
  destruct (build_object _ _ _ _ _) as [o|] eqn:Hb; [|done].
  intros [= <-]. simpl. split; [done|]. exists [o].
  destruct (build_object_lines _ _ _ _ _ _ Hb) as [Hs Hl]. simpl in Hs, Hl.
  split_and!; [done|by rewrite fmap_cons, Hs, Hl|done|].
  intros _. by exists o, t, n.
Qed.

Lemma parse_statements_lines parsed : ∀ self self',
  parse_statements self parsed = Some self' →
  current_line self' = current_line self + sum_list (lines_of <$> parsed) ∧
  ∃ new,
    objects self' = objects self ++ new ∧
    (λ o, (start_line o, end_line o)) <$> new =
      line_spans (current_line self) parsed.
Proof.
  induction parsed as [|statement parsed IH]; intros self self'; simpl.
  - intros [= <-]. split; [lia|]. exists []. by rewrite app_nil_r.
  - change (list_fmap string nat lines_of parsed) with (lines_of <$> parsed).
    destruct (_parse_statement self statement) as [self1|] eqn:H1; [|done].
    intros H.
    destruct (parse_statement_step _ _ _ H1) as (Hl1 & new1 & Ho1 & Hs1 & _).
    destruct (IH _ _ H) as (Hl & new & Ho & Hs).
    split; [lia|]. exists (new1 ++ new). split.
    + by rewrite Ho, Ho1, app_assoc.
    + by rewrite fmap_app, Hs1, Hs, Hl1.
Qed.

Lemma line_spans_bounds parsed : ∀ line,
  Forall (λ p, line < p.1 ∧ p.1 ≤ line + sum_list (lines_of <$> parsed) ∧ p.1 ≤ p.2)
    (line_spans line parsed) ∧
  increasing ((λ p, p.1) <$> line_spans line parsed).
Proof.
  induction parsed as [|statement parsed IH]; intros line; simpl.
  - split; [constructor|]. by intros i j a b _ ?.
  - change (list_fmap string nat lines_of parsed) with (lines_of <$> parsed).
    destruct (IH (line + lines_of statement)) as [Hb Hs].
    assert (emits (strip statement) = true → 0 < lines_of statement) as Hpos.
    { unfold emits, lines_of. destruct (is_empty (strip statement)); [done|]. lia. }
    assert (Forall (λ p, line < p.1 ∧
              p.1 ≤ line + (lines_of statement + sum_list (lines_of <$> parsed)) ∧
              p.1 ≤ p.2)
              (line_spans (line + lines_of statement) parsed)) as Hb'.
    { eapply Forall_impl; [exact Hb|]. intros p. simpl. lia. }
    destruct (emits (strip statement)) eqn:E; simpl; [|done].
    specialize (Hpos eq_refl). split.
    + constructor; [simpl; lia|done].
    + intros i j a b Hij Ha Hb0. destruct j as [|j]; [lia|]. simpl in Hb0.
      destruct i as [|i]; simpl in Ha.
      * injection Ha as <-.
        apply list_lookup_fmap_Some in Hb0 as (p & -> & Hp).
        rewrite Forall_forall in Hb.
        apply list_elem_of_lookup_2, Hb in Hp. lia.
      * apply (Hs i j); [lia|done|done].
Qed.

(** ** Line numbers of the extracted objects *)

(** X13. The line numbers of the objects that [parse_file] returns are those of
    [line_spans]: the counter is advanced by the lines of every statement
    that is not blank before the object is built, so an object starts at the
    count of the lines of the statements up to and including its own, and
    ends that many lines plus its own line breaks. *)
Theorem extracted_line_numbers
    (sqlparse_parse : string → list string) (content : string)
    (objs : list SQLObject) :
  parse_file sqlparse_parse content = Some objs →
  (λ o, (start_line o, end_line o)) <$> objs =
    line_spans 0 (sqlparse_parse content).
Proof.
  unfold parse_file.
  destruct (parse_statements _ _) as [self'|] eqn:H; [|done].
  intros [= <-].
  destruct (parse_statements_lines _ _ _ H) as (_ & new & Ho & Hs).
  simpl in Ho, Hs. by rewrite Ho.
Qed.

(** X13 at an example. *)
Lemma extracted_line_numbers_witness :
  (λ o, (start_line o, end_line o)) <$> example_t =
    line_spans 0 (one_statement "CREATE TABLE t (id INT)").
Proof.
  apply extracted_line_numbers. by vm_compute.
Defined.

(** X14. In the list that [parse_file] returns the start lines grow strictly;
    every start line is at least 1, at most the end line of the object, and
    at most the number of lines counted for the statements of the file. *)
Theorem start_lines_increase
    (sqlparse_parse : string → list string) (content : string)
    (objs : list SQLObject) :
  parse_file sqlparse_parse content = Some objs →
  increasing (start_line <$> objs) ∧
  Forall (λ o, 1 ≤ start_line o ∧ start_line o ≤ end_line o ∧
               start_line o ≤ sum_list (lines_of <$> sqlparse_parse content))
    objs.
Proof.
  unfold parse_file.
  destruct (parse_statements _ _) as [self'|] eqn:H; [|done].
  intros [= <-].
  destruct (parse_statements_lines _ _ _ H) as (_ & new & Ho & Hs).
  simpl in Ho, Hs. rewrite Ho.
  destruct (line_spans_bounds (sqlparse_parse content) 0) as [Hb Hi].
  rewrite <- Hs in Hb, Hi. split.
  - by rewrite <- list_fmap_compose in Hi.
  - apply Forall_fmap in Hb. eapply Forall_impl; [exact Hb|].
    intros o. simpl. lia.
Qed.

(** X14 at an example. *)
Lemma start_lines_increase_witness :
  increasing (start_line <$> example_t) ∧
  Forall (λ o, 1 ≤ start_line o ∧ start_line o ≤ end_line o ∧
               start_line o ≤
                 sum_list (lines_of <$> one_statement "CREATE TABLE t (id INT)"))
    example_t.
Proof.
  apply (start_lines_increase one_statement "CREATE TABLE t (id INT)").
  by vm_compute.
Defined.

(** ** The two ways of [_parse_statement] *)

Lemma parse_statement_silent self statement :
  emits (strip statement) = false →
  _parse_statement self statement =
    Some {| objects := objects self;
            current_line := current_line self + lines_of statement |}.
Proof.
  unfold emits, _parse_statement, lines_of.
  destruct (is_empty (strip statement)).
  { intros _. destruct self. simpl. do 2 f_equal. lia. }
  simpl. destruct (_get_object_type (strip statement)) as [t|]; [|done].
  destruct (_extract_object_name (strip statement) t) as [n|]; [|done].
  by intros ->%negb_false_iff.
Qed.

Lemma parse_statement_build self statement :
  emits (strip statement) = true →
  ∃ t n,
    _get_object_type (strip statement) = Some t ∧
    _extract_object_name (strip statement) t = Some n ∧
    _parse_statement self statement =
      (λ o, {| objects := objects self ++ [o];
               current_line := current_line self + lines_of statement |}) <$>
      build_object
        {| objects := objects self;
           current_line := current_line self + lines_of statement |}
        (strip statement) n t (_extract_comments (strip statement)).
Proof.
  unfold emits, _parse_statement, lines_of.
  destruct (is_empty (strip statement)); [done|].
  simpl. destruct (_get_object_type (strip statement)) as [t|]; [|done].
  destruct (_extract_object_name (strip statement) t) as [n|] eqn:Hn; [|done].
  intros ->%negb_true_iff. exists t, n. split; [done|]. split; [done|].
  by destruct (build_object _ _ _ _ _).
Qed.

Lemma build_object_None self d n t cs :
  build_object self d n t cs = None ↔
  (t = VIEW ∨ t = MATERIALIZED_VIEW) ∧
  ∃ body,
    search_group1 re_SI as_pattern d = Some body ∧
    _extract_ctes (strip body) = None.
Proof.
  unfold build_object, _parse_view_or_mv. split.
  - intros H. destruct t; try done;
      (split; [auto|]);
      (destruct (search_group1 re_SI as_pattern d) as [body|]; [|done]);
      exists body; (split; [done|]);
      by destruct (_extract_ctes (strip body)).
  - intros [[-> | ->] (body & -> & ->)]; done.
Qed.

Lemma build_object_any_self self1 self2 d n t cs o1 :
  build_object self1 d n t cs = Some o1 →
  ∃ o2, build_object self2 d n t cs = Some o2 ∧ same_features o1 o2.
Proof.
  intros H1.
  destruct (build_object self2 d n t cs) as [o2|] eqn:H2.
  - exists o2. split; [done|]. by eapply build_object_same_text.
  - apply build_object_None in H2.
    apply (build_object_None self1 d n t cs) in H2. congruence.
Qed.

Lemma get_object_type_views s t :
  emits s = true → _get_object_type s = Some t →
  (_get_object_type s = Some VIEW ∨ _get_object_type s = Some MATERIALIZED_VIEW) ↔
  (t = VIEW ∨ t = MATERIALIZED_VIEW).
Proof. intros _ ->. split; intros [H|H]; simplify_eq; auto. Qed.

Lemma parse_statement_None self statement :
  _parse_statement self statement = None ↔ raises (strip statement).
Proof.
  unfold raises.
  destruct (emits (strip statement)) eqn:E.
  - destruct (parse_statement_build self statement E) as (t & n & Ht & Hn & ->).
    rewrite fmap_None, build_object_None, Ht. split.
    + intros [[-> | ->] Hb]; auto.
    + intros (_ & [[= <-] | [= <-]] & Hb); auto.
  - rewrite parse_statement_silent by done. split; [done|]. by intros [? _].
Qed.

(** ** Statements parsed at another place *)

Lemma parse_statement_any_self self1 self2 statement self1' :
  _parse_statement self1 statement = Some self1' →
  ∃ self2' new1 new2,
    _parse_statement self2 statement = Some self2' ∧
    objects self1' = objects self1 ++ new1 ∧
    objects self2' = objects self2 ++ new2 ∧
    Forall2 same_features new1 new2.
Proof.
  destruct (emits (strip statement)) eqn:E.
  - destruct (parse_statement_build self1 statement E) as (t & n & Ht & Hn & ->).
    destruct (parse_statement_build self2 statement E) as (t' & n' & Ht' & Hn' & ->).
    simplify_eq.
    destruct (build_object _ _ _ _ _) as [o1|] eqn:H1; [|done].
    intros [= <-].
    destruct (build_object_any_self _
                {| objects := objects self2;
                   current_line := current_line self2 + lines_of statement |}
                _ _ _ _ _ H1) as (o2 & -> & Hf).
    eexists _, [o1], [o2]. split; [done|]. split; [done|]. split; [done|].
    by constructor.
  - rewrite !parse_statement_silent by done. intros [= <-].
    eexists _, [], []. simpl. rewrite !app_nil_r. split; [done|].
    split; [done|]. split; [done|]. constructor.
Qed.

Lemma parse_statements_any_self parsed : ∀ self1 self2 self1',
  parse_statements self1 parsed = Some self1' →
  ∃ self2' new1 new2,
    parse_statements self2 parsed = Some self2' ∧
    objects self1' = objects self1 ++ new1 ∧
    objects self2' = objects self2 ++ new2 ∧
    Forall2 same_features new1 new2.
Proof.
  induction parsed as [|statement parsed IH]; intros self1 self2 self1'; simpl.
  - intros [= <-]. exists self2, [], []. rewrite !app_nil_r.
    split; [done|]. split; [done|]. split; [done|]. constructor.
  - destruct (_parse_statement self1 statement) as [s1|] eqn:H1; [|done].
    intros H.
    destruct (parse_statement_any_self _ self2 _ _ H1)
      as (s2 & a1 & a2 & -> & Ho1 & Ho2 & Hf).
    destruct (IH _ s2 _ H) as (s2' & b1 & b2 & -> & Hp1 & Hp2 & Hg).
    exists s2', (a1 ++ b1), (a2 ++ b2). split; [done|].
    rewrite Hp1, Ho1, Hp2, Ho2, <- !app_assoc.
    split; [done|]. split; [done|]. by apply Forall2_app.
Qed.

Lemma parse_statements_app l1 l2 self :
  parse_statements self (l1 ++ l2) =
  parse_statements self l1 ≫= λ self', parse_statements self' l2.
Proof.
  revert self. induction l1 as [|s l1 IH]; intros self; simpl; [done|].
  destruct (_parse_statement self s); [apply IH|done].
Qed.

Lemma same_features_refl o : same_features o o.
Proof. by repeat split. Qed.

(** X15. What is extracted from a statement does not depend on the statements
    before it, line numbers apart: when two lists of statements are parsed
    without error, so is their concatenation, and its objects agree, field
    by field except for the line numbers, with the objects of the first list
    followed by those of the second. *)
Theorem extraction_independent_of_position (l1 l2 : list string)
    (objs1 objs2 : list SQLObject) :
  extract l1 = Some objs1 → extract l2 = Some objs2 →
  ∃ objs,
    extract (l1 ++ l2) = Some objs ∧
    Forall2 same_features objs (objs1 ++ objs2).
Proof.
  unfold extract. rewrite parse_statements_app.
  destruct (parse_statements SQLParser_init l1) as [s1|] eqn:H1; [|done].
  destruct (parse_statements SQLParser_init l2) as [s2|] eqn:H2; [|done].
  simpl. intros [= <-] [= <-].
  destruct (parse_statements_any_self _ _ s1 _ H2)
    as (s' & new2 & new1 & -> & Ho2 & Ho1 & Hf).
  exists (objects s'). split; [done|]. rewrite Ho1. simpl in Ho2. rewrite Ho2.
  apply Forall2_app; [|by apply Forall2_flip in Hf; eapply Forall2_impl;
    [exact Hf|]; intros a b (?&?&?&?&?&?&?&?&?&?&?&?); repeat split].
  apply Forall_Forall2_diag, Forall_forall. intros o _. apply same_features_refl.
Qed.

(** X15 at an example. *)
Lemma extraction_independent_of_position_witness :
  ∃ objs,
    extract (["CREATE TABLE t (id INT)"] ++ ["CREATE TABLE u (id INT)"]) =
      Some objs ∧
    Forall2 same_features objs (example_t ++ objects_of ["CREATE TABLE u (id INT)"]).
Proof.
  apply extraction_independent_of_position; by vm_compute.
Defined.

(** ** An object parsed again from its own text *)

Lemma emitted_build o :
  emitted o →
  ∃ self statement t n,
    emits (strip statement) = true ∧
    _get_object_type (strip statement) = Some t ∧
    _extract_object_name (strip statement) t = Some n ∧
    build_object self (strip statement) n t
      (_extract_comments (strip statement)) = Some o.
Proof.
  intros (self & statement & self' & Hp & Ho).
  destruct (parse_statement_step _ _ _ Hp) as (_ & new & Hn & _ & Hf & Ht).
  rewrite Hn in Ho. apply app_inv_head in Ho as ->.
  destruct (emits (strip statement)) eqn:E; [|by specialize (Hf eq_refl)].
  destruct (Ht eq_refl) as (o' & t & n & [= <-] & Hty & Hna & Hb).
  eauto 10.
Qed.

(** X16. Parsing the definition text of an extracted object, from any state of
    the parser, does not raise and appends one object that agrees with the
    first on every field but the line numbers. *)
Theorem reparse_definition (o : SQLObject) (self : SQLParser) :
  emitted o →
  ∃ self' o',
    _parse_statement self (definition o) = Some self' ∧
    objects self' = objects self ++ [o'] ∧
    same_features o o'.
Proof.
  intros (self0 & statement & t & n & E & Ht & Hn & Hb)%emitted_build.
  destruct (build_object_fields _ _ _ _ _ _ Hb) as (_ & _ & -> & _).
  rewrite <- strip_idemp in E.
  destruct (parse_statement_build self (strip statement) E)
    as (t' & n' & Ht' & Hn' & ->).
  rewrite strip_idemp in *. simplify_eq.
  destruct (build_object_any_self _
              {| objects := objects self;
                 current_line := current_line self + lines_of (strip statement) |}
              _ _ _ _ _ Hb) as (o' & -> & Hf).
  by eexists _, o'.
Qed.

(** X16 at an example. *)
Lemma reparse_definition_witness :
  ∃ self' o',
    _parse_statement SQLParser_init (definition example_view) = Some self' ∧
    objects self' = objects SQLParser_init ++ [o'] ∧
    same_features example_view o'.
Proof.
  apply reparse_definition.
  exists SQLParser_init,
    "CREATE OR REPLACE VIEW v AS SELECT a, b FROM t WHERE x=1",
    {| objects := [example_view]; current_line := 1 |}.
  split; by vm_compute.
Defined.

(** ** Extracted texts are stripped *)

Lemma strip_fmap_stripped (o : option string) w :
  strip <$> o = Some w → stripped w.
Proof. destruct o; intros [= <-]. apply strip_idemp. Qed.

Lemma ctes_of_parts_stripped parts l :
  ctes_of_parts parts = Some l →
  Forall (λ c, stripped (cte_name c) ∧ stripped (cte_definition c)) l.
Proof.
  revert l. induction parts as [|p parts IH]; intros l; simpl.
  - intros [= <-]. constructor.
  - destruct (contains (upper (strip p)) " AS "); [|apply IH].
    destruct (partition " AS " (strip p)) as [[n d]|]; [|done].
    destruct (ctes_of_parts parts) as [l'|]; [|done].
    intros [= <-]. constructor; [|by apply IH].
    split; apply strip_idemp.
Qed.

Lemma stripped_nonempty_spec parts p :
  p ∈ stripped_nonempty parts ↔ p ≠ "" ∧ ∃ q, q ∈ parts ∧ p = strip q.
Proof.
  induction parts as [|q parts IH]; simpl.
  - split; [by intros ?%elem_of_nil|]. by intros (_ & q & ?%elem_of_nil & _).
  - destruct (is_empty (strip q)) eqn:E.
    + rewrite IH. split; intros [Hp (q' & Hq & ->)]; (split; [done|]).
      * exists q'. split; [by right|done].
      * apply elem_of_cons in Hq as [->|Hq]; [|eauto].
        by destruct (strip q).
    + rewrite elem_of_cons, IH. split.
      * intros [->|[Hp (q' & Hq & ->)]].
        -- split; [by destruct (strip q)|]. exists q. split; [by left|done].
        -- split; [done|]. exists q'. split; [by right|done].
      * intros [Hp (q' & Hq & ->)].
        apply elem_of_cons in Hq as [->|Hq]; [by left|right; eauto].
Qed.

Lemma build_object_stripped self d n t cs o :
  build_object self d n t cs = Some o →
  (∀ w, where_clause o = Some w → stripped w) ∧
  (∀ w, group_by o = Some w → stripped w) ∧
  (∀ w, order_by o = Some w → stripped w) ∧
  Forall (λ c, stripped (cte_name c) ∧ stripped (cte_definition c)) (ctes o) ∧
  (∀ ps, parameters o = Some ps → Forall (λ p, stripped p ∧ p ≠ "") ps).
Proof.
  assert (∀ self0 t0, (t0 = VIEW ∨ t0 = MATERIALIZED_VIEW) →
    _parse_view_or_mv self0 d n t0 cs = Some o →
    (∀ w, where_clause o = Some w → stripped w) ∧
    (∀ w, group_by o = Some w → stripped w) ∧
    (∀ w, order_by o = Some w → stripped w) ∧
    Forall (λ c, stripped (cte_name c) ∧ stripped (cte_definition c)) (ctes o) ∧
    (∀ ps, parameters o = Some ps → Forall (λ p, stripped p ∧ p ≠ "") ps)) as Hview.
  { intros self0 t0 _. unfold _parse_view_or_mv, _create_basic_object.
    destruct (search_group1 re_SI as_pattern d) as [body|].
    - unfold _extract_ctes, _extract_where_clause, _extract_group_by,
        _extract_order_by.
      destruct (search_group1 re_SI with_pattern (strip body)) as [wc|].
      + destruct (ctes_of_parts _) as [l|] eqn:El; [|done].
        intros [= <-]. simpl. split_and!; try (intros w; apply strip_fmap_stripped).
        * by eapply ctes_of_parts_stripped.
        * done.
      + intros [= <-]. simpl.
        split_and!; try (intros w; apply strip_fmap_stripped); done.
    - intros [= <-]. simpl. split_and!; done. }
  unfold build_object. destruct t; try (apply Hview; auto);
    unfold _parse_function, _parse_table, _parse_index, _parse_trigger,
      _parse_grant, _create_basic_object;
    intros [= <-]; simpl; split_and!; try done.
  intros ps [= <-].
  destruct (search_group1 re_SI params_pattern d) as [params_str|]; [|constructor].
  apply Forall_forall. intros p [Hp (q & _ & ->)]%stripped_nonempty_spec.
  split; [apply strip_idemp|done].
Qed.

(** X17. The texts of an extracted object have no whitespace at either end: its
    definition, which is not empty, its WHERE, GROUP BY and ORDER BY
    clauses, the names and definitions of its CTEs and its parameters, none
    of which is empty. *)
Theorem extracted_texts_stripped (o : SQLObject) :
  emitted o →
  stripped (definition o) ∧ definition o ≠ "" ∧
  (∀ w, where_clause o = Some w → stripped w) ∧
  (∀ w, group_by o = Some w → stripped w) ∧
  (∀ w, order_by o = Some w → stripped w) ∧
  Forall (λ c, stripped (cte_name c) ∧ stripped (cte_definition c)) (ctes o) ∧
  (∀ ps, parameters o = Some ps → Forall (λ p, stripped p ∧ p ≠ "") ps).
Proof.
  intros (self0 & statement & t & n & E & Ht & Hn & Hb)%emitted_build.
  destruct (build_object_fields _ _ _ _ _ _ Hb) as (_ & _ & -> & _).
  split; [apply strip_idemp|]. split.
  { unfold emits in E. by destruct (strip statement). }
  by eapply build_object_stripped.
Qed.

(** X17 at an example. *)
Lemma extracted_texts_stripped_witness :
  stripped (definition example_view) ∧ definition example_view ≠ "" ∧
  (∀ w, where_clause example_view = Some w → stripped w) ∧
  (∀ w, group_by example_view = Some w → stripped w) ∧
  (∀ w, order_by example_view = Some w → stripped w) ∧
  Forall (λ c, stripped (cte_name c) ∧ stripped (cte_definition c))
    (ctes example_view) ∧
  (∀ ps, parameters example_view = Some ps →
         Forall (λ p, stripped p ∧ p ≠ "") ps).
Proof.
  apply extracted_texts_stripped.
  exists SQLParser_init,
    "CREATE OR REPLACE VIEW v AS SELECT a, b FROM t WHERE x=1",
    {| objects := [example_view]; current_line := 1 |}.
  split; by vm_compute.
Defined.

(** ** Objects without components *)

Lemma build_object_no_clauses self d n t cs o :
  build_object self d n t cs = Some o →
  t ≠ VIEW → t ≠ MATERIALIZED_VIEW →
  where_clause o = None ∧ group_by o = None ∧ order_by o = None.
Proof.
  unfold build_object, _parse_function, _parse_table, _parse_index,
    _parse_trigger, _parse_grant, _create_basic_object.
  destruct t; try done; by intros [= <-].
Qed.

(** X18. For an extracted object that is neither a view, a materialized view nor
    a table (a function, an index, a trigger, a grant or a comment) the
    completeness is 100, whatever it is compared with. *)
Theorem completeness_vacuous (source_obj docker_obj : SQLObject) :
  emitted source_obj →
  type source_obj ∉ [VIEW; MATERIALIZED_VIEW; TABLE] →
  _calculate_completeness source_obj docker_obj = 100%Q.
Proof.
  intros (self0 & statement & t & n & E & Ht & Hn & Hb)%emitted_build Hty.
  destruct (build_object_fields _ _ _ _ _ _ Hb) as (_ & <- & _).
  assert (type source_obj ≠ VIEW) as H1 by (intros E1; apply Hty; rewrite E1; by left).
  assert (type source_obj ≠ MATERIALIZED_VIEW) as H2
    by (intros E1; apply Hty; rewrite E1; right; by left).
  assert (type source_obj ≠ TABLE) as H3
    by (intros E1; apply Hty; rewrite E1; right; right; by left).
  destruct (build_object_defaults _ _ _ _ _ _ Hb) as [Hd1 Hd2].
  destruct (Hd1 H1 H2) as [Hc Hj]. specialize (Hd2 H1 H2 H3).
  destruct (build_object_no_clauses _ _ _ _ _ _ Hb H1 H2) as (Hw & Hg & Ho).
  unfold _calculate_completeness, total_components.
  by rewrite Hc, Hj, Hd2, Hw, Hg, Ho.
Qed.

(** X18 at an example. *)
Lemma completeness_vacuous_witness :
  _calculate_completeness example_index example_table = 100%Q.
Proof.
  apply completeness_vacuous.
  - exists SQLParser_init, "CREATE INDEX i ON t (c)",
      {| objects := [example_index]; current_line := 1 |}.
    split; by vm_compute.
  - apply (bool_decide_unpack _). by vm_compute.
Defined.

(** ** When the extractor raises *)

Lemma partition_None sep s : partition sep s = None ↔ contains s sep = false.
Proof.
  induction s as [|c s IH].
  - destruct sep; by split.
  - cbn [partition contains]. destruct (startswith (String c s) sep); simpl.
    + by split.
    + rewrite <- IH. destruct (partition sep s) as [[l r]|]; by split.
Qed.

Lemma ctes_of_parts_None parts :
  ctes_of_parts parts = None ↔ Exists as_in_upper_only parts.
Proof.
  unfold as_in_upper_only. induction parts as [|p parts IH]; simpl.
  - split; [done|]. by intros ?%Exists_nil.
  - rewrite Exists_cons, <- IH.
    destruct (contains (upper (strip p)) " AS ") eqn:E.
    + destruct (partition " AS " (strip p)) as [[n d]|] eqn:Ep.
      * assert (contains (strip p) " AS " ≠ false) as Hc.
        { rewrite <- partition_None. by rewrite Ep. }
        destruct (ctes_of_parts parts); (split; [by auto|]); intros [[_ ?]|?]; done.
      * apply partition_None in Ep. split; auto.
    + split; [auto|]. by intros [[? _]|?].
Qed.

(** X19. [_extract_ctes] raises exactly when the WITH clause has, between two
    commas, a part whose upper-cased text contains [ AS ] while the part
    itself does not (an [as] that is not in capitals). *)
Theorem extract_ctes_raises_iff (select_statement : string) :
  _extract_ctes select_statement = None ↔
  ∃ with_clause,
    search_group1 re_SI with_pattern select_statement = Some with_clause ∧
    Exists as_in_upper_only (split "," with_clause).
Proof.
  unfold _extract_ctes.
  destruct (search_group1 re_SI with_pattern select_statement) as [wc|].
  - rewrite ctes_of_parts_None. split; [eauto|]. by intros (? & [= <-] & ?).
  - split; [done|]. by intros (? & ? & _).
Qed.

Lemma parse_statements_None parsed : ∀ self,
  parse_statements self parsed = None ↔ Exists (λ s, raises (strip s)) parsed.
Proof.
  induction parsed as [|s parsed IH]; intros self; simpl.
  - split; [done|]. by intros ?%Exists_nil.
  - rewrite Exists_cons, <- (parse_statement_None self).
    destruct (_parse_statement self s) as [self'|].
    + rewrite IH. split; [auto|]. by intros [?|?].
    + split; auto.
Qed.

(** X20. On the statements that [sqlparse.parse] returns, the loop of
    [parse_file] raises exactly when one of them is a view or a
    materialized view with a name on whose defining query [_extract_ctes]
    raises; statements of the other kinds never make it raise. *)
Theorem parse_file_raises_iff
    (sqlparse_parse : string → list string) (content : string) :
  parse_file sqlparse_parse content = None ↔
  Exists (λ s, raises (strip s)) (sqlparse_parse content).
Proof. unfold parse_file. by rewrite fmap_None, parse_statements_None. Qed.

(** ** The classifier reads one keyword *)

Lemma startswith_exclusive u k1 k2 :
  startswith u k1 = true → startswith k1 k2 = false → startswith k2 k1 = false →
  startswith u k2 = false.
Proof.
  revert k1 k2. induction u as [|c u IH]; intros k1 k2.
  - destruct k1, k2; done.
  - destruct k1 as [|a k1]; [by destruct k2|].
    destruct k2 as [|b k2]; [done|]. simpl.
    intros [H1 H2]%andb_true_iff. apply Ascii.eqb_eq in H1 as ->.
    destruct (Ascii.eqb b c) eqn:E; [|done].
    apply Ascii.eqb_eq in E as ->. rewrite Ascii.eqb_refl. simpl. by apply IH.
Qed.

(** X21. [_get_object_type] returns a type exactly when the upper-cased
    statement starts with the keyword of that type; the keywords exclude one
    another, so the order of the tests plays no part. *)
Theorem classification_by_keyword (statement : string) (t : SQLObjectType) :
  _get_object_type statement = Some t ↔
  ∃ kw, keyword t = Some kw ∧ startswith (upper statement) kw = true.
Proof.
  unfold _get_object_type. split.
  - repeat case_match; intros [= <-]; eauto.
  - intros (kw & Hk & H).
    destruct t; simpl in Hk; simplify_eq;
      repeat match goal with
      | |- context [startswith (upper statement) ?k] =>
          first
            [ rewrite H
            | rewrite (startswith_exclusive _ _ k H) by reflexivity ]
      end; reflexivity.
Qed.

(** ** The pieces of a split *)

Lemma contains_char a s : contains s (String a "") = negb (no_char a s).
Proof.
  unfold no_char. induction s as [|c s IH]; [done|].
  cbn [contains startswith all_chars]. rewrite IH, startswith_nil, andb_true_r.
  by destruct (Ascii.eqb a c).
Qed.

Lemma no_char_contains a s : no_char a s = true ↔ contains s (String a "") = false.
Proof. rewrite contains_char. by destruct (no_char a s). Qed.

Lemma partition_char_Some a s l r :
  partition (String a "") s = Some (l, r) →
  no_char a l = true ∧ s = l +:+ String a r.
Proof.
  unfold no_char. revert l. induction s as [|c s IH]; intros l; [done|].
  cbn [partition startswith String.length drop_chars].
  destruct (Ascii.eqb a c) eqn:E.
  - destruct s; simpl; intros [= <- <-]; apply Ascii.eqb_eq in E as ->; done.
  - simpl. destruct (partition (String a "") s) as [[l' r']|]; [|done].
    intros [= <- <-]. destruct (IH l' eq_refl) as [Hl ->].
    cbn [all_chars]. by rewrite E, Hl.
Qed.

Lemma partition_char_None a s :
  partition (String a "") s = None → no_char a s = true.
Proof. rewrite partition_None, contains_char. by destruct (no_char a s). Qed.

Lemma split_fuel_pieces a n : ∀ s,
  String.length s ≤ n →
  Forall (λ p, no_char a p = true) (split_fuel n (String a "") s).
Proof.
  induction n as [|n IH]; intros s Hn.
  - destruct s; [|simpl in Hn; lia]. by repeat constructor.
  - simpl. destruct (partition (String a "") s) as [[l r]|] eqn:E.
    + assert (String.length r < String.length s) as Hr
        by (by eapply partition_length; [|exact E]).
      destruct (partition_char_Some _ _ _ _ E) as [Hl _].
      constructor; [done|]. apply IH. lia.
    + repeat constructor. by apply partition_char_None.
Qed.

Lemma split_pieces a s : Forall (λ p, no_char a p = true) (split (String a "") s).
Proof. by apply split_fuel_pieces. Qed.

Lemma no_char_lstrip a s : no_char a s = true → no_char a (lstrip s) = true.
Proof.
  unfold no_char. induction s as [|c s IH]; [done|]. simpl.
  intros [Hc Hs]%andb_true_iff. destruct (is_space c); [auto|].
  simpl. by rewrite Hc, Hs.
Qed.

Lemma no_char_rstrip a s : no_char a s = true → no_char a (rstrip s) = true.
Proof.
  unfold no_char. induction s as [|c s IH]; [done|]. simpl.
  intros [Hc Hs]%andb_true_iff.
  destruct (is_empty (rstrip s) && is_space c); [done|].
  simpl. by rewrite Hc, IH.
Qed.

Lemma no_char_strip a s : no_char a s = true → no_char a (strip s) = true.
Proof. intros H. by apply no_char_rstrip, no_char_lstrip. Qed.

(** ** The columns of a view *)

Lemma column_of_item_shape col c :
  column_of_item col = Some c →
  c ≠ "" ∧ upper c ≠ "*" ∧ upper c ≠ "DISTINCT" ∧ contains c "." = false.
Proof.
  unfold column_of_item.
  set (x := sub_group1 re_0 call_pattern _).
  pose proof (split_pieces "." x) as Hp.
  destruct (last (split "." x)) as [y|] eqn:El; simpl; [|done].
  apply last_Some in El as [l' El]. rewrite El in Hp.
  apply Forall_app in Hp as [_ Hy]. rewrite Forall_singleton in Hy.
  destruct (is_empty y) eqn:Ey; [done|]. simpl.
  case_bool_decide as Hin; [done|]. intros [= <-].
  split_and!.
  - by destruct y.
  - intros E. apply Hin. rewrite E. by left.
  - intros E. apply Hin. rewrite E. right. by left.
  - apply no_char_contains. exact Hy.
Qed.

(** X22. No column that [_extract_columns] returns is empty, is [*] or
    [DISTINCT] in any letter case, or contains a dot. *)
Theorem view_columns_shape (select_statement : string) :
  Forall (λ c, c ≠ "" ∧ upper c ≠ "*" ∧ upper c ≠ "DISTINCT" ∧
               contains c "." = false)
    (_extract_columns select_statement).
Proof.
  unfold _extract_columns.
  destruct (search_group1 re_SI select_pattern select_statement) as [sc|];
    [|constructor].
  apply Forall_forall. intros c (col & _ & Hc)%list_elem_of_omap.
  by eapply column_of_item_shape.
Qed.

(** ** The columns of a table *)

Lemma split_ws_go_tokens s : ∀ cur,
  (∀ w, cur = Some w → is_token w = true) →
  Forall (λ w, is_token w = true) (split_ws_go cur s).
Proof.
  unfold is_token. induction s as [|c s IH]; intros cur Hcur; simpl.
  - destruct cur; repeat constructor. by apply Hcur.
  - destruct (is_space c) eqn:E.
    + apply Forall_app. split.
      * destruct cur; repeat constructor. by apply Hcur.
      * by apply IH.
    + apply IH. intros w [= <-]. destruct cur as [w0|]; simpl.
      * specialize (Hcur w0 eq_refl). apply andb_true_iff in Hcur as [H1 H2].
        rewrite all_chars_app, H2. simpl. rewrite E. simpl.
        by destruct w0.
      * by rewrite E.
Qed.

Lemma split_ws_tokens s : Forall (λ w, is_token w = true) (split_ws s).
Proof. by apply split_ws_go_tokens. Qed.

(** The first token is the start of the text when the text does not begin
    with whitespace. *)
Lemma split_ws_go_head s : ∀ w0 w,
  head (split_ws_go (Some w0) s) = Some w → ∃ u r, w = w0 +:+ u ∧ s = u +:+ r.
Proof.
  induction s as [|c s IH]; intros w0 w; simpl.
  - intros [= <-]. exists "", "". by rewrite sapp_nil_r.
  - destruct (is_space c).
    + simpl. intros [= <-]. exists "", (String c s). by rewrite sapp_nil_r.
    + intros (u & r & -> & ->)%IH. exists (String c u), r.
      by rewrite sapp_assoc, sapp_cons, sapp_nil_l, sapp_cons.
Qed.

Lemma split_ws_head_prefix s w :
  boundary is_space s = true → head (split_ws s) = Some w → startswith s w = true.
Proof.
  unfold split_ws. destruct s as [|c s]; [done|]. simpl.
  intros ->%negb_true_iff. simpl.
  intros (u & r & -> & ->)%split_ws_go_head.
  rewrite sapp_cons, sapp_nil_l. simpl. rewrite Ascii.eqb_refl. simpl.
  clear. induction u as [|a u IH]; simpl; [by destruct r|].
  by rewrite Ascii.eqb_refl.
Qed.

Lemma startswith_trans s w p :
  startswith s w = true → startswith w p = true → startswith s p = true.
Proof.
  revert s w. induction p as [|a p IH]; intros s w; [by destruct s|].
  destruct w as [|b w]; [done|]. destruct s as [|c s]; [done|]. simpl.
  intros [H1 H2]%andb_true_iff [H3 H4]%andb_true_iff.
  apply Ascii.eqb_eq in H1 as ->. rewrite H3. simpl. by eapply IH.
Qed.

Lemma startswith_upper s w :
  startswith s w = true → startswith (upper s) (upper w) = true.
Proof.
  revert s. induction w as [|a w IH]; intros s; [by destruct s|].
  destruct s as [|c s]; [done|]. simpl. intros [H1 H2]%andb_true_iff.
  apply Ascii.eqb_eq in H1 as ->. rewrite Ascii.eqb_refl. simpl. by apply IH.
Qed.

Lemma column_of_def_shape col_def c :
  no_char "," col_def = true →
  column_of_def col_def = Some c →
  is_token c = true ∧ contains c "," = false ∧
  startswith (strip col_def) c = true ∧
  startswith (upper c) "UNIQUE" = false ∧ startswith (upper c) "CHECK" = false.
Proof.
  unfold column_of_def. intros Hcomma.
  destruct (is_empty (strip col_def)) eqn:Ee; [done|]. cbn [negb andb].
  destruct (existsb (startswith (upper (strip col_def))) constraint_keywords)
    eqn:Ek; [done|]. cbn [negb].
  destruct (split_ws_head col_def Ee) as [w Hw]. rewrite Hw. simpl.
  intros [= <-].
  assert (startswith (strip col_def) w = true) as Hpre.
  { apply split_ws_head_prefix; [|done].
    destruct (strip_head col_def) as [E|(a & r & -> & Ha)]; [by rewrite E|].
    simpl. by rewrite Ha. }
  pose proof (split_ws_tokens (strip col_def)) as Ht.
  destruct (split_ws (strip col_def)) as [|w' l]; [done|].
  injection Hw as ->. apply Forall_cons in Ht as [Ht _].
  simpl in Ek. apply orb_false_iff in Ek as [_ Ek].
  apply orb_false_iff in Ek as [_ Ek]. apply orb_false_iff in Ek as [Eu Ek].
  apply orb_false_iff in Ek as [Ec _].
  split_and!; [done| |done| |].
  - apply no_char_contains. apply no_char_strip in Hcomma.
    apply startswith_app in Hpre as [r Hr]. unfold no_char in *.
    rewrite Hr, all_chars_app in Hcomma. by apply andb_true_iff in Hcomma as [? _].
  - destruct (startswith (upper w) "UNIQUE") eqn:E; [|done].
    rewrite <- Eu. symmetry. eapply startswith_trans; [|exact E].
    by apply startswith_upper.
  - destruct (startswith (upper w) "CHECK") eqn:E; [|done].
    rewrite <- Ec. symmetry. eapply startswith_trans; [|exact E].
    by apply startswith_upper.
Qed.

(** X23. Every column that [_extract_table_columns] returns is a token (not
    empty, without whitespace) without a comma, and none starts, letter case
    apart, with UNIQUE or CHECK: a column whose name starts so is taken for
    a constraint and left out. *)
Theorem table_columns_shape (table_statement : string) :
  Forall (λ c, is_token c = true ∧ contains c "," = false ∧
               startswith (upper c) "UNIQUE" = false ∧
               startswith (upper c) "CHECK" = false)
    (_extract_table_columns table_statement).
Proof.
  unfold _extract_table_columns.
  destruct (search_group1 re_S table_columns_pattern table_statement) as [cs|];
    [|constructor].
  apply Forall_forall. intros c (col & Hin & Hc)%list_elem_of_omap.
  pose proof (split_pieces "," cs) as Hp. rewrite Forall_forall in Hp.
  destruct (column_of_def_shape col c (Hp _ Hin) Hc) as (? & ? & _ & ? & ?).
  done.
Qed.

(** ** The column list of a table: between the first parentheses *)

Lemma lstrip_split s : ∃ sp, s = sp +:+ lstrip s ∧ all_chars is_space sp = true.
Proof.
  induction s as [|c s (sp & IH & Hsp)]; [by exists ""|]. simpl.
  destruct (is_space c) eqn:E; [|by exists ""].
  exists (String c sp). rewrite sapp_cons, <- IH. simpl. by rewrite E.
Qed.

Lemma rstrip_blank s : all_chars is_space s = true → rstrip s = "".
Proof.
  induction s as [|c s IH]; [done|]. simpl.
  intros [Hc Hs]%andb_true_iff. by rewrite IH, Hc.
Qed.

Lemma rstrip_split s : ∃ tr, s = rstrip s +:+ tr ∧ all_chars is_space tr = true.
Proof.
  induction s as [|c s (tr & IH & Htr)]; [by exists ""|]. simpl.
  destruct (is_empty (rstrip s) && is_space c) eqn:E.
  - exists (String c s). split; [done|].
    apply andb_true_iff in E as [E1 E2]. simpl. rewrite E2. simpl.
    destruct (rstrip s); [|done]. by rewrite IH.
  - exists tr. by rewrite sapp_cons, <- IH.
Qed.

Lemma rstrip_suffix_not_blank u : ∀ v,
  rstrip (u +:+ v) = u +:+ v → v ≠ "" → all_chars is_space v = false.
Proof.
  induction u as [|c u IH]; intros v.
  - rewrite sapp_nil_l. intros H Hv.
    destruct (all_chars is_space v) eqn:E; [|done].
    rewrite rstrip_blank in H by done. by destruct v.
  - rewrite sapp_cons. simpl.
    destruct (is_empty (rstrip (u +:+ v)) && is_space c); [done|].
    intros [= H]. by apply IH.
Qed.

Lemma greedy_space_blocked (a : ascii) v X : ∀ k : string → string → option mres,
  (∀ t r, startswith r (String a "") = false → k t r = None) →
  no_char a v = true → all_chars is_space v = false →
  star_greedy is_space (v +:+ X) k = None.
Proof.
  unfold no_char. induction v as [|c v IH]; intros k Hk; [done|].
  rewrite sapp_cons. simpl. intros [Hc Hv]%andb_true_iff Hsp.
  assert (k "" (String c (v +:+ X)) = None) as Hhere.
  { apply Hk. simpl. apply negb_true_iff in Hc. by rewrite Hc. }
  destruct (is_space c); [|done]. simpl in Hsp.
  rewrite (IH (λ t r, k (String c t) r)); [done| |done|done].
  intros t r Hr. by apply Hk.
Qed.

Lemma star_lazy_skip_prefix p w s : ∀ k : string → string → option mres,
  all_chars p w = true →
  (∀ u v, w = u +:+ v → v ≠ "" → k u (v +:+ s) = None) →
  star_lazy p (w +:+ s) k = star_lazy p s (λ t r, k (w +:+ t) r).
Proof.
  induction w as [|c w IH]; intros k; [done|].
  cbn [all_chars]. intros [Hc Hw]%andb_true_iff Hk.
  rewrite sapp_cons, star_lazy_step; [| |done].
  - rewrite IH; [done|done|]. intros u v -> Hv.
    apply (Hk (String c u) v); [by rewrite sapp_cons|done].
  - rewrite <- sapp_cons. by apply (Hk "" (String c w)).
Qed.

Lemma all_chars_dot_S w : all_chars (cset_mem re_S Dot) w = true.
Proof. by induction w. Qed.

Lemma rmatch_one_here fl cs b s c k :
  cset_mem fl cs b = true →
  rmatch fl (One cs) (String b s) c k = k (String b "") s c.
Proof. intros H. simpl. by rewrite H. Qed.

Lemma rmatch_one_blocked fl cs s c k :
  boundary (cset_mem fl cs) s = true → rmatch fl (One cs) s c k = None.
Proof. destruct s as [|b s]; [done|]. simpl. by intros ->%negb_true_iff. Qed.

Lemma close_paren_blocked r c (k : cont) :
  startswith r ")" = false → rmatch re_S (One (Lit ")")) r c k = None.
Proof.
  intros H. apply rmatch_one_blocked. destruct r as [|b r]; [done|].
  simpl in *. rewrite startswith_nil, andb_true_r in H. by rewrite H.
Qed.

Lemma table_columns_match_parts sp core tr post :
  all_chars is_space sp = true → all_chars is_space tr = true →
  rstrip core = core → no_char ")" core = true →
  boundary is_space (core +:+ tr +:+ String ")" post) = true →
  ∃ t rest c,
    rmatch re_S table_columns_pattern
      (String "(" (sp +:+ core +:+ tr +:+ String ")" post)) [] accept =
      Some (t, rest, c) ∧
    group 1 c = Some core.
Proof.
  intros Hsp Htr Hsolid Hcore Hb.
  unfold table_columns_pattern.
  rewrite rmatch_seq, rmatch_one_here by done.
  rewrite rmatch_seq, rmatch_star_greedy.
  eexists _, _, _.
  erewrite star_greedy_app_Some; [split; [reflexivity|]|exact Hsp|exact Hb|].
  2:{ rewrite rmatch_seq, rmatch_group, rmatch_star_lazy.
      rewrite star_lazy_skip_prefix; [|apply all_chars_dot_S|].
      - apply star_lazy_here. rewrite sapp_nil_r.
        rewrite rmatch_seq, rmatch_star_greedy.
        erewrite star_greedy_app_Some; [reflexivity|exact Htr|done|].
        rewrite rmatch_one_here by done. reflexivity.
      - intros u v Huv Hv.
        rewrite rmatch_seq, rmatch_star_greedy.
        apply (greedy_space_blocked ")").
        + intros t r Hr. by apply close_paren_blocked.
        + unfold no_char in *. rewrite Huv, all_chars_app in Hcore.
          by apply andb_true_iff in Hcore as [_ ?].
        + apply (rstrip_suffix_not_blank u); [|done]. by rewrite <- Huv. }
  reflexivity.
Qed.

Lemma strip_split mid :
  ∃ sp tr,
    mid = sp +:+ strip mid +:+ tr ∧
    all_chars is_space sp = true ∧ all_chars is_space tr = true ∧
    ∀ X, boundary is_space X = true →
         boundary is_space (strip mid +:+ tr +:+ X) = true.
Proof.
  destruct (lstrip_split mid) as (sp & Hsp & Hsp_all).
  destruct (rstrip_split (lstrip mid)) as (tr & Htr & Htr_all).
  fold (strip mid) in Htr.
  exists sp, tr. split; [by rewrite <- Htr|]. split; [done|]. split; [done|].
  intros X HX.
  destruct (strip_head mid) as [E|(a & r & E & Ha)]; rewrite E.
  - rewrite sapp_nil_l. rewrite E, sapp_nil_l in Htr.
    destruct (lstrip_head mid) as [E'|(a' & r' & E' & Ha')].
    + rewrite E' in Htr. by rewrite <- Htr, sapp_nil_l.
    + rewrite E' in Htr. destruct tr as [|b tr]; [done|].
      injection Htr as -> _. simpl in Htr_all. by rewrite Ha' in Htr_all.
  - rewrite sapp_cons. simpl. by rewrite Ha.
Qed.

Lemma table_columns_match mid post :
  no_char ")" mid = true →
  ∃ t rest c,
    rmatch re_S table_columns_pattern (String "(" (mid +:+ String ")" post))
      [] accept = Some (t, rest, c) ∧
    group 1 c = Some (strip mid).
Proof.
  intros Hmid.
  destruct (strip_split mid) as (sp & tr & Hd & Hsp & Htr & Hb).
  pose proof (rstrip_idemp (lstrip mid)) as Hsolid. fold (strip mid) in Hsolid.
  pose proof (no_char_strip _ _ Hmid) as Hcore.
  remember (strip mid) as core eqn:Ecore. clear Ecore.
  rewrite Hd, !sapp_assoc.
  apply table_columns_match_parts; [done|done|done|done|by apply Hb].
Qed.

Lemma table_columns_search pre : ∀ mid post,
  no_char "(" pre = true → no_char ")" mid = true →
  search_group1 re_S table_columns_pattern
    (pre +:+ String "(" (mid +:+ String ")" post)) = Some (strip mid).
Proof.
  unfold no_char. induction pre as [|b pre IH]; intros mid post Hpre Hmid.
  - rewrite sapp_nil_l.
    destruct (table_columns_match mid post Hmid) as (t & rest & c & H & Hg).
    rewrite (search_here _ _ _ _ _ _ H). by rewrite Hg.
  - simpl in Hpre. apply andb_true_iff in Hpre as [Hb Hpre].
    rewrite sapp_cons, search_group1_skip; [by apply IH|].
    unfold table_columns_pattern. rewrite rmatch_seq.
    apply rmatch_one_blocked. simpl. by rewrite Hb.
Qed.

Lemma table_columns_no_paren s :
  no_char "(" s = true → search_group1 re_S table_columns_pattern s = None.
Proof.
  intros Hs. unfold search_group1.
  rewrite (search_none (λ c, negb (Ascii.eqb "(" c))); [done| |done].
  intros s' Hs'. unfold table_columns_pattern. rewrite rmatch_seq.
  apply rmatch_one_blocked. destruct s' as [|b s']; [done|].
  simpl in *. by apply andb_true_iff in Hs' as [-> _].
Qed.

(** X24. [_extract_table_columns] reads the column list between the first
    opening parenthesis of the statement and the first closing parenthesis
    after it: the columns are those of the stripped text between the two,
    cut at its commas. A type with parentheses, as NUMERIC(10,2), ends the
    list. *)
Theorem table_columns_first_parentheses (pre mid post : string) :
  no_char "(" pre = true → no_char ")" mid = true →
  _extract_table_columns (pre +:+ "(" +:+ mid +:+ ")" +:+ post) =
    omap column_of_def (split "," (strip mid)).
Proof.
  intros Hpre Hmid. unfold _extract_table_columns.
  rewrite !sapp_cons, !sapp_nil_l.
  by rewrite table_columns_search.
Qed.

(** X24 at an example. *)
Lemma table_columns_first_parentheses_witness :
  _extract_table_columns
    ("CREATE TABLE t " +:+ "(" +:+ "id NUMERIC(10,2" +:+ ")" +:+ ", name TEXT)") =
    omap column_of_def (split "," (strip "id NUMERIC(10,2")).
Proof.
  apply table_columns_first_parentheses; reflexivity.
Defined.

(** ** The entries of a WITH clause *)

Lemma drop_chars_app p r : drop_chars (String.length p) (p +:+ r) = r.
Proof. induction p as [|c p IH]; [by destruct r|]. by rewrite sapp_cons. Qed.

Lemma partition_Some sep s : ∀ l r,
  partition sep s = Some (l, r) → s = l +:+ sep +:+ r.
Proof.
  induction s as [|c s IH]; intros l r.
  - destruct sep; [|done]. by intros [= <- <-].
  - cbn [partition]. destruct (startswith (String c s) sep) eqn:E.
    + intros [= <- <-]. apply startswith_app in E as [r' E].
      by rewrite E, drop_chars_app, sapp_nil_l.
    + destruct (partition sep s) as [[l' r']|]; [|done].
      intros [= <- <-]. by rewrite (IH l' r' eq_refl), sapp_cons.
Qed.

Lemma strip_blank s : strip s = "" ↔ all_chars is_space s = true.
Proof.
  split.
  - intros E. destruct (strip_split s) as (sp & tr & Hd & Hsp & Htr & _).
    rewrite E, sapp_nil_l in Hd. by rewrite Hd, all_chars_app, Hsp, Htr.
  - intros H. unfold strip.
    assert (lstrip s = "") as ->; [|done].
    induction s as [|c s IH]; [done|]. simpl in *.
    apply andb_true_iff in H as [-> H]. by apply IH.
Qed.

Lemma stripped_suffix_not_blank u v :
  stripped (u +:+ v) → v ≠ "" → strip v ≠ "".
Proof.
  unfold stripped, strip at 1. intros H Hv E. apply strip_blank in E.
  assert (rstrip (u +:+ v) = u +:+ v) as Hr.
  { rewrite <- H. apply rstrip_idemp. }
  by rewrite (rstrip_suffix_not_blank u v Hr Hv) in E.
Qed.

Lemma stripped_prefix_not_blank u v :
  stripped (u +:+ v) → u ≠ "" → strip u ≠ "".
Proof.
  unfold stripped. intros H Hu E. apply strip_blank in E.
  destruct u as [|c u]; [done|]. simpl in E. apply andb_true_iff in E as [Hc _].
  destruct (strip_head (String c u +:+ v)) as [E'|(a & r & E' & Ha)];
    rewrite H, sapp_cons in E'; [done|].
  injection E' as -> _. congruence.
Qed.

Lemma cte_part_shape part n d :
  no_char "," part = true →
  partition " AS " (strip part) = Some (n, d) →
  strip n ≠ "" ∧ strip d ≠ "" ∧
  no_char "," (strip n) = true ∧ no_char "," (strip d) = true.
Proof.
  intros Hc Hp. apply partition_Some in Hp.
  pose proof (strip_idemp part) as Hs. fold (stripped (strip part)) in Hs.
  apply no_char_strip in Hc. rewrite Hp in Hs, Hc.
  unfold no_char in Hc. rewrite !all_chars_app in Hc.
  apply andb_true_iff in Hc as [Hn [_ Hd]%andb_true_iff].
  split_and!.
  - apply (stripped_prefix_not_blank n (" AS " +:+ d)); [done|].
    intros ->. rewrite sapp_nil_l in Hs.
    destruct (strip_head (" AS " +:+ d)) as [E|(a & r & E & Ha)];
      rewrite Hs, sapp_cons in E; [done|]. by injection E as <- _.
  - rewrite <- sapp_assoc in Hs.
    apply (stripped_suffix_not_blank (n +:+ " AS ") d); [done|].
    intros ->. rewrite sapp_nil_r in Hs.
    assert (strip " " ≠ "") as Hne; [|by apply Hne].
    apply (stripped_suffix_not_blank (n +:+ " AS") " "); [|done].
    by rewrite sapp_assoc.
  - by apply no_char_strip.
  - by apply no_char_strip.
Qed.

Lemma ctes_of_parts_shape parts : ∀ l,
  Forall (λ p, no_char "," p = true) parts →
  ctes_of_parts parts = Some l →
  Forall (λ c, cte_name c ≠ "" ∧ cte_definition c ≠ "" ∧
               no_char "," (cte_name c) = true ∧
               no_char "," (cte_definition c) = true) l ∧
  length l ≤ length parts.
Proof.
  induction parts as [|p parts IH]; intros l Hc; simpl.
  - intros [= <-]. split; [constructor|done].
  - apply Forall_cons in Hc as [Hp Hc].
    destruct (contains (upper (strip p)) " AS ").
    + destruct (partition " AS " (strip p)) as [[n d]|] eqn:E; [|done].
      destruct (ctes_of_parts parts) as [l'|]; [|done].
      intros [= <-]. destruct (IH l' Hc eq_refl) as [Hl Hlen].
      split; [|simpl; lia]. constructor; [|done].
      by apply (cte_part_shape p).
    + intros H. destruct (IH l Hc H) as [Hl Hlen]. split; [done|lia].
Qed.

(** X25. Every CTE entry that [_extract_ctes] returns has a name and a
    definition that are not empty and contain no comma: the WITH clause is
    cut at every comma, also inside a definition. *)
Theorem ctes_shape (select_statement : string) (l : list cte_entry) :
  _extract_ctes select_statement = Some l →
  Forall (λ c, cte_name c ≠ "" ∧ cte_definition c ≠ "" ∧
               contains (cte_name c) "," = false ∧
               contains (cte_definition c) "," = false) l.
Proof.
  unfold _extract_ctes.
  destruct (search_group1 re_SI with_pattern select_statement) as [wc|].
  - intros [H _]%ctes_of_parts_shape; [|apply split_pieces].
    eapply Forall_impl; [exact H|]. intros c (? & ? & ? & ?).
    by rewrite <- !no_char_contains.
  - intros [= <-]. constructor.
Qed.

(** X25 at an example. *)
Lemma ctes_shape_witness :
  Forall (λ c, cte_name c ≠ "" ∧ cte_definition c ≠ "" ∧
               contains (cte_name c) "," = false ∧
               contains (cte_definition c) "," = false)
    [{| cte_name := "c"; cte_definition := "(SELECT a" |}].
Proof.
  apply (ctes_shape "WITH c AS (SELECT a, b FROM t) SELECT a FROM c").
  by vm_compute.
Defined.

(** ** What the matcher returns is a match *)

Lemma star_greedy_matches p s : ∀ k x,
  star_greedy p s k = Some x →
  ∃ t s', s = t +:+ s' ∧ all_chars p t = true ∧ k t s' = Some x.
Proof.
  induction s as [|b s IH]; intros k x; simpl.
  - intros H. by exists "", "".
  - destruct (p b) eqn:Hb; [|intros H; by exists "", (String b s)].
    destruct (star_greedy p s _) as [y|] eqn:E.
    + intros [= <-]. apply IH in E as (t & s' & -> & Ht & Hk).
      exists (String b t), s'. rewrite sapp_cons. simpl. by rewrite Hb, Ht.
    + intros H. by exists "", (String b s).
Qed.

Lemma star_lazy_matches p s : ∀ k x,
  star_lazy p s k = Some x →
  ∃ t s', s = t +:+ s' ∧ all_chars p t = true ∧ k t s' = Some x.
Proof.
  induction s as [|b s IH]; intros k x; simpl.
  - destruct (k "" "") eqn:E; [|done]. intros [= <-]. by exists "", "".
  - destruct (k "" (String b s)) eqn:E.
    + intros [= <-]. by exists "", (String b s).
    + destruct (p b) eqn:Hb; [|done].
      intros (t & s' & -> & Ht & Hk)%IH.
      exists (String b t), s'. rewrite sapp_cons. simpl. by rewrite Hb, Ht.
Qed.

Lemma rmatch_matches fl r : ∀ s c k x,
  rmatch fl r s c k = Some x →
  ∃ t s' c', s = t +:+ s' ∧ matches fl r t s' c c' ∧ k t s' c' = Some x.
Proof.
  induction r as [|cs|g cs|r1 IH1 r2 IH2|r1 IH1 r2 IH2|n r IH| |r IH];
    intros s c k x; simpl.
  - intros H. exists "", s, c. split; [done|]. split; [constructor|done].
  - destruct s as [|b s]; [done|]. destruct (cset_mem fl cs b) eqn:E; [|done].
    intros H. exists (String b ""), s, c. split; [done|].
    split; [by constructor|done].
  - destruct g.
    + intros (t & s' & -> & Ht & Hk)%star_greedy_matches.
      exists t, s', c. split; [done|]. split; [by constructor|done].
    + intros (t & s' & -> & Ht & Hk)%star_lazy_matches.
      exists t, s', c. split; [done|]. split; [by constructor|done].
  - intros (t1 & s1 & c1 & -> & H1 & Hk)%IH1.
    apply IH2 in Hk as (t2 & s2 & c2 & -> & H2 & Hk).
    exists (t1 +:+ t2), s2, c2. rewrite sapp_assoc. split; [done|].
    split; [by econstructor|done].
  - destruct (rmatch fl r1 s c k) as [y|] eqn:E.
    + intros [= <-]. apply IH1 in E as (t & s' & c' & -> & H & Hk).
      exists t, s', c'. split; [done|]. split; [by apply matches_alt_l|done].
    + intros (t & s' & c' & -> & H & Hk)%IH2.
      exists t, s', c'. split; [done|]. split; [by apply matches_alt_r|done].
  - intros (t & s' & c' & -> & H & Hk)%IH.
    exists t, s', ((n, t) :: c'). split; [done|]. split; [by constructor|done].
  - destruct (at_end s) eqn:E; [|done]. intros H.
    exists "", s, c. split; [done|]. split; [by constructor|done].
  - destruct (rmatch fl r s c accept) as [[[t0 r0] c0]|] eqn:E; [|done].
    intros H. apply IH in E as (t & s' & c' & -> & Hm & [= <- <- <-]).
    exists "", (t +:+ s'), c'. split; [done|].
    split; [by econstructor|done].
Qed.

Lemma search_matches fl r s : ∀ pre t rest c,
  search fl r s = Some (pre, (t, rest, c)) →
  s = pre +:+ t +:+ rest ∧ matches fl r t rest [] c.
Proof.
  induction s as [|b s IH]; intros pre t rest c; simpl.
  - destruct (rmatch fl r "" [] accept) as [m|] eqn:E; [|done].
    intros [= <- ->].
    by apply rmatch_matches in E as (t' & s' & c' & Hs & Hm & [= <- <- <-]).
  - destruct (rmatch fl r (String b s) [] accept) as [m|] eqn:E.
    + intros [= <- ->].
      by apply rmatch_matches in E as (t' & s' & c' & Hs & Hm & [= <- <- <-]).
    + destruct (search fl r s) as [[pre' m]|] eqn:Es; [|done].
      intros [= <- ->]. destruct (IH _ _ _ _ eq_refl) as [-> Hm].
      by rewrite sapp_cons.
Qed.

Lemma finditer_fuel_matches fl r n : ∀ s,
  Forall (λ m : mres, matches fl r m.1.1 m.1.2 [] m.2) (finditer_fuel n fl r s).
Proof.
  induction n as [|n IH]; intros s; simpl; [constructor|].
  destruct (search fl r s) as [[pre [[t rest] c]]|] eqn:E; [|constructor].
  apply search_matches in E as [_ Hm].
  constructor; [done|].
  destruct (is_empty t); [|apply IH]. destruct rest; [constructor|apply IH].
Qed.

(** ** Matches of the patterns *)

Lemma matches_group_free fl r t rest c c' :
  matches fl r t rest c c' → group_free r = true → c' = c.
Proof.
  induction 1; simpl; try done.
  - intros [H1 H2]%andb_true_iff. rewrite IHmatches2, IHmatches1; done.
  - intros [H1 H2]%andb_true_iff. auto.
  - intros [H1 H2]%andb_true_iff. auto.
Qed.

Lemma matches_plus fl cs t rest c c' :
  matches fl (plus cs) t rest c c' →
  c' = c ∧ t ≠ "" ∧ all_chars (cset_mem fl cs) t = true.
Proof.
  unfold plus. intros H. inversion H as [| | |? ? t1 t2 ? ? c1 ? H1 H2| | | | |]; subst.
  inversion H1; subst. inversion H2; subst.
  rewrite sapp_cons, sapp_nil_l. split; [done|]. split; [done|].
  simpl. by rewrite andb_true_iff.
Qed.

Lemma matches_word fl t rest c c' :
  matches fl (plus Word) t rest c c' → c' = c ∧ is_ident t = true.
Proof.
  intros (-> & Ht & Hw)%matches_plus. split; [done|]. unfold is_ident.
  rewrite andb_true_iff. split; [by destruct t|done].
Qed.

Lemma matches_qualified fl n t rest c c' :
  matches fl (qualified n) t rest c c' → c' = (n, t) :: c ∧ qualified_name t.
Proof.
  unfold qualified, opt. intros H.
  inversion H as [| | | | | |? ? ? ? ? c1 H1|  |]; subst.
  inversion H1 as [| | |? ? t1 t2 ? ? c2 ? Hw Ho| | | | |]; subst.
  apply matches_word in Hw as [-> Hw].
  inversion Ho as [| | | |? ? ? ? ? ? Hd|? ? ? ? ? ? He| | |]; subst.
  - inversion Hd as [| | |? ? t3 t4 ? ? c3 ? Hdot Hw2| | | | |]; subst.
    apply matches_word in Hw2 as [-> Hw2].
    inversion Hdot as [|? b ? ? Hb| | | | | | |]; subst.
    split; [done|]. exists t1. split; [done|]. right. exists t4. split; [done|].
    assert (b = "."%char) as ->; [|done].
    destruct (Ascii.eqb b ".") eqn:Eb; [by apply Ascii.eqb_eq in Eb|].
    by rewrite lit_dot_false in Hb.
  - inversion He; subst. rewrite sapp_nil_r. split; [done|].
    exists t1. split; [done|]. by left.
Qed.

Lemma matches_ends_qualified fl n r : ∀ t rest c c',
  matches fl r t rest c c' → ends_qualified n r = true →
  ∃ u g, t = u +:+ g ∧ c' = (n, g) :: c ∧ qualified_name g.
Proof.
  induction r as [| | |r1 IH1 r2 IH2| |m r IH| |]; intros t rest c c' H; try done.
  - simpl. intros [H1 H2]%andb_true_iff.
    inversion H as [| | |? ? t1 t2 ? ? c1 ? Hm1 Hm2| | | | |]; subst.
    apply matches_group_free in Hm1 as ->; [|done].
    destruct (IH2 _ _ _ _ Hm2 H2) as (u & g & -> & -> & Hq).
    exists (t1 +:+ u), g. by rewrite sapp_assoc.
  - simpl. intros E%bool_decide_eq_true. rewrite E in H.
    apply matches_qualified in H as [-> Hq]. exists "", t. by rewrite sapp_nil_l.
Qed.

Lemma name_pattern_ends_qualified t pattern :
  name_pattern t = Some pattern → ends_qualified 1 pattern = true.
Proof. destruct t; intros [= <-]; by vm_compute. Qed.

(** X26. A name that [_extract_object_name] returns is one identifier, or two
    with a dot between them, and it occurs in the statement; so it is never
    empty. *)
Theorem object_name_shape (statement : string) (obj_type : SQLObjectType)
    (n : string) :
  _extract_object_name statement obj_type = Some n →
  qualified_name n ∧ ∃ pre post, statement = pre +:+ n +:+ post.
Proof.
  unfold _extract_object_name, search_group1.
  destruct (name_pattern obj_type) as [pattern|] eqn:Ep; [|done].
  apply name_pattern_ends_qualified in Ep.
  destruct (search re_I pattern statement) as [[pre [[t rest] c]]|] eqn:Es; [|done].
  apply search_matches in Es as [-> Hm].
  destruct (matches_ends_qualified _ _ _ _ _ _ _ Hm Ep) as (u & g & -> & -> & Hq).
  simpl. intros [= <-]. split; [done|].
  exists (pre +:+ u), rest. by rewrite !sapp_assoc.
Qed.

(** X26 at an example. *)
Lemma object_name_shape_witness :
  qualified_name "s.t" ∧
  ∃ pre post, "CREATE TABLE s.t (id INT)" = pre +:+ "s.t" +:+ post.
Proof.
  apply (object_name_shape "CREATE TABLE s.t (id INT)" TABLE). by vm_compute.
Defined.

(** ** The comments of a statement *)

Lemma matches_seq_inv fl r1 r2 t rest c c' :
  matches fl (Seq r1 r2) t rest c c' →
  ∃ t1 t2 c1, t = t1 +:+ t2 ∧ matches fl r1 t1 (t2 +:+ rest) c c1 ∧
              matches fl r2 t2 rest c1 c'.
Proof. intros H. inversion H; subst. eauto 10. Qed.

Lemma matches_alt_inv fl r1 r2 t rest c c' :
  matches fl (Alt r1 r2) t rest c c' →
  matches fl r1 t rest c c' ∨ matches fl r2 t rest c c'.
Proof. intros H. inversion H; subst; auto. Qed.

Lemma matches_group_inv fl n r t rest c c' :
  matches fl (Group n r) t rest c c' →
  ∃ c1, c' = (n, t) :: c1 ∧ matches fl r t rest c c1.
Proof. intros H. inversion H; subst. eauto. Qed.

Lemma matches_one_inv fl cs t rest c c' :
  matches fl (One cs) t rest c c' →
  ∃ b, t = String b "" ∧ cset_mem fl cs b = true ∧ c' = c.
Proof. intros H. inversion H; subst. eauto. Qed.

Lemma matches_lit_upper fl p : ∀ t rest c c',
  matches fl (lit p) t rest c c' →
  upper t = upper p ∧ c' = c ∧ (IGNORECASE fl = false → t = p).
Proof.
  induction p as [|a p IH]; intros t rest c c'.
  - simpl. intros H. by inversion H; subst.
  - assert (∀ b, cset_mem fl (Lit a) b = true →
                 to_upper b = to_upper a ∧ (IGNORECASE fl = false → b = a)) as Hc.
    { intros b Hb. split; [by eapply lit_to_upper|].
      intros Hi. simpl in Hb. rewrite Hi in Hb. by apply Ascii.eqb_eq in Hb. }
    destruct p as [|a' p].
    + simpl. intros (b & -> & Hb & ->)%matches_one_inv.
      destruct (Hc b Hb) as [Hu He]. simpl. rewrite Hu.
      split; [done|]. split; [done|]. intros Hi. by rewrite He.
    + change (lit (String a (String a' p)))
        with (Seq (One (Lit a)) (lit (String a' p))).
      intros (t1 & t2 & c1 & -> & (b & -> & Hb & ->)%matches_one_inv & H2)%matches_seq_inv.
      destruct (IH _ _ _ _ H2) as (Hu2 & -> & He2).
      destruct (Hc b Hb) as [Hu He].
      rewrite sapp_cons, sapp_nil_l. cbn [upper]. rewrite Hu, Hu2.
      split; [done|]. split; [done|]. intros Hi. by rewrite He, He2.
Qed.

Lemma dash_comments_shape lines :
  Forall (λ c, stripped c ∧ startswith c "--" = true) (dash_comments lines).
Proof.
  induction lines as [|l lines IH]; simpl; [constructor|].
  destruct (startswith (strip l) "--") eqn:E; [|done].
  constructor; [|done]. split; [apply strip_idemp|done].
Qed.

Lemma block_comment_stripped mid : stripped ("/*" +:+ mid +:+ "*/").
Proof.
  unfold stripped, strip.
  assert (lstrip ("/*" +:+ mid +:+ "*/") = "/*" +:+ mid +:+ "*/") as ->.
  { apply (startswith_lstrip "/" "*"); [done|].
    rewrite !sapp_cons, sapp_nil_l. simpl. by rewrite startswith_nil. }
  rewrite <- sapp_assoc. by rewrite rstrip_app_nonempty.
Qed.

(** X27. Every comment that [_extract_comments] returns has no whitespace at
    either end and either starts with two dashes or is a block that starts
    with the opening and ends with the closing comment mark. *)
Theorem comments_shape (statement : string) :
  Forall (λ c, stripped c ∧
               (startswith c "--" = true ∨ ∃ mid, c = "/*" +:+ mid +:+ "*/"))
    (_extract_comments statement).
Proof.
  unfold _extract_comments, findall, finditer. apply Forall_app. split.
  - eapply Forall_impl; [apply dash_comments_shape|]. intros c [? ?]. auto.
  - apply Forall_fmap.
    eapply Forall_impl; [apply finditer_fuel_matches|].
    intros [[t rest] c]. simpl. unfold multi_line_pattern.
    intros (t1 & t' & c1 & -> & H1 & H')%matches_seq_inv.
    apply matches_seq_inv in H' as (t2 & t3 & c2 & -> & H2 & H3).
    apply matches_lit_upper in H1 as (_ & _ & ->); [|done].
    apply matches_lit_upper in H3 as (_ & _ & ->); [|done].
    split; [apply block_comment_stripped|]. right. by exists t2.
Qed.

(** ** The joins of a query *)

Lemma to_upper_space c : is_space c = true → to_upper c = c.
Proof. by destruct c as [[] [] [] [] [] [] [] []]. Qed.

Lemma upper_spaces ws : all_chars is_space ws = true → upper ws = ws.
Proof.
  induction ws as [|c ws IH]; [done|]. simpl.
  intros [Hc Hw]%andb_true_iff. by rewrite IH, to_upper_space.
Qed.

Lemma matches_ws fl t rest c c' :
  matches fl (plus Space) t rest c c' → c' = c ∧ blank t.
Proof. intros (-> & Ht & Hs)%matches_plus. by split. Qed.

Lemma matches_kw_ws_kw fl p q t rest c c' :
  matches fl (Seq (lit p) (Seq (plus Space) (lit q))) t rest c c' →
  c' = c ∧ ∃ ws, blank ws ∧ upper t = upper p +:+ ws +:+ upper q.
Proof.
  intros (t1 & t' & c1 & -> & H1 & H')%matches_seq_inv.
  apply matches_seq_inv in H' as (t2 & t3 & c2 & -> & H2 & H3).
  apply matches_lit_upper in H1 as (Hu1 & -> & _).
  apply matches_ws in H2 as (-> & Hb).
  apply matches_lit_upper in H3 as (Hu3 & -> & _).
  split; [done|]. exists t2. split; [done|].
  rewrite !upper_app, Hu1, Hu3. f_equal. f_equal. apply upper_spaces, Hb.
Qed.

Lemma matches_join_keyword fl t rest c c' :
  matches fl join_keyword t rest c c' → c' = c ∧ join_type_text (upper t).
Proof.
  unfold join_keyword, join_type_text.
  intros [H|[H|[H|[H|H]%matches_alt_inv]%matches_alt_inv]%matches_alt_inv]%matches_alt_inv.
  - apply matches_kw_ws_kw in H as (-> & ws & Hb & ->). split; [done|].
    right. exists ws. auto.
  - apply matches_kw_ws_kw in H as (-> & ws & Hb & ->). split; [done|].
    right. exists ws. auto.
  - apply matches_kw_ws_kw in H as (-> & ws & Hb & ->). split; [done|].
    right. exists ws. auto.
  - apply matches_lit_upper in H as (-> & -> & _). auto.
  - apply matches_seq_inv in H as (t1 & r1 & c1 & -> & H1 & H').
    apply matches_seq_inv in H' as (t2 & r2 & c2 & -> & H2 & H'').
    apply matches_kw_ws_kw in H'' as (-> & ws2 & Hb2 & Hu).
    apply matches_lit_upper in H1 as (Hu1 & -> & _).
    apply matches_ws in H2 as (-> & Hb).
    split; [done|]. right. exists t2. split; [done|]. do 3 right.
    exists ws2. split; [done|].
    rewrite !upper_app, Hu1, Hu. by rewrite (upper_spaces t2) by apply Hb.
Qed.

Lemma join_of_match_shape t rest c :
  matches re_I join_pattern t rest [] c →
  join_type_text (join_type (join_of_match (t, rest, c))) ∧
  qualified_name (join_table (join_of_match (t, rest, c))) ∧
  join_condition (join_of_match (t, rest, c)) ≠ Some "".
Proof.
  unfold join_pattern, join_of_match.
  intros (t1 & r1 & c1 & -> & H1 & H)%matches_seq_inv.
  apply matches_group_inv in H1 as (c0 & -> & [-> Hjt]%matches_join_keyword).
  apply matches_seq_inv in H as (t2 & r2 & c2 & -> & [-> _]%matches_ws & H).
  apply matches_seq_inv in H as (t3 & r3 & c3 & -> & [-> Hq]%matches_qualified & H).
  apply matches_seq_inv in H as (t4 & r4 & c4 & -> & [-> _]%matches_ws & H).
  apply matches_seq_inv in H as (t5 & r5 & c5 & -> & Hon & Hl).
  apply matches_group_free in Hl as ->; [|done].
  apply matches_alt_inv in Hon as [Hon|Hon].
  - apply matches_seq_inv in Hon
      as (t6 & r6 & c6 & -> & (_ & -> & _)%matches_lit_upper & H).
    apply matches_seq_inv in H as (t7 & r7 & c7 & -> & [-> _]%matches_ws & H).
    apply matches_group_inv in H as (c8 & -> & H).
    apply matches_group_free in H as ->; [|done].
    simpl. split; [done|]. split; [done|]. by destruct r7.
  - inversion Hon; subst. simpl. by split.
Qed.

(** X28. On a query of ASCII characters, every join that [_extract_joins]
    returns has as type the keywords of the join in upper case with the
    whitespace of the statement between them (it is not reduced to one
    blank), as table one identifier or two with a dot, and a condition that
    is absent or not empty. *)
Theorem joins_shape (select_statement : string) :
  ascii_text select_statement = true →
  Forall (λ j, join_type_text (join_type j) ∧ qualified_name (join_table j) ∧
               join_condition j ≠ Some "")
    (_extract_joins select_statement).
Proof.
  intros _. unfold _extract_joins, finditer. apply Forall_fmap.
  eapply Forall_impl; [apply finditer_fuel_matches|].
  intros [[t rest] c]. apply join_of_match_shape.
Qed.

(** X28 at an example. *)
Lemma joins_shape_witness :
  Forall (λ j, join_type_text (join_type j) ∧ qualified_name (join_table j) ∧
               join_condition j ≠ Some "")
    (_extract_joins
       "SELECT a FROM t left  join s.u ON t.id = u.id WHERE x=1").
Proof.
  apply (joins_shape
           "SELECT a FROM t left  join s.u ON t.id = u.id WHERE x=1").
  reflexivity.
Defined.

Lemma joins_shape_example :
  _extract_joins
    "SELECT a FROM t left  join s.u ON t.id = u.id WHERE x=1" =
  [ {| join_type := "LEFT  JOIN"; join_table := "s.u";
       join_condition := Some "t.id = u.id" |} ].
Proof. reflexivity. Qed.

(** ** Components that need their keyword *)

Lemma contains_startswith v p : startswith v p = true → contains v p = true.
Proof. intros H. destruct v; simpl in *; by rewrite H. Qed.

Lemma contains_app_r u v p : contains v p = true → contains (u +:+ v) p = true.
Proof.
  intros H. induction u as [|c u IH]; [done|].
  rewrite sapp_cons. cbn [contains]. by rewrite IH, orb_true_r.
Qed.

Lemma startswith_self_app p r : startswith (p +:+ r) p = true.
Proof.
  induction p as [|c p IH]; [apply startswith_nil|].
  rewrite sapp_cons. simpl. by rewrite Ascii.eqb_refl.
Qed.

Lemma contains_middle u p r : contains (u +:+ p +:+ r) p = true.
Proof. apply contains_app_r, contains_startswith, startswith_self_app. Qed.

Lemma search_lit_contains fl p R s x :
  search fl (Seq (lit p) R) s = Some x → contains (upper s) (upper p) = true.
Proof.
  destruct x as [pre [[t rest] c]].
  intros [-> Hm]%search_matches.
  apply matches_seq_inv in Hm as (t1 & t2 & c1 & -> & H1 & _).
  apply matches_lit_upper in H1 as (Hu & _).
  rewrite !upper_app, Hu, sapp_assoc. apply contains_middle.
Qed.

Lemma search_group1_lit_None fl p R s :
  contains (upper s) (upper p) = false →
  search_group1 fl (Seq (lit p) R) s = None.
Proof.
  intros Hc. unfold search_group1.
  destruct (search fl (Seq (lit p) R) s) as [x|] eqn:E; [|done].
  apply search_lit_contains in E. congruence.
Qed.

Lemma join_type_text_contains s : join_type_text s → contains s "JOIN" = true.
Proof.
  intros [->|(ws & _ & [->|[->|[->|(ws2 & _ & ->)]]])]; [done|..];
    repeat apply contains_app_r; done.
Qed.

Lemma search_join_contains s x :
  search re_I join_pattern s = Some x → contains (upper s) "JOIN" = true.
Proof.
  destruct x as [pre [[t rest] c]].
  intros [-> Hm]%search_matches. unfold join_pattern in Hm.
  apply matches_seq_inv in Hm as (t1 & t2 & c1 & -> & H1 & _).
  apply matches_group_inv in H1 as (c0 & _ & [_ Hjt]%matches_join_keyword).
  apply join_type_text_contains in Hjt.
  rewrite !upper_app. apply contains_app_r.
  rewrite sapp_assoc.
  destruct (upper t1) as [|a u] eqn:E; [done|].
  clear -Hjt. revert Hjt. generalize (String a u). intros v Hv.
  induction v as [|b v IH]; [done|].
  rewrite sapp_cons. cbn [contains] in *.
  apply orb_true_iff in Hv as [Hv|Hv].
  - apply startswith_app in Hv as [r Hr]. rewrite <- sapp_cons, Hr, sapp_assoc.
    by rewrite startswith_self_app.
  - by rewrite IH, orb_true_r.
Qed.

(** X29. A query of ASCII characters whose upper-cased text does not contain
    the keyword of a component has no such component: no columns without
    SELECT, no CTEs without WITH, no joins without JOIN, no WHERE, GROUP BY
    and ORDER BY clause without WHERE, GROUP and ORDER. *)
Theorem no_keyword_no_component (select_statement : string) :
  ascii_text select_statement = true →
  (contains (upper select_statement) "SELECT" = false →
   _extract_columns select_statement = []) ∧
  (contains (upper select_statement) "WITH" = false →
   _extract_ctes select_statement = Some []) ∧
  (contains (upper select_statement) "JOIN" = false →
   _extract_joins select_statement = []) ∧
  (contains (upper select_statement) "WHERE" = false →
   _extract_where_clause select_statement = None) ∧
  (contains (upper select_statement) "GROUP" = false →
   _extract_group_by select_statement = None) ∧
  (contains (upper select_statement) "ORDER" = false →
   _extract_order_by select_statement = None).
Proof.
  intros _. split_and!; intros H.
  - unfold _extract_columns, select_pattern.
    by rewrite (search_group1_lit_None _ "SELECT").
  - unfold _extract_ctes, with_pattern.
    by rewrite (search_group1_lit_None _ "WITH").
  - unfold _extract_joins, finditer. simpl.
    destruct (search re_I join_pattern select_statement) as [x|] eqn:E; [|done].
    apply search_join_contains in E. congruence.
  - unfold _extract_where_clause, where_pattern.
    by rewrite (search_group1_lit_None _ "WHERE").
  - unfold _extract_group_by, group_by_pattern.
    by rewrite (search_group1_lit_None _ "GROUP").
  - unfold _extract_order_by, order_by_pattern.
    by rewrite (search_group1_lit_None _ "ORDER").
Qed.

(** X29 at an example. *)
Lemma no_keyword_no_component_witness :
  (contains (upper "select a from t where x=1") "SELECT" = false →
   _extract_columns "select a from t where x=1" = []) ∧
  (contains (upper "select a from t where x=1") "WITH" = false →
   _extract_ctes "select a from t where x=1" = Some []) ∧
  (contains (upper "select a from t where x=1") "JOIN" = false →
   _extract_joins "select a from t where x=1" = []) ∧
  (contains (upper "select a from t where x=1") "WHERE" = false →
   _extract_where_clause "select a from t where x=1" = None) ∧
  (contains (upper "select a from t where x=1") "GROUP" = false →
   _extract_group_by "select a from t where x=1" = None) ∧
  (contains (upper "select a from t where x=1") "ORDER" = false →
   _extract_order_by "select a from t where x=1" = None).
Proof.
  apply (no_keyword_no_component "select a from t where x=1"). reflexivity.
Defined.

(** ** The return type of a function *)

Lemma to_upper_lower_is_upper b : is_lower b = true → is_upper (to_upper b) = true.
Proof. by destruct b as [[] [] [] [] [] [] [] []]. Qed.

Lemma lit_exact fl a b :
  is_upper a = false → is_lower a = false →
  cset_mem fl (Lit a) b = true → b = a.
Proof.
  intros Hu Hl Hb. apply lit_to_upper in Hb.
  unfold to_upper in Hb at 2. rewrite Hl in Hb.
  destruct (is_lower b) eqn:E.
  - apply to_upper_lower_is_upper in E. congruence.
  - unfold to_upper in Hb. by rewrite E in Hb.
Qed.

Lemma matches_return_type t rest c c' :
  matches re_I return_type_pattern t rest c c' →
  ∃ g, group 1 c' = Some g ∧ return_type_text g.
Proof.
  unfold return_type_pattern, opt.
  intros (t1 & r1 & c1 & -> & (_ & -> & _)%matches_lit_upper & H)%matches_seq_inv.
  apply matches_seq_inv in H as (t2 & r2 & c2 & -> & [-> _]%matches_ws & H).
  apply matches_group_inv in H as (c3 & -> & H).
  exists r2. split; [done|].
  apply matches_seq_inv in H as (w & r3 & c4 & -> & [-> Hw]%matches_word & H).
  exists w. split; [done|].
  apply matches_alt_inv in H as [H|H].
  - right.
    apply matches_seq_inv in H as (t5 & r5 & c5 & -> & H5 & H).
    apply matches_seq_inv in H as (args & r6 & c6 & -> & H6 & H7).
    apply matches_one_inv in H5 as (b5 & -> & Hb5 & _).
    apply matches_one_inv in H7 as (b7 & -> & Hb7 & _).
    apply lit_exact in Hb5 as ->; [|done..].
    apply lit_exact in Hb7 as ->; [|done..].
    inversion H6; subst. exists args. split; [done|].
    by rewrite !sapp_cons, !sapp_nil_l.
  - left. inversion H; subst. by rewrite sapp_nil_r.
Qed.

(** X30. The return type that [_parse_function] records is an identifier, or an
    identifier directly followed by a parenthesised text without closing
    parenthesis inside. *)
Theorem return_type_shape (self : SQLParser) (statement name : string)
    (comments : list string) (rt : string) :
  return_type (_parse_function self statement name comments) = Some rt →
  return_type_text rt.
Proof.
  unfold _parse_function. cbn [return_type]. unfold search_group1.
  destruct (search re_I return_type_pattern statement)
    as [[pre [[t rest] c]]|] eqn:E; [|done].
  apply search_matches in E as [_ Hm].
  apply matches_return_type in Hm as (g & -> & Hg). by intros [= <-].
Qed.

(** X30 at an example. *)
Lemma return_type_shape_witness : return_type_text "NUMERIC(10,2)".
Proof.
  apply (return_type_shape SQLParser_init
           "CREATE OR REPLACE FUNCTION f(a INT) RETURNS NUMERIC(10,2) AS $$ $$"
           "f" []).
  by vm_compute.
Defined.
